(** * The process -> analyze text pipeline of [problem3]

    A shallow embedding of [src/problem3/processor/process.py] and
    [src/problem3/analyzer/analyze.py], followed by the properties of the
    tokenizer, the per-document statistics, the corpus report and the
    completion gate.

    Conventions of the embedding:
    - a Python [str] is the list of its code points ([text]);
    - Python numbers that come out of [/] are exact rationals ([Q]); a
      division whose divisor is zero raises [ZeroDivisionError];
    - code that can raise returns a [result];
    - the Unicode character database (which code points beyond ASCII are
      alphanumeric, how [str.lower] maps a string) is not part of the
      source and is an interface ([UnicodeDB]);
    - the file system, the clock and the markup normalizer are inputs of
      the stage that uses them, and every property holds for all of
      them. *)

From Stdlib Require Import String Ascii DecimalString DecimalNat.
From Stdlib Require Import List Bool Arith NArith ZArith QArith Qround Lia Lqa.
From Stdlib Require Import Permutation Sorted.
Import ListNotations.

Local Open Scope nat_scope.
Local Open Scope list_scope.

(* ================================================================== *)
(** * Part I: the embedding *)
(* ================================================================== *)

(** ** Exceptions and results *)

Inductive exn : Type :=
| ZeroDivisionError
| TimeoutError
| ValueError
| IndexError
| OverflowError.

Inductive result (A : Type) : Type :=
| Ok (a : A)
| Raise (e : exn).

Arguments Ok {A} a.
Arguments Raise {A} e.

Definition bind {A B : Type} (m : result A) (k : A -> result B) : result B :=
  match m with
  | Ok a => k a
  | Raise e => Raise e
  end.

Notation "x <- m ;; k" := (bind m (fun x => k))
  (at level 61, m at next level, right associativity).

(** [[f(x) for x in l]] where [f] may raise: the first exception wins. *)
Fixpoint for_each {A B : Type} (f : A -> result B) (l : list A)
  : result (list B) :=
  match l with
  | [] => Ok []
  | x :: l' => y <- f x ;; ys <- for_each f l' ;; Ok (y :: ys)
  end.

(** The quotient of two non-negative integers. *)
Definition ratio (a b : nat) : Q :=
  (inject_Z (Z.of_nat a) / inject_Z (Z.of_nat b))%Q.

(** Python's true division [a / b] on two non-negative integers. *)
Definition py_div (a b : nat) : result Q :=
  match b with
  | O => Raise ZeroDivisionError
  | S _ => Ok (ratio a b)
  end.

(** [a / b if b > 0 else 0], as a value. *)
Definition guarded_ratio (a b : nat) : Q :=
  if 0 <? b then ratio a b else 0%Q.

Definition Qsum (l : list Q) : Q := fold_right Qplus 0%Q l.

(** ** Strings *)

Module Text.

Definition char := N.
Definition text := list char.

Definition of_string (s : String.string) : text :=
  map N_of_ascii (String.list_ascii_of_string s).

Definition char_eq_dec : forall a b : char, {a = b} + {a <> b} := N.eq_dec.
Definition text_eq_dec : forall a b : text, {a = b} + {a <> b} :=
  list_eq_dec char_eq_dec.

Definition between (lo hi c : N) : bool := ((lo <=? c) && (c <=? hi))%N.

(** [str.isspace] on one code point. *)
Definition is_space (c : char) : bool :=
  between 9 13 c || between 28 32 c
  || (c =? 133)%N || (c =? 160)%N || (c =? 5760)%N
  || between 8192 8202 c || (c =? 8232)%N || (c =? 8233)%N
  || (c =? 8239)%N || (c =? 8287)%N || (c =? 12288)%N.

Definition ascii_alnum (c : char) : bool :=
  between 48 57 c || between 65 90 c || between 97 122 c.

(** What the source takes from Python's Unicode tables. *)
Class UnicodeDB : Type := {
  (** [str.isalnum] on a code point beyond ASCII *)
  unicode_alnum : char -> bool;
  (** [str.lower] *)
  str_lower : text -> text;
  (** no code point is both white space and alphanumeric *)
  space_not_alnum : forall c, is_space c = true -> unicode_alnum c = false
}.

(** ASCII letters are folded, every other code point is left alone and
    none beyond ASCII counts as alphanumeric: the database restricted to
    ASCII text. *)
Definition ascii_lower (s : text) : text :=
  map (fun c => if between 65 90 c then (c + 32)%N else c) s.

#[export] Instance ascii_only : UnicodeDB := {|
  unicode_alnum := fun _ => false;
  str_lower := ascii_lower;
  space_not_alnum := fun _ _ => eq_refl
|}.

Section Tokenizer.
Context {U : UnicodeDB}.

(** [\w] under [re.UNICODE]. *)
Definition is_word (c : char) : bool :=
  if (c <? 128)%N then ascii_alnum c || (c =? 95)%N else unicode_alnum c.

(** [[-']] *)
Definition is_joiner (c : char) : bool := (c =? 45)%N || (c =? 39)%N.

Definition starts_with_word (s : text) : bool :=
  match s with
  | [] => false
  | d :: _ => is_word d
  end.

(** truth value of a string: it is not empty *)
Definition truthy (s : text) : bool :=
  match s with
  | [] => false
  | _ :: _ => true
  end.

Definition emit (acc : text) : list text :=
  match acc with
  | [] => []
  | _ :: _ => [acc]
  end.

(** [re.findall(r"\w+(?:[-']\w+)*", s, flags=re.UNICODE)], as the one
    left-to-right pass the regex engine makes.  [acc] is the match in
    progress ([[]] between matches).  A word character extends the
    match ([\w+] is greedy); a hyphen or apostrophe extends it only
    inside a match and only when a word character follows (one more
    round of the group [(?:[-']\w+)]); anything else ends the match,
    is skipped, and the search resumes behind it. *)
Fixpoint scan (acc : text) (s : text) : list text :=
  match s with
  | [] => emit acc
  | c :: rest =>
      if is_word c then scan (acc ++ [c]) rest
      else if is_joiner c && truthy acc && starts_with_word rest
           then scan (acc ++ [c]) rest
           else emit acc ++ scan [] rest
  end.

Definition findall_words (s : text) : list text := scan [] s.

(** The same regex, written after its syntax: [word_run] is [\w*],
    [group_star] is [(?:[-']\w+)*], [match_here] is one attempt of the
    whole pattern at the current position and [findall_regex] the
    search loop of [re.findall].  The fuel bounds the number of
    positions still to visit. *)
Fixpoint word_run (s : text) : text * text :=
  match s with
  | [] => ([], [])
  | c :: rest =>
      if is_word c
      then let (w, r) := word_run rest in (c :: w, r)
      else ([], s)
  end.

Fixpoint group_star (fuel : nat) (s : text) : text * text :=
  match fuel with
  | O => ([], s)
  | S fuel' =>
      match s with
      | c :: rest =>
          if is_joiner c then
            match word_run rest with
            | ([], _) => ([], s)
            | (w, r) => let (g, r') := group_star fuel' r in
                        (c :: w ++ g, r')
            end
          else ([], s)
      | [] => ([], s)
      end
  end.

Definition match_here (s : text) : option (text * text) :=
  match word_run s with
  | ([], _) => None
  | (w, r) => let (g, r') := group_star (length r) r in Some (w ++ g, r')
  end.

Fixpoint findall_regex (fuel : nat) (s : text) : list text :=
  match fuel with
  | O => []
  | S fuel' =>
      match s with
      | [] => []
      | _ :: rest =>
          match match_here s with
          | Some (m, r) => m :: findall_regex fuel' r
          | None => findall_regex fuel' rest
          end
      end
  end.

Fixpoint lstrip (s : text) : text :=
  match s with
  | [] => []
  | c :: rest => if is_space c then lstrip rest else s
  end.

(** [str.strip()] *)
Definition strip (s : text) : text := rev (lstrip (rev (lstrip s))).

(** [re.split] on a one-character class: every delimiter cuts, so
    [n] delimiters give [n + 1] segments. *)
Fixpoint split_on (delim : char -> bool) (s : text) : list text :=
  match s with
  | [] => [[]]
  | c :: rest =>
      if delim c then [] :: split_on delim rest
      else match split_on delim rest with
           | seg :: segs => (c :: seg) :: segs
           | [] => [[c]]
           end
  end.

(** [[.!?]] *)
Definition sentence_end (c : char) : bool :=
  (c =? 46)%N || (c =? 33)%N || (c =? 63)%N.

(** [" ".join(l)] *)
Fixpoint join_space (l : list text) : text :=
  match l with
  | [] => []
  | [s] => s
  | s :: l' => s ++ 32%N :: join_space l'
  end.

Definition sum_len (ws : list text) : nat :=
  fold_right (fun w n => length w + n) 0 ws.

End Tokenizer.

End Text.

Import Text.

(** ** [collections.Counter] and [most_common] *)

Module Counter.

Section Counter.
Context {K : Type} (eq_dec : forall a b : K, {a = b} + {a <> b}).

(** A [Counter] is a dict: its items, in insertion order. *)
Definition counter := list (K * nat).

(** [c[k] += 1]: a key already present keeps its place, a new key goes
    to the end. *)
Fixpoint incr (k : K) (c : counter) : counter :=
  match c with
  | [] => [(k, 1)]
  | (k', n) :: c' =>
      if eq_dec k' k then (k', S n) :: c' else (k', n) :: incr k c'
  end.

(** [Counter(iterable)] *)
Definition count (l : list K) : counter :=
  fold_left (fun c k => incr k c) l [].

(** [c[k]] *)
Fixpoint get (k : K) (c : counter) : nat :=
  match c with
  | [] => 0
  | (k', n) :: c' => if eq_dec k' k then n else get k c'
  end.

(** [sorted(items, key=itemgetter(1), reverse=True)]: Python's sort is
    stable, also under [reverse=True], so an item stays in front of
    every later item with the same count. *)
Fixpoint insert_desc (e : K * nat) (l : counter) : counter :=
  match l with
  | [] => [e]
  | h :: t =>
      if snd e <? snd h then h :: insert_desc e t else e :: h :: t
  end.

Fixpoint sorted_desc (l : counter) : counter :=
  match l with
  | [] => []
  | e :: l' => insert_desc e (sorted_desc l')
  end.

(** [c.most_common(n)], that is
    [heapq.nlargest(n, c.items(), key=itemgetter(1))], which equals
    [sorted(c.items(), key=itemgetter(1), reverse=True)[:n]]. *)
Definition most_common (n : nat) (c : counter) : counter :=
  firstn n (sorted_desc c).

(** Notions the properties are stated with. *)

Definition mem (k : K) (l : list K) : bool :=
  if in_dec eq_dec k l then true else false.

(** The distinct elements of a sequence, in the order in which each
    is seen first. *)
Definition first_seen (l : list K) : list K :=
  fold_left (fun acc k => if mem k acc then acc else acc ++ [k]) l [].

(** [sum(c.values())] *)
Definition total (c : counter) : nat :=
  fold_right (fun e n => snd e + n) 0 c.

Definition has_count (n : nat) (e : K * nat) : bool := snd e =? n.

Definition count_ge (a b : K * nat) : Prop := snd b <= snd a.

Definition occurrences (l : list K) (k : K) : nat := count_occ eq_dec l k.

(** [T] is the table of the [n] most frequent elements of the
    sequence [l]: each entry carries the number of occurrences of its
    key, no key comes twice, the counts go down, nothing left out
    beats an entry, nothing is left out while there is room, and the
    entries with one given count are the first keys with that count in
    first-occurrence order. *)
Record ranking (l : list K) (n : nat) (T : counter) : Prop := {
  ranking_short : length T <= n /\ length T <= length (first_seen l);
  ranking_counts :
    Forall (fun e => snd e = occurrences l (fst e) /\ 0 < snd e) T;
  ranking_distinct : NoDup (map fst T);
  ranking_sorted : StronglySorted count_ge T;
  ranking_top :
    forall k e, In k l -> In e T -> ~ In k (map fst T) ->
                occurrences l k <= snd e;
  ranking_room :
    length T < n -> forall k, In k l -> In k (map fst T);
  ranking_ties :
    forall m, exists rest,
      filter (fun k => occurrences l k =? m) (first_seen l) =
      map fst (filter (has_count m) T) ++ rest
}.

End Counter.

End Counter.

(** ** The completion gate: [wait_for_complete_file]
    (the same function in [process.py] and [analyze.py]) *)

Module Gate.

(** What the loop observes of the outside world: the value of the
    [k]-th call of [time.time()] and the answer of the [k]-th call of
    [os.path.exists(path)] (both counted from 0).  The clock is a wall
    clock in good order: it does not run backwards from one reading to
    the next, and no instant is out of its reach.

    [time.sleep(secs)] first converts [secs] to the nanosecond count of
    the C clock, a signed 64-bit integer, and raises [OverflowError] when
    the count does not fit; that is at about 9.2e9 seconds in magnitude,
    of either sign.  Where exactly depends on the type of the number and
    on the rounding of the interpreter at hand, so the world says for
    which lengths the conversion overflows, within two bounds that hold
    of every interpreter: never up to 9e9 seconds, always from 1e10
    seconds on. *)
Record world : Type := {
  time_time : nat -> Q;
  path_exists : text -> nat -> bool;
  sleep_overflows : Q -> bool;
  clock_monotone : forall k, (time_time k <= time_time (S k))%Q;
  clock_unbounded : forall t : Q, exists k, (t <= time_time k)%Q;
  sleep_in_range : forall secs : Q,
    (- (9000000000) <= secs)%Q -> (secs <= 9000000000)%Q ->
    sleep_overflows secs = false;
  sleep_out_of_range : forall secs : Q,
    (secs <= - (10000000000))%Q \/ (10000000000 <= secs)%Q ->
    sleep_overflows secs = true
}.

Definition Qlt_bool (x y : Q) : bool := negb (Qle_bool y x).

(** The outcome of a call, and how many times the marker was looked
    for. *)
Record run : Type := {
  outcome : result bool;
  polls : nat
}.

Section Gate.
Variable w : world.
Variables (path : text) (timeout interval : Q).

(** [time.sleep(interval)]: the length is converted first, which
    raises [OverflowError] when it is too large in magnitude; a negative
    length that converts is then refused with [ValueError]. *)
Definition time_sleep : result unit :=
  if sleep_overflows w interval then Raise OverflowError
  else if Qlt_bool interval 0 then Raise ValueError
  else Ok tt.

(** Iteration [k] of the [while] loop; [time.time()] was called
    [k + 1] times before its test (once for [start]). *)
Fixpoint loop (fuel k : nat) : option run :=
  match fuel with
  | O => None
  | S fuel' =>
      if Qlt_bool (time_time w (S k) - time_time w 0) timeout then
        if path_exists w path k
        then Some {| outcome := Ok true; polls := S k |}
        else match time_sleep with
             | Ok _ => loop fuel' (S k)
             | Raise e => Some {| outcome := Raise e; polls := S k |}
             end
      else Some {| outcome := Raise TimeoutError; polls := k |}
  end.

Definition wait_for_complete_file (fuel : nat) : option run :=
  loop fuel 0.

(** Notions the properties are stated with. *)

(** The elapsed time read at iteration [k] is below the timeout. *)
Definition in_time (k : nat) : bool :=
  Qlt_bool (time_time w (S k) - time_time w 0) timeout.

(** Every iteration before [k] was in time and found no marker. *)
Definition quiet_before (k : nat) : Prop :=
  forall j, j < k -> in_time j = true /\ path_exists w path j = false.

Definition found_at (k : nat) (r : run) : Prop :=
  outcome r = Ok true /\ polls r = S k /\
  in_time k = true /\ path_exists w path k = true.

Definition timed_out_at (k : nat) (r : run) : Prop :=
  outcome r = Raise TimeoutError /\ polls r = k /\ in_time k = false.

End Gate.

(** A clock that advances by one second per reading. *)
Definition seconds (k : nat) : Q := inject_Z (Z.of_nat k).

Lemma seconds_monotone k : (seconds k <= seconds (S k))%Q.
Proof. unfold seconds. rewrite <- Zle_Qle. lia. Qed.

Lemma seconds_unbounded (t : Q) : exists k, (t <= seconds k)%Q.
Proof.
  exists (Z.to_nat (Qceiling t)). unfold seconds.
  apply Qle_trans with (inject_Z (Qceiling t)); [apply Qle_ceiling |].
  rewrite <- Zle_Qle. lia.
Qed.

(** The conversion of [time.sleep] read exactly: the length in
    nanoseconds, rounded away from zero, is outside
    [-2^63 .. 2^63 - 1]. *)
Definition int64_overflows (secs : Q) : bool :=
  Qlt_bool 9223372036854775807 (secs * 1000000000)
  || Qlt_bool (secs * 1000000000) (- (9223372036854775808)).

Lemma Qlt_bool_spec (x y : Q) : Qlt_bool x y = true <-> (x < y)%Q.
Proof.
  unfold Qlt_bool. rewrite negb_true_iff. split; intros H.
  - apply Qnot_le_lt. intros Hle. apply Qle_bool_iff in Hle. congruence.
  - destruct (Qle_bool y x) eqn:E; [| reflexivity].
    apply Qle_bool_iff in E. exfalso. exact (Qlt_not_le _ _ H E).
Qed.

Lemma int64_in_range (secs : Q) :
  (- (9000000000) <= secs)%Q -> (secs <= 9000000000)%Q ->
  int64_overflows secs = false.
Proof.
  intros Hlo Hhi. unfold int64_overflows. apply orb_false_iff. split.
  - destruct (Qlt_bool _ _) eqn:E; [| reflexivity].
    apply Qlt_bool_spec in E. lra.
  - destruct (Qlt_bool _ _) eqn:E; [| reflexivity].
    apply Qlt_bool_spec in E. lra.
Qed.

Lemma int64_out_of_range (secs : Q) :
  (secs <= - (10000000000))%Q \/ (10000000000 <= secs)%Q ->
  int64_overflows secs = true.
Proof.
  intros H. unfold int64_overflows. apply orb_true_iff.
  destruct H as [H | H]; [right | left]; apply Qlt_bool_spec; lra.
Qed.

Definition ticking (marker : nat -> bool) : world :=
  {| time_time := seconds;
     path_exists := fun _ k => marker k;
     sleep_overflows := int64_overflows;
     clock_monotone := seconds_monotone;
     clock_unbounded := seconds_unbounded;
     sleep_in_range := int64_in_range;
     sleep_out_of_range := int64_out_of_range |}.

End Gate.

(** ** The process stage: [processor/process.py] *)

Module Processor.

(** What [open] and [f.read()] do with one raw document. *)
Inductive load : Type :=
| OpenFails
| ReadFails
| Loaded (content : text).

Inductive status : Type := success | failed.

Definition status_eqb (a b : status) : bool :=
  match a, b with
  | success, success | failed, failed => true
  | _, _ => false
  end.

(** One item of the module-level list [results]. *)
Record outcome : Type := {
  HTML_file : text;
  outcome_status : status
}.

(** The dict [analyze_text] returns. *)
Record text_stats : Type := {
  words : nat;
  sentences : nat;
  paragraphs : nat;
  avg_word_length : Q
}.

Record statistics : Type := {
  word_count : nat;
  sentence_count : nat;
  paragraph_count : nat;
  stat_avg_word_length : Q
}.

Record processed_file : Type := {
  source_file : text;
  text_of : text;
  stats : statistics;
  links : list text;
  images : list text;
  processed_at : text
}.

(** The dict written to [process_complete.json]. *)
Record processing_status : Type := {
  timestamp : text;
  HTML_files : nat;
  successful : nat;
  failed_count : nat;
  status_results : list outcome
}.

(** The keys under which [json.dump] writes the status. *)
Definition status_keys : list String.string :=
  ["timestamp"; "HTML files"; "successful"; "failed"; "results"]%string.
Definition outcome_keys : list String.string := ["HTML file"; "status"]%string.

(** What [json.dump] finds in the status: strings, numbers, and the
    list of the records, each a dict from keys to strings.  A dict is the
    list of its items, in the order of the literal. *)
Inductive value : Type :=
| Str (s : text)
| Num (n : nat)
| Dicts (items : list (list (String.string * text))).

Definition status_name (s : status) : text :=
  match s with
  | success => of_string "success"
  | failed => of_string "failed"
  end.

(** The dict [load_html_files] appends to [results]. *)
Definition outcome_dict (r : outcome) : list (String.string * text) :=
  [("HTML file"%string, HTML_file r);
   ("status"%string, status_name (outcome_status r))].

(** The dict [status] that [main] dumps to [process_complete.json]. *)
Definition status_dict (s : processing_status)
  : list (String.string * value) :=
  [("timestamp"%string, Str (timestamp s));
   ("HTML files"%string, Num (HTML_files s));
   ("successful"%string, Num (successful s));
   ("failed"%string, Num (failed_count s));
   ("results"%string, Dicts (map outcome_dict (status_results s)))].

Definition decimal (n : nat) : text :=
  of_string (DecimalString.NilZero.string_of_uint (Nat.to_uint n)).

(** [<] on [str]: lexicographic on code points. *)
Fixpoint text_ltb (a b : text) : bool :=
  match a, b with
  | _, [] => false
  | [], _ :: _ => true
  | x :: a', y :: b' =>
      if (x <? y)%N then true
      else if (y <? x)%N then false
      else text_ltb a' b'
  end.

Fixpoint insert_asc (x : text) (l : list text) : list text :=
  match l with
  | [] => [x]
  | h :: t => if text_ltb h x then h :: insert_asc x t else x :: h :: t
  end.

(** [sorted(paths)] *)
Fixpoint sorted (l : list text) : list text :=
  match l with
  | [] => []
  | x :: l' => insert_asc x (sorted l')
  end.

(** [(?:\r?\n)*] at the head of [s]: the number of line breaks it
    takes and what is left behind them. *)
Fixpoint line_breaks (s : text) : nat * text :=
  match s with
  | [] => (0, s)
  | c :: rest =>
      if (c =? 10)%N then
        let (n, r) := line_breaks rest in (S n, r)
      else if (c =? 13)%N then
        match rest with
        | d :: rest' =>
            if (d =? 10)%N then
              let (n, r) := line_breaks rest' in (S n, r)
            else (0, s)
        | [] => (0, s)
        end
      else (0, s)
  end.

(** [re.split(r"(?:\r?\n){2,}", s)]; the fuel bounds the positions
    still to visit. *)
Fixpoint split_paragraphs (fuel : nat) (s : text) : list text :=
  match fuel with
  | O => [s]
  | S fuel' =>
      match s with
      | [] => [[]]
      | c :: rest =>
          let (n, r) := line_breaks s in
          if 2 <=? n then [] :: split_paragraphs fuel' r
          else match split_paragraphs fuel' rest with
               | seg :: segs => (c :: seg) :: segs
               | [] => [[c]]
               end
      end
  end.

Section Process.
Context {U : UnicodeDB}.

(** [analyze_text] *)
Definition analyze_text (t : text) : result text_stats :=
  let ws := findall_words t in
  let word_count := length ws in
  let total_words_length := sum_len ws in
  avg_words_length <-
    (if 0 <? word_count then py_div total_words_length word_count
     else Ok 0%Q) ;;
  let sents := split_on sentence_end t in
  let sents := map strip (filter (fun s => truthy (strip s)) sents) in
  let sentence_count := length sents in
  let paras := split_paragraphs (S (length t)) t in
  let paras := map strip (filter (fun p => truthy (strip p)) paras) in
  let paragraph_count := length paras in
  Ok {| words := word_count;
        sentences := sentence_count;
        paragraphs := paragraph_count;
        avg_word_length := avg_words_length |}.

(** [strip_html] turns markup into [(text, links, images)].  Nothing
    below looks inside it: the process stage is stated for every
    normalizer. *)
Variable strip_html : text -> text * list text * list text.

(** The raw directory: what [open] and [f.read()] do at each path (the
    paths [glob.glob] lists are an argument of [main]). *)
Variable read_file : text -> load.

(** The [k]-th reading of [datetime.now], formatted. *)
Variable now : nat -> text.

(** One round of the generator [load_html_files]: the new value of
    the global [results] and what is yielded, if anything.  A failure
    of [f.read()] comes after the [success] record was appended. *)
Definition load_one (results : list outcome) (html_file : text)
  : list outcome * option (text * text) :=
  match read_file html_file with
  | OpenFails =>
      (results ++ [{| HTML_file := html_file; outcome_status := failed |}],
       None)
  | ReadFails =>
      ((results ++ [{| HTML_file := html_file; outcome_status := success |}])
         ++ [{| HTML_file := html_file; outcome_status := failed |}],
       None)
  | Loaded content =>
      (results ++ [{| HTML_file := html_file; outcome_status := success |}],
       Some (html_file, content))
  end.

(** The state of [main]'s loop: the global [results], the counter [i]
    and the files written under [/shared/processed], oldest first. *)
Record state : Type := {
  results : list outcome;
  i : nat;
  written : list (text * processed_file)
}.

Definition initial : state := {| results := []; i := 1; written := [] |}.

(** The body of [main]'s [for] loop. *)
Definition body (st : state) (html_content : text) : result state :=
  let '(text, links, images) := strip_html html_content in
  analyze_text_dic <- analyze_text text ;;
  let processed :=
    {| source_file := of_string "page_" ++ decimal (i st) ++ of_string ".html";
       text_of := text;
       stats := {| word_count := words analyze_text_dic;
                   sentence_count := sentences analyze_text_dic;
                   paragraph_count := paragraphs analyze_text_dic;
                   stat_avg_word_length := avg_word_length analyze_text_dic |};
       links := links;
       images := images;
       processed_at := now (i st - 1) |} in
  Ok {| results := results st;
        i := i st + 1;
        written := written st ++
          [(of_string "/shared/processed/page_" ++ decimal (i st)
              ++ of_string ".json", processed)] |}.

Definition visit (st : state) (html_file : text) : result state :=
  match load_one (results st) html_file with
  | (results', None) =>
      Ok {| results := results'; i := i st; written := written st |}
  | (results', Some (_, html_content)) =>
      body {| results := results'; i := i st; written := written st |}
           html_content
  end.

Fixpoint visit_all (st : state) (files : list text) : result state :=
  match files with
  | [] => Ok st
  | f :: files' => st' <- visit st f ;; visit_all st' files'
  end.

Definition count_status (s : status) (l : list outcome) : nat :=
  length (filter (fun r => status_eqb (outcome_status r) s) l).

(** [main], after the gate: the artifacts written and the status. *)
Definition main (glob_html : list text)
  : result (list (text * processed_file) * processing_status) :=
  st <- visit_all initial (sorted glob_html) ;;
  Ok (written st,
      {| timestamp := now (i st - 1);
         HTML_files := i st - 1;
         successful := count_status success (results st);
         failed_count := count_status failed (results st);
         status_results := results st |}).

(** Notions the properties are stated with. *)

(** The record a document gets: [failed] when it does not load. *)
Definition record_of (html_file : text) : outcome :=
  {| HTML_file := html_file;
     outcome_status := match read_file html_file with
                       | Loaded _ => success
                       | OpenFails | ReadFails => failed
                       end |}.

(** The plain text the normalizer makes of a raw document. *)
Definition text_part (c : text) : text := fst (fst (strip_html c)).

(** The contents of the documents that load, in order. *)
Definition contents (files : list text) : list text :=
  flat_map (fun f => match read_file f with
                     | Loaded c => [c]
                     | OpenFails | ReadFails => []
                     end) files.

(** [word_count == 0] implies [avg_word_length == 0], and otherwise
    the average is the sum of the token lengths over the count. *)
Definition average_guarded (p : processed_file) : Prop :=
  let ws := findall_words (text_of p) in
  word_count (stats p) = length ws /\
  stat_avg_word_length (stats p) =
    if word_count (stats p) =? 0 then 0%Q
    else ratio (sum_len ws) (word_count (stats p)).

End Process.

(** A raw directory to run the stage on: [a.html] cannot be opened,
    [c.html] opens and then fails at [read], every other path holds the
    text [one two]; and a normalizer that leaves the text alone. *)
Definition sample_dir (f : text) : load :=
  if text_eq_dec f (of_string "/shared/raw/a.html") then OpenFails
  else if text_eq_dec f (of_string "/shared/raw/c.html") then ReadFails
  else Loaded (of_string "one two").

Definition keep_text (c : text) : text * list text * list text := (c, [], []).

Definition no_stamp (k : nat) : text := [].

End Processor.

(** ** The analyze stage: [analyzer/analyze.py] *)

Module Analyzer.

Section Jaccard.
Context {A : Type} (eq_dec : forall a b : A, {a = b} + {a <> b}).

Definition mem (x : A) (l : list A) : bool :=
  if in_dec eq_dec x l then true else false.

(** [set(l)]: the distinct elements of [l]. *)
Definition set (l : list A) : list A := nodup eq_dec l.

Definition intersection (s1 s2 : list A) : list A :=
  filter (fun x => mem x s2) s1.

Definition union (s1 s2 : list A) : list A :=
  s1 ++ filter (fun x => negb (mem x s1)) s2.

(** [jaccard_similarity] *)
Definition jaccard_similarity (doc1_words doc2_words : list A) : result Q :=
  let set1 := set doc1_words in
  let set2 := set doc2_words in
  let inter := intersection set1 set2 in
  let uni := union set1 set2 in
  match uni with
  | _ :: _ => py_div (length inter) (length uni)
  | [] => Ok 0%Q
  end.

(** The value the function returns (it never raises). *)
Definition jaccard_value (doc1_words doc2_words : list A) : Q :=
  let set1 := set doc1_words in
  let set2 := set doc2_words in
  match union set1 set2 with
  | _ :: _ => ratio (length (intersection set1 set2))
                    (length (union set1 set2))
  | [] => 0%Q
  end.

End Jaccard.

Record word_entry : Type := {
  word : text;
  count : nat;
  frequency : Q
}.

Record similarity_entry : Type := {
  doc1 : text;
  doc2 : text;
  similarity : Q
}.

(** Written under the keys [word] and [count]. *)
Record bigram_entry : Type := {
  bigram : text * text;
  bigram_count : nat
}.

Record readability_metrics : Type := {
  avg_sentence_length : Q;
  avg_word_length : Q;
  complexity_score : Q
}.

Record final_report : Type := {
  processing_timestamp : text;
  documents_processed : nat;
  total_words : nat;
  unique_words : nat;
  top_100_words : list word_entry;
  document_similarity : list similarity_entry;
  top_bigrams : list bigram_entry;
  readability : readability_metrics
}.

Definition bigram_eq_dec : forall a b : text * text, {a = b} + {a <> b}.
Proof. decide equality; apply text_eq_dec. Defined.

Definition word_items (t : list word_entry) : list (text * nat) :=
  map (fun e => (word e, count e)) t.

Definition bigram_items (t : list bigram_entry) : list ((text * text) * nat) :=
  map (fun e => (bigram e, bigram_count e)) t.

Definition page (n : nat) : text :=
  of_string "page_" ++ Processor.decimal n ++ of_string ".json".

Section Analyze.
Context {U : UnicodeDB}.

Definition text_of := Processor.text_of.

(** The token sequence [words] of the whole corpus. *)
Definition corpus_text (files : list Processor.processed_file) : text :=
  join_space (map text_of files).

Definition corpus_words (files : list Processor.processed_file)
  : list text :=
  findall_words (corpus_text files).

(** The loop that fills [top_100_words]. *)
Definition word_table (ws : list text) : result (list word_entry) :=
  let total_words_count := length ws in
  let lower_words := map str_lower ws in
  let words_freq_dic := Counter.count text_eq_dec lower_words in
  for_each
    (fun item : text * nat =>
       let (word, count) := item in
       frequency <- py_div count total_words_count ;;
       Ok {| word := word; count := count; frequency := frequency |})
    (Counter.most_common 100 words_freq_dic).

(** The body of the inner loop over [j]. *)
Definition similarity_at (files : list Processor.processed_file)
  (i j : nat) : result (list similarity_entry) :=
  if i =? j then Ok []
  else
    match nth_error files i, nth_error files j with
    | Some fi, Some fj =>
        similarity <- jaccard_similarity char_eq_dec (text_of fi) (text_of fj) ;;
        Ok [{| doc1 := page i; doc2 := page j; similarity := similarity |}]
    | _, _ => Raise IndexError
    end.

(** [for i in range(n): for j in range(i + 1, n): ...] *)
Definition similarity_table (files : list Processor.processed_file)
  : result (list similarity_entry) :=
  let n := length files in
  rows <- for_each
            (fun i =>
               row <- for_each (similarity_at files i)
                        (seq (i + 1) (n - (i + 1))) ;;
               Ok (concat row))
            (seq 0 n) ;;
  Ok (concat rows).

(** The index pairs the two loops visit, in order. *)
Definition index_pairs (n : nat) : list (nat * nat) :=
  flat_map (fun i => map (pair i) (seq (i + 1) (n - (i + 1)))) (seq 0 n).

Definition text_at (files : list Processor.processed_file) (i : nat)
  : text :=
  match nth_error files i with
  | Some f => text_of f
  | None => []
  end.

(** [zip(words, words[1:])], counted, the 100 most common. *)
Definition bigram_table (ws : list text) : list bigram_entry :=
  let bigrams := combine ws (tl ws) in
  let bigrams_freq_dic := Counter.count bigram_eq_dec bigrams in
  map (fun item : (text * text) * nat =>
         {| bigram := fst item; bigram_count := snd item |})
      (Counter.most_common 100 bigrams_freq_dic).

(** [main], after the gate and the loading of the processed files
    (in the order of [glob.glob]); [stamp] is [datetime.now]. *)
Definition main (stamp : text) (all_processed_files : list Processor.processed_file)
  : result final_report :=
  let all_texts := corpus_text all_processed_files in
  let ws := findall_words all_texts in
  let total_words_count := length ws in
  let unique_words_count := length (set text_eq_dec ws) in
  top_100 <- word_table ws ;;
  doc_similarity <- similarity_table all_processed_files ;;
  let top_bi := bigram_table ws in
  avg_word_len <-
    (if 0 <? total_words_count
     then py_div (sum_len ws) total_words_count
     else Ok 0%Q) ;;
  let sents := split_on sentence_end all_texts in
  let sents := filter (fun s => truthy (strip s)) sents in
  let total_sentences := length sents in
  avg_words_per_sentence <-
    (if 0 <? total_sentences
     then py_div total_words_count total_sentences
     else Ok 0%Q) ;;
  let complexity := (avg_word_len * avg_words_per_sentence)%Q in
  Ok {| processing_timestamp := stamp;
        documents_processed := length all_processed_files;
        total_words := total_words_count;
        unique_words := unique_words_count;
        top_100_words := top_100;
        document_similarity := doc_similarity;
        top_bigrams := top_bi;
        readability :=
          {| avg_sentence_length := avg_word_len;
             avg_word_length := avg_words_per_sentence;
             complexity_score := complexity |} |}.

(** *** The values [main] computes, free of the exception plumbing
    (the analyze stage never raises; see [main_returns]) *)

Definition word_entry_of (total : nat) (item : text * nat) : word_entry :=
  {| word := fst item; count := snd item;
     frequency := ratio (snd item) total |}.

Definition similarity_entry_of (files : list Processor.processed_file)
  (p : nat * nat) : similarity_entry :=
  {| doc1 := page (fst p); doc2 := page (snd p);
     similarity := jaccard_value char_eq_dec (text_at files (fst p))
                                 (text_at files (snd p)) |}.

Definition nonblank_sentences (t : text) : list text :=
  filter (fun s => truthy (strip s)) (split_on sentence_end t).

Definition report (stamp : text) (files : list Processor.processed_file)
  : final_report :=
  let ws := corpus_words files in
  let avg_word_len := guarded_ratio (sum_len ws) (length ws) in
  let avg_words_per_sentence :=
    guarded_ratio (length ws)
                  (length (nonblank_sentences (corpus_text files))) in
  {| processing_timestamp := stamp;
     documents_processed := length files;
     total_words := length ws;
     unique_words := length (set text_eq_dec ws);
     top_100_words :=
       map (word_entry_of (length ws))
           (Counter.most_common 100
              (Counter.count text_eq_dec (map str_lower ws)));
     document_similarity :=
       map (similarity_entry_of files) (index_pairs (length files));
     top_bigrams := bigram_table ws;
     readability :=
       {| avg_sentence_length := avg_word_len;
          avg_word_length := avg_words_per_sentence;
          complexity_score := (avg_word_len * avg_words_per_sentence)%Q |} |}.

(** *** What the specification asks for, in its own words *)

(** Jaccard similarity over the two documents' distinct token sets. *)
Definition token_similarity (t1 t2 : text) : Q :=
  jaccard_value text_eq_dec (findall_words t1) (findall_words t2).

(** Consecutive pairs of each document's own lower-cased tokens,
    document after document. *)
Definition bigrams_per_document (files : list Processor.processed_file)
  : list (text * text) :=
  flat_map (fun f =>
              let ws := map str_lower (findall_words (text_of f)) in
              combine ws (tl ws))
           files.

Definition bigram_table_per_document
  (files : list Processor.processed_file) : list bigram_entry :=
  map (fun item : (text * text) * nat =>
         {| bigram := fst item; bigram_count := snd item |})
      (Counter.most_common 100
         (Counter.count bigram_eq_dec (bigrams_per_document files))).

End Analyze.

(** A processed file as [json.load] returns it; only ["text"] is read. *)
Definition doc (s : String.string) : Processor.processed_file :=
  {| Processor.source_file := [];
     Processor.text_of := of_string s;
     Processor.stats := {| Processor.word_count := 0;
                           Processor.sentence_count := 0;
                           Processor.paragraph_count := 0;
                           Processor.stat_avg_word_length := 0%Q |};
     Processor.links := [];
     Processor.images := [];
     Processor.processed_at := [] |}.

End Analyzer.


(** ** The normalizer: [strip_html] of [processor/process.py] *)

Module Html.

(** *** The two loops of [re]

    [m s] is one attempt of a pattern at the head of [s]: [None] when
    the pattern does not match there, and otherwise the number of
    characters of the match behind the first one (no pattern here matches
    the empty string).  [skip] counts the characters of the current match
    that are still to be passed. *)

Section Loops.
Variable m : text -> option nat.
Variable repl : text.

(** [re.sub(pattern, repl, s)] *)
Fixpoint sub_from (skip : nat) (s : text) : text :=
  match s with
  | [] => []
  | c :: rest =>
      match skip with
      | S k => sub_from k rest
      | O =>
          match m s with
          | Some n => repl ++ sub_from n rest
          | None => c :: sub_from 0 rest
          end
      end
  end.

Definition sub (s : text) : text := sub_from 0 s.

End Loops.

Section Findall.
(** Here a match also gives the text of the pattern's group. *)
Variable m : text -> option (text * nat).

(** [re.findall(pattern, s)] for a pattern with one group *)
Fixpoint findall_from (skip : nat) (s : text) : list text :=
  match s with
  | [] => []
  | c :: rest =>
      match skip with
      | S k => findall_from k rest
      | O =>
          match m s with
          | Some (g, n) => g :: findall_from n rest
          | None => findall_from 0 rest
          end
      end
  end.

Definition findall (s : text) : list text := findall_from 0 s.

End Findall.

(** The longest prefix of characters that satisfy [p], and the rest. *)
Fixpoint span (p : char -> bool) (s : text) : text * text :=
  match s with
  | [] => ([], [])
  | c :: rest =>
      if p c then let (r, s') := span p rest in (c :: r, s')
      else ([], s)
  end.

(** [[^>]] *)
Definition not_gt (c : char) : bool := negb (c =? 62)%N.

(** The class of the two quote characters, apostrophe and double
    quote. *)
Definition is_quote (c : char) : bool := (c =? 39)%N || (c =? 34)%N.

(** The class of the group: anything but a quote character, a space
    and [>]. *)
Definition in_value (c : char) : bool :=
  negb (is_quote c || (c =? 32)%N || (c =? 62)%N).

Section Patterns.

(** [re.IGNORECASE] beyond ASCII is in Python's case tables, not in the
    source: [unicode_ci p d] tells whether the code point [d], not an
    ASCII one, matches the lower-case ASCII letter [p] of a pattern. *)
Variable unicode_ci : char -> char -> bool.

(** One literal character [p] of a pattern compiled with
    [re.IGNORECASE] (the patterns are written in lower case) against the
    character [d]: a letter matches itself, its capital and what the
    case tables add; any other character matches itself only. *)
Definition char_ci (p d : char) : bool :=
  if between 97 122 p then
    if (d <? 128)%N then (d =? p)%N || (d + 32 =? p)%N else unicode_ci p d
  else (d =? p)%N.

(** A literal at the head of [s]: what is left behind it. *)
Fixpoint prefix_ci (pat s : text) : option text :=
  match pat with
  | [] => Some s
  | p :: pat' =>
      match s with
      | d :: s' => if char_ci p d then prefix_ci pat' s' else None
      | [] => None
      end
  end.

(** [.*?] and then a literal, under [re.DOTALL]: the first place where
    the literal matches; what is left behind it. *)
Fixpoint find_ci (pat s : text) : option text :=
  match prefix_ci pat s with
  | Some r => Some r
  | None =>
      match s with
      | [] => None
      | _ :: s' => find_ci pat s'
      end
  end.

(** [<name[^>]*>.*?</name>] with [re.DOTALL | re.IGNORECASE], for
    [name] one of [script], [style]. *)
Definition block_match (name : text) (s : text) : option nat :=
  match prefix_ci (60%N :: name) s with
  | None => None
  | Some s1 =>
      match snd (span not_gt s1) with
      | [] => None
      | _ :: s3 =>
          match find_ci (60%N :: 47%N :: name ++ [62%N]) s3 with
          | None => None
          | Some s4 => Some (length s - length s4 - 1)
          end
      end
  end.

(** The pattern of [links] and [images] with [re.IGNORECASE], for
    [name] one of [href], [src]: the literal [name=], one quote
    character or none, and the group, one or more characters of the class
    above.  The result is the group and the length of the match. *)
Definition attr_match (name : text) (s : text) : option (text * nat) :=
  match prefix_ci (name ++ [61%N]) s with
  | None => None
  | Some s1 =>
      let s2 := match s1 with
                | q :: s1' => if is_quote q then s1' else s1
                | [] => s1
                end in
      match span in_value s2 with
      | ([], _) => None
      | (g, s3) => Some (g, length s - length s3 - 1)
      end
  end.

(** [<[^>]+>] *)
Definition tag_match (s : text) : option nat :=
  match s with
  | [] => None
  | c :: s1 =>
      if (c =? 60)%N then
        let (r, s2) := span not_gt s1 in
        match r, s2 with
        | _ :: _, _ :: _ => Some (length r + 1)
        | _, _ => None
        end
      else None
  end.

(** [\s+] *)
Definition space_match (s : text) : option nat :=
  match span is_space s with
  | ([], _) => None
  | (_ :: r, _) => Some (length r)
  end.

(** [strip_html] *)
Definition strip_html (html_content : text) : text * list text * list text :=
  let html_content := sub (block_match (of_string "script")) [] html_content in
  let html_content := sub (block_match (of_string "style")) [] html_content in
  let links := findall (attr_match (of_string "href")) html_content in
  let images := findall (attr_match (of_string "src")) html_content in
  let text := sub tag_match [32%N] html_content in
  let text := strip (sub space_match [32%N] text) in
  (text, links, images).

End Patterns.

(** The case tables cut down to ASCII. *)
Definition ascii_ci (p d : char) : bool := false.

End Html.

(** ** Notions for the further properties *)

(** Two sequences hold the same elements. *)
Definition same_elements {A : Type} (l l' : list A) : Prop :=
  forall x, In x l <-> In x l'.

(** Two sequences have no element in common. *)
Definition disjoint {A : Type} (l l' : list A) : Prop :=
  forall x, In x l -> ~ In x l'.

(** *** Normal forms of the text of a document *)

Definition starts_with_space (s : text) : bool :=
  match s with
  | [] => false
  | c :: _ => is_space c
  end.

(** Every white-space character is a space (U+0020) with no white
    space right behind it. *)
Fixpoint collapsed (s : text) : bool :=
  match s with
  | [] => true
  | c :: rest =>
      (negb (is_space c) || ((c =? 32)%N && negb (starts_with_space rest)))
      && collapsed rest
  end.

(** Where a scan for [<[^>]+>] stands: outside, right behind a [<], or
    behind a [<] and one character or more that are not [>]. *)
Inductive tag_state : Type := Outside | Opened | Inside.

(** [None]: the character closes a tag. *)
Definition tag_step (st : tag_state) (c : char) : option tag_state :=
  match st with
  | Outside => Some (if (c =? 60)%N then Opened else Outside)
  | Opened => Some (if (c =? 62)%N then Outside else Inside)
  | Inside => if (c =? 62)%N then None else Some Inside
  end.

Fixpoint tag_free_from (st : tag_state) (s : text) : bool :=
  match s with
  | [] => true
  | c :: rest =>
      match tag_step st c with
      | Some st' => tag_free_from st' rest
      | None => false
      end
  end.

(** What white space does to the scan. *)
Definition space_step (st : tag_state) : tag_state :=
  match st with
  | Outside => Outside
  | Opened | Inside => Inside
  end.

(** The pattern [m] matches at no position of [s]. *)
Definition matches_nowhere {R : Type} (m : text -> option R) (s : text) : Prop :=
  forall a b, s = a ++ b -> m b = None.

(** *** The artifacts of the process stage *)

Definition artifact_path (k : nat) : text :=
  of_string "/shared/processed/page_" ++ Processor.decimal k
    ++ of_string ".json".

Section Artifacts.
Context {U : UnicodeDB}.
Variable strip_html : text -> text * list text * list text.
Variable read_file : text -> Processor.load.
Variable now : nat -> text.

(** [p] is the artifact of ordinal [k] for a raw document of content
    [c]: its label, what the normalizer makes of [c], the time stamp, and
    the statistics [analyze_text] returns on its text. *)
Definition artifact_of (k : nat) (c : text) (p : Processor.processed_file)
  : Prop :=
  Processor.source_file p =
    of_string "page_" ++ Processor.decimal k ++ of_string ".html" /\
  (Processor.text_of p, Processor.links p, Processor.images p) = strip_html c /\
  Processor.processed_at p = now (k - 1) /\
  Processor.analyze_text (Processor.text_of p) =
    Ok {| Processor.words := Processor.word_count (Processor.stats p);
          Processor.sentences := Processor.sentence_count (Processor.stats p);
          Processor.paragraphs := Processor.paragraph_count (Processor.stats p);
          Processor.avg_word_length :=
            Processor.stat_avg_word_length (Processor.stats p) |}.

(** The files written are the artifacts of ordinals [first],
    [first + 1], ... for the contents [cs], in order. *)
Definition artifacts_of (first : nat) (cs : list text)
  (out : list (text * Processor.processed_file)) : Prop :=
  length out = length cs /\
  forall k c, nth_error cs k = Some c ->
    exists p, nth_error out k = Some (artifact_path (first + k), p) /\
              artifact_of (first + k) c p.

(** The records one document leaves in [results]. *)
Definition records_of (f : text) : list Processor.outcome :=
  match read_file f with
  | Processor.OpenFails =>
      [{| Processor.HTML_file := f; Processor.outcome_status := Processor.failed |}]
  | Processor.ReadFails =>
      [{| Processor.HTML_file := f; Processor.outcome_status := Processor.success |};
       {| Processor.HTML_file := f; Processor.outcome_status := Processor.failed |}]
  | Processor.Loaded _ =>
      [{| Processor.HTML_file := f; Processor.outcome_status := Processor.success |}]
  end.

Definition opens (f : text) : bool :=
  match read_file f with
  | Processor.OpenFails => false
  | Processor.ReadFails | Processor.Loaded _ => true
  end.

Definition loads (f : text) : bool :=
  match read_file f with
  | Processor.Loaded _ => true
  | Processor.OpenFails | Processor.ReadFails => false
  end.

Definition read_fails (f : text) : bool :=
  match read_file f with
  | Processor.ReadFails => true
  | Processor.OpenFails | Processor.Loaded _ => false
  end.

End Artifacts.

(** [<=] on [str]. *)
Definition text_le (a b : text) : Prop := Processor.text_ltb b a = false.

Section TokenShape.
Context {U : UnicodeDB}.

(** Every character is a word character, or a hyphen or apostrophe with
    a word character right behind it. *)
Fixpoint joined (s : text) : bool :=
  match s with
  | [] => true
  | c :: rest =>
      (is_word c || (is_joiner c && starts_with_word rest)) && joined rest
  end.

(** [s] as a whole matches [\w+(?:[-']\w+)*]. *)
Definition is_token (s : text) : bool := starts_with_word s && joined s.

Definition has_word_char (s : text) : bool := existsb is_word s.

(** What the scan holds while a match is in progress: nothing, a whole
    token, or a token and a joiner that the next character completes. *)
Inductive pending : text -> text -> Prop :=
| pending_none s : pending [] s
| pending_token acc s : is_token acc = true -> pending acc s
| pending_joiner acc j s :
    is_token acc = true -> is_joiner j = true ->
    starts_with_word s = true -> pending (acc ++ [j]) s.

End TokenShape.

(* ================================================================== *)
(** * Part II: properties *)
(* ================================================================== *)

(** ** The tokenizer *)

Section TokenizerFacts.
Context {U : UnicodeDB}.

Lemma ascii_space_check :
  forallb (fun n => let c := N.of_nat n in
                    implb (is_space c)
                          (negb (ascii_alnum c || (c =? 95)%N)
                           && negb (is_joiner c)))
          (seq 0 128) = true.
Proof. vm_compute. reflexivity. Qed.

Lemma joiner_is_ascii c : is_joiner c = true -> (c < 128)%N.
Proof.
  unfold is_joiner. rewrite orb_true_iff, !N.eqb_eq. lia.
Qed.

Lemma space_not_word c : is_space c = true -> is_word c = false.
Proof.
  intros Hs. unfold is_word.
  destruct (N.ltb_spec c 128) as [Hlt | Hge].
  - pose proof ascii_space_check as Hall.
    rewrite forallb_forall in Hall.
    specialize (Hall (N.to_nat c)).
    rewrite N2Nat.id in Hall. cbv zeta in Hall.
    rewrite Hs in Hall. simpl in Hall.
    assert (Hin : In (N.to_nat c) (seq 0 128)) by (apply in_seq; lia).
    apply Hall in Hin. apply andb_true_iff in Hin as [Hin _].
    now apply negb_true_iff in Hin.
  - now apply space_not_alnum.
Qed.

Lemma space_not_joiner c : is_space c = true -> is_joiner c = false.
Proof.
  intros Hs. destruct (is_joiner c) eqn:Hj; [exfalso | reflexivity].
  pose proof (joiner_is_ascii c Hj) as Hlt.
  pose proof ascii_space_check as Hall.
  rewrite forallb_forall in Hall.
  specialize (Hall (N.to_nat c)).
  rewrite N2Nat.id in Hall. cbv zeta in Hall.
  rewrite Hs, Hj in Hall. simpl in Hall.
  assert (Hin : In (N.to_nat c) (seq 0 128)) by (apply in_seq; lia).
  apply Hall in Hin. rewrite andb_false_r in Hin. discriminate.
Qed.

(** A character that is neither a word character nor a joiner cuts the
    scan in two independent halves. *)
Lemma scan_cut c s1 s2 acc :
  is_word c = false -> is_joiner c = false ->
  scan acc (s1 ++ c :: s2) = scan acc s1 ++ scan [] s2.
Proof.
  intros Hw Hj. revert acc.
  induction s1 as [| d s1 IH]; intros acc; simpl.
  - now rewrite Hw, Hj.
  - destruct (is_word d); [apply IH |].
    assert (Hnext : starts_with_word (s1 ++ c :: s2) = starts_with_word s1).
    { destruct s1; simpl; [exact Hw | reflexivity]. }
    rewrite Hnext.
    destruct (is_joiner d && truthy acc && starts_with_word s1).
    + apply IH.
    + now rewrite IH, app_assoc.
Qed.

Lemma scan_no_word s :
  forallb (fun c => negb (is_word c)) s = true -> scan [] s = [].
Proof.
  induction s as [| c s IH]; simpl; [reflexivity |].
  rewrite andb_true_iff, negb_true_iff. intros [Hc Hs].
  rewrite Hc, andb_false_r. simpl. auto.
Qed.

Lemma spaces_no_word s :
  forallb is_space s = true ->
  forallb (fun c => negb (is_word c)) s = true.
Proof.
  rewrite !forallb_forall. intros H c Hin.
  now rewrite space_not_word by auto.
Qed.

Lemma scan_skip_spaces l s :
  forallb is_space l = true -> scan [] (l ++ s) = scan [] s.
Proof.
  induction l as [| c l IH]; simpl; [reflexivity |].
  rewrite andb_true_iff. intros [Hc Hl].
  now rewrite (space_not_word c Hc), andb_false_r, IH.
Qed.

Lemma scan_trailing_spaces r s acc :
  forallb is_space r = true -> scan acc (s ++ r) = scan acc s.
Proof.
  destruct r as [| c r]; simpl.
  - now rewrite app_nil_r.
  - rewrite andb_true_iff. intros [Hc Hr].
    rewrite scan_cut by auto using space_not_word, space_not_joiner.
    rewrite (scan_no_word r) by now apply spaces_no_word.
    apply app_nil_r.
Qed.

Lemma findall_words_wrap l s r :
  forallb is_space l = true -> forallb is_space r = true ->
  findall_words (l ++ s ++ r) = findall_words s.
Proof.
  intros Hl Hr. unfold findall_words.
  now rewrite scan_skip_spaces, scan_trailing_spaces.
Qed.

(** *** The scan is the regex *)

Lemma word_run_spec s :
  s = fst (word_run s) ++ snd (word_run s) /\
  starts_with_word (snd (word_run s)) = false /\
  length (snd (word_run s)) <= length s.
Proof.
  induction s as [| c s (IH1 & IH2 & IH3)]; simpl; [auto |].
  destruct (is_word c) eqn:Hc.
  - destruct (word_run s) as [w r]. simpl in *.
    repeat split; [congruence | assumption | lia].
  - simpl. rewrite Hc. auto.
Qed.

Lemma scan_word_run s : forall acc,
  scan acc s = scan (acc ++ fst (word_run s)) (snd (word_run s)).
Proof.
  induction s as [| c s IH]; intros acc; simpl.
  - now rewrite app_nil_r.
  - destruct (is_word c) eqn:Hc.
    + rewrite IH. destruct (word_run s) as [w r]. simpl.
      now rewrite <- app_assoc.
    + simpl. now rewrite Hc, app_nil_r.
Qed.

Lemma scan_skip c s : is_word c = false -> scan [] (c :: s) = scan [] s.
Proof. intros Hc. simpl. now rewrite Hc, andb_false_r. Qed.

Lemma word_run_empty s :
  fst (word_run s) = [] -> starts_with_word s = false.
Proof.
  destruct s as [| c s]; simpl; [reflexivity |].
  destruct (is_word c); [| reflexivity].
  destruct (word_run s). discriminate.
Qed.

Lemma word_run_nonempty s :
  fst (word_run s) <> [] -> starts_with_word s = true.
Proof.
  destruct s as [| c s]; simpl; [congruence |].
  destruct (is_word c); [reflexivity | simpl; congruence].
Qed.

(** Behind a word run, the scan with a match in progress does what
    [(?:[-']\w+)*] does and starts afresh where it stops. *)
Lemma scan_group_star fuel : forall acc r,
  acc <> [] -> starts_with_word r = false -> length r <= fuel ->
  scan acc r =
    (acc ++ fst (group_star fuel r)) :: scan [] (snd (group_star fuel r)) /\
  length (snd (group_star fuel r)) <= length r.
Proof.
  induction fuel as [| fuel IH]; intros acc r Hacc Hr Hlen.
  - destruct r; [| simpl in Hlen; lia]. simpl.
    rewrite app_nil_r. destruct acc; [congruence | auto].
  - destruct r as [| c rest]; simpl.
    + rewrite app_nil_r. destruct acc; [congruence | auto].
    + simpl in Hr. rewrite Hr.
      assert (Hta : truthy acc = true) by (destruct acc; [congruence | reflexivity]).
      rewrite Hta, andb_true_r.
      destruct (is_joiner c); simpl.
      * destruct (word_run_spec rest) as (Hsplit & Hnext & Hshort).
        destruct (word_run rest) as [w r1] eqn:Hrun. simpl in *.
        destruct w as [| d w].
        -- assert (Hs : starts_with_word rest = false).
           { apply word_run_empty. now rewrite Hrun. }
           rewrite Hs. simpl. rewrite Hr, andb_false_r, app_nil_r.
           destruct acc; [congruence | auto].
        -- assert (Hs : starts_with_word rest = true).
           { apply word_run_nonempty. rewrite Hrun. discriminate. }
           rewrite Hs, scan_word_run, Hrun. simpl fst. simpl snd.
           destruct (IH ((acc ++ [c]) ++ d :: w) r1) as [Hscan Hl].
           ++ destruct acc; discriminate.
           ++ assumption.
           ++ simpl in Hlen. lia.
           ++ destruct (group_star fuel r1) as [g r'] eqn:Hg. simpl in *.
              split; [| lia].
              rewrite Hscan. f_equal.
              now rewrite <- !app_assoc.
      * rewrite Hr, andb_false_r, app_nil_r.
        destruct acc; [congruence | auto].
Qed.

(** The one-pass scan returns what the search loop of [re.findall]
    returns with the pattern matched after its syntax. *)
Lemma findall_regex_scan fuel : forall s,
  length s <= fuel -> findall_regex fuel s = findall_words s.
Proof.
  unfold findall_words.
  induction fuel as [| fuel IH]; intros s Hlen.
  - destruct s; [reflexivity | simpl in Hlen; lia].
  - destruct s as [| c rest]; [reflexivity |].
    simpl in Hlen. cbn [findall_regex]. unfold match_here.
    destruct (word_run_spec (c :: rest)) as (Hsplit & Hnext & Hshort).
    pose proof (scan_word_run (c :: rest) []) as Hscan.
    destruct (word_run (c :: rest)) as [w r] eqn:Hrun.
    simpl fst in *. simpl snd in *. simpl length in Hshort.
    destruct w as [| d w].
    + assert (Hc : is_word c = false).
      { apply (word_run_empty (c :: rest)). now rewrite Hrun. }
      rewrite scan_skip by assumption. apply IH. lia.
    + assert (Hr : length r <= length rest).
      { apply (f_equal (@length char)) in Hsplit.
        rewrite length_app in Hsplit. simpl in Hsplit. lia. }
      destruct (scan_group_star (length r) (d :: w) r) as [Hg Hl];
        [discriminate | assumption | lia |].
      rewrite Hscan, app_nil_l, Hg.
      destruct (group_star (length r) r) as [g r'] eqn:Hgs. simpl in *.
      f_equal. apply IH. lia.
Qed.

(** C9.  The tokenizer is a total function of its input string: the
    one-pass scan returns, for every string, the matches of the regex
    in order.  The empty string has no token; wrapping a string in
    leading and trailing white space changes neither the tokens nor
    their number; and [don't-stop] is one token. *)
Theorem tokenizer_total_whitespace_invariant (l s r : text)
  (Hl : forallb is_space l = true) (Hr : forallb is_space r = true) :
  (exists tokens,
     findall_words s = tokens /\ findall_regex (length s) s = tokens) /\
  findall_words [] = [] /\
  findall_words (l ++ s ++ r) = findall_words s /\
  length (findall_words (l ++ s ++ r)) = length (findall_words s) /\
  findall_words (of_string "don't-stop") = [of_string "don't-stop"].
Proof.
  split; [| split; [| split; [| split]]].
  - exists (findall_words s). split; [reflexivity |].
    now apply findall_regex_scan.
  - reflexivity.
  - now apply findall_words_wrap.
  - now rewrite findall_words_wrap.
  - reflexivity.
Qed.

End TokenizerFacts.

Lemma tokenizer_total_whitespace_invariant_witness :
  length (findall_words (of_string "  " ++ of_string "it's a well-known fact"
                           ++ [9%N; 10%N; 160%N]))
  = length (findall_words (of_string "it's a well-known fact")).
Proof.
  apply (tokenizer_total_whitespace_invariant
           (of_string "  ") (of_string "it's a well-known fact")
           [9%N; 10%N; 160%N]); reflexivity.
Defined.

(** ** Counters and their ranking *)

Section CounterFacts.
Context {K : Type} (eq_dec : forall a b : K, {a = b} + {a <> b}).

Local Notation "'incr'" := (Counter.incr eq_dec).
Local Notation "'get'" := (Counter.get eq_dec).
Local Notation "'count'" := (Counter.count eq_dec).
Local Notation "'mem'" := (Counter.mem eq_dec).
Local Notation "'first_seen'" := (Counter.first_seen eq_dec).
Local Notation "'counter'" := (@Counter.counter K).

Lemma mem_true k l : mem k l = true <-> In k l.
Proof. unfold Counter.mem. destruct (in_dec eq_dec k l); intuition congruence. Qed.

Lemma mem_false k l : mem k l = false <-> ~ In k l.
Proof. unfold Counter.mem. destruct (in_dec eq_dec k l); intuition congruence. Qed.

(** *** One increment *)

Lemma get_incr k k' (c : counter) :
  get k (incr k' c) = if eq_dec k' k then S (get k c) else get k c.
Proof.
  induction c as [| [k0 n] c IH]; simpl.
  - destruct (eq_dec k' k); reflexivity.
  - destruct (eq_dec k0 k') as [-> | Hne]; simpl.
    + destruct (eq_dec k' k); reflexivity.
    + destruct (eq_dec k0 k) as [-> | Hne'].
      * destruct (eq_dec k' k); [congruence | reflexivity].
      * exact IH.
Qed.

Lemma keys_incr k (c : counter) :
  map fst (incr k c) =
  if mem k (map fst c) then map fst c else map fst c ++ [k].
Proof.
  induction c as [| [k0 n] c IH]; simpl; [reflexivity |].
  destruct (eq_dec k0 k) as [-> | Hne]; simpl.
  - assert (H : mem k (k :: map fst c) = true) by (apply mem_true; now left).
    now rewrite H.
  - rewrite IH.
    destruct (mem k (map fst c)) eqn:Hm.
    + assert (H : mem k (k0 :: map fst c) = true).
      { apply mem_true. right. now apply mem_true. }
      now rewrite H.
    + assert (H : mem k (k0 :: map fst c) = false).
      { apply mem_false. intros [? | Hin]; [congruence |].
        now apply mem_false in Hm. }
      now rewrite H.
Qed.

Lemma total_incr k (c : counter) :
  Counter.total (incr k c) = S (Counter.total c).
Proof.
  induction c as [| [k0 n] c IH]; simpl; [reflexivity |].
  destruct (eq_dec k0 k); simpl; [reflexivity | rewrite IH; lia].
Qed.

Lemma incr_positive k (c : counter) :
  Forall (fun e => 0 < snd e) c -> Forall (fun e => 0 < snd e) (incr k c).
Proof.
  induction 1 as [| [k0 n] c Hn Hc IH]; simpl.
  - repeat constructor.
  - destruct (eq_dec k0 k); constructor; simpl in *; auto; lia.
Qed.

(** *** A whole sequence *)

Lemma fold_incr_get k l (c : counter) :
  get k (fold_left (fun c k => incr k c) l c) = get k c + count_occ eq_dec l k.
Proof.
  revert c. induction l as [| x l IH]; intros c; simpl; [lia |].
  rewrite IH, get_incr. destruct (eq_dec x k); lia.
Qed.

Lemma fold_incr_keys l (c : counter) :
  map fst (fold_left (fun c k => incr k c) l c) =
  fold_left (fun acc k => if mem k acc then acc else acc ++ [k]) l (map fst c).
Proof.
  revert c. induction l as [| x l IH]; intros c; simpl; [reflexivity |].
  now rewrite IH, keys_incr.
Qed.

Lemma fold_incr_total l (c : counter) :
  Counter.total (fold_left (fun c k => incr k c) l c) = Counter.total c + length l.
Proof.
  revert c. induction l as [| x l IH]; intros c; simpl; [lia |].
  rewrite IH, total_incr. lia.
Qed.

Lemma fold_incr_positive l (c : counter) :
  Forall (fun e => 0 < snd e) c ->
  Forall (fun e => 0 < snd e) (fold_left (fun c k => incr k c) l c).
Proof.
  revert c. induction l as [| x l IH]; intros c Hc; simpl; auto using incr_positive.
Qed.

Lemma fold_keys_nodup l (acc : list K) :
  NoDup acc ->
  NoDup (fold_left (fun acc k => if mem k acc then acc else acc ++ [k]) l acc).
Proof.
  revert acc. induction l as [| x l IH]; intros acc Hacc; simpl; [assumption |].
  apply IH. destruct (mem x acc) eqn:Hm; [assumption |].
  apply mem_false in Hm.
  apply NoDup_rev in Hacc. rewrite <- (rev_involutive (acc ++ [x])).
  apply NoDup_rev. rewrite rev_app_distr. simpl.
  constructor; [now rewrite <- in_rev | assumption].
Qed.

Lemma fold_keys_in l (acc : list K) k :
  In k (fold_left (fun acc k => if mem k acc then acc else acc ++ [k]) l acc)
  <-> In k acc \/ In k l.
Proof.
  revert acc. induction l as [| x l IH]; intros acc; simpl; [tauto |].
  rewrite IH. destruct (mem x acc) eqn:Hm.
  - apply mem_true in Hm. intuition (subst; auto).
  - rewrite in_app_iff. simpl. intuition.
Qed.

(** The items of [Counter(l)] are the distinct elements of [l] in
    first-occurrence order. *)
Lemma count_keys l : map fst (count l) = first_seen l.
Proof. apply (fold_incr_keys l []). Qed.

Lemma count_keys_nodup l : NoDup (map fst (count l)).
Proof. rewrite count_keys. apply fold_keys_nodup. constructor. Qed.

Lemma first_seen_in l k : In k (first_seen l) <-> In k l.
Proof. unfold Counter.first_seen. rewrite fold_keys_in. simpl. tauto. Qed.

Lemma count_get l k : get k (count l) = count_occ eq_dec l k.
Proof. apply (fold_incr_get k l []). Qed.

Lemma count_total l : Counter.total (count l) = length l.
Proof. apply (fold_incr_total l []). Qed.

Lemma count_positive l : Forall (fun e => 0 < snd e) (count l).
Proof. apply fold_incr_positive. constructor. Qed.

Lemma get_in k n (c : counter) :
  NoDup (map fst c) -> In (k, n) c -> get k c = n.
Proof.
  induction c as [| [k0 n0] c IH]; simpl; [tauto |].
  intros Hnd [Heq | Hin].
  - inversion Heq; subst. now destruct (eq_dec k k).
  - inversion Hnd as [| ? ? Hnotin Hnd']; subst.
    destruct (eq_dec k0 k) as [-> | Hne]; [| auto].
    exfalso. apply Hnotin. now apply (in_map fst) in Hin.
Qed.

(** Every item of [Counter(l)] carries the number of occurrences of its
    key in [l], which is positive. *)
Lemma count_item l k n :
  In (k, n) (count l) -> n = count_occ eq_dec l k /\ 0 < n.
Proof.
  intros Hin. split.
  - rewrite <- count_get. symmetry. apply get_in; [apply count_keys_nodup | assumption].
  - pose proof (count_positive l) as Hpos.
    rewrite Forall_forall in Hpos. now apply Hpos in Hin.
Qed.

Lemma count_length l : length (count l) = length (first_seen l).
Proof. now rewrite <- count_keys, length_map. Qed.

Lemma first_seen_length l : length (first_seen l) <= length l.
Proof.
  unfold Counter.first_seen.
  assert (H : forall acc,
    length (fold_left (fun acc k => if mem k acc then acc else acc ++ [k]) l acc)
    <= length acc + length l).
  { induction l as [| x l IH]; intros acc; simpl; [lia |].
    specialize (IH (if mem x acc then acc else acc ++ [x])).
    destruct (mem x acc); [lia |].
    rewrite length_app in IH. simpl in IH. lia. }
  apply (H []).
Qed.

End CounterFacts.

(** ** The stable descending sort and [most_common] *)

Section RankingFacts.
Context {K : Type}.

Local Notation "'counter'" := (@Counter.counter K).
Local Notation "'count_ge'" := (@Counter.count_ge K).
Local Notation "'has_count'" := (@Counter.has_count K).

Lemma insert_desc_perm e (l : counter) :
  Permutation (Counter.insert_desc e l) (e :: l).
Proof.
  induction l as [| h t IH]; simpl; [reflexivity |].
  destruct (snd e <? snd h); [| reflexivity].
  rewrite IH. apply perm_swap.
Qed.

Lemma sorted_desc_perm (l : counter) : Permutation (Counter.sorted_desc l) l.
Proof.
  induction l as [| e l IH]; simpl; [reflexivity |].
  rewrite insert_desc_perm. now constructor.
Qed.

Lemma insert_desc_hd e a (l : counter) :
  count_ge a e -> HdRel count_ge a l -> HdRel count_ge a (Counter.insert_desc e l).
Proof.
  intros Hae Hal. destruct l as [| h t]; simpl; [now constructor |].
  destruct (snd e <? snd h); constructor; [now inversion Hal | assumption].
Qed.

Lemma insert_desc_sorted e (l : counter) :
  Sorted count_ge l -> Sorted count_ge (Counter.insert_desc e l).
Proof.
  induction 1 as [| h t Ht IH Hhd]; simpl; [repeat constructor |].
  destruct (Nat.ltb_spec (snd e) (snd h)) as [Hlt | Hge].
  - constructor; [assumption |].
    apply insert_desc_hd; [unfold Counter.count_ge; lia | assumption].
  - repeat constructor; assumption.
Qed.

Lemma count_ge_trans : Relations_1.Transitive count_ge.
Proof. intros a b c. unfold Counter.count_ge. lia. Qed.

Lemma sorted_desc_sorted (l : counter) :
  StronglySorted count_ge (Counter.sorted_desc l).
Proof.
  apply Sorted_StronglySorted; [exact count_ge_trans |].
  induction l as [| e l IH]; simpl; [constructor |].
  now apply insert_desc_sorted.
Qed.

(** Stability: among the items with one given count, the sort keeps
    the order they had. *)
Lemma insert_desc_filter n e (l : counter) :
  filter (has_count n) (Counter.insert_desc e l) =
  filter (has_count n) (e :: l).
Proof.
  induction l as [| h t IH]; simpl; [reflexivity |].
  destruct (Nat.ltb_spec (snd e) (snd h)) as [Hlt | Hge]; [| reflexivity].
  simpl in *. rewrite IH. unfold Counter.has_count.
  destruct (Nat.eqb_spec (snd e) n) as [He | He]; [| reflexivity].
  destruct (Nat.eqb_spec (snd h) n); [lia | reflexivity].
Qed.

Lemma sorted_desc_stable n (l : counter) :
  filter (has_count n) (Counter.sorted_desc l) = filter (has_count n) l.
Proof.
  induction l as [| e l IH]; simpl; [reflexivity |].
  rewrite insert_desc_filter. simpl. now rewrite IH.
Qed.

Lemma strongly_sorted_app (R : K * nat -> K * nat -> Prop) (l1 l2 : counter) :
  StronglySorted R (l1 ++ l2) ->
  StronglySorted R l1 /\ forall a b, In a l1 -> In b l2 -> R a b.
Proof.
  induction l1 as [| x l1 IH]; simpl; intros H.
  - split; [constructor | contradiction].
  - inversion H as [| ? ? Hs Hall]; subst.
    destruct (IH Hs) as [Hs1 Hcross]. split.
    + constructor; [assumption |].
      rewrite Forall_forall in *. intros y Hy. apply Hall.
      apply in_or_app. now left.
    + intros a b [<- | Ha] Hb; [| now apply Hcross].
      rewrite Forall_forall in Hall. apply Hall, in_or_app. now right.
Qed.

Lemma most_common_length n (c : counter) :
  length (Counter.most_common n c) <= n /\
  length (Counter.most_common n c) <= length c.
Proof.
  unfold Counter.most_common. rewrite length_firstn.
  rewrite (Permutation_length (sorted_desc_perm c)). lia.
Qed.

Lemma most_common_all n (c : counter) :
  length c <= n -> Permutation (Counter.most_common n c) c.
Proof.
  intros Hn. unfold Counter.most_common.
  rewrite firstn_all2; [apply sorted_desc_perm |].
  now rewrite (Permutation_length (sorted_desc_perm c)).
Qed.

Lemma most_common_in n (c : counter) e :
  In e (Counter.most_common n c) -> In e c.
Proof.
  intros Hin. apply (Permutation_in _ (sorted_desc_perm c)).
  unfold Counter.most_common in Hin.
  rewrite <- (firstn_skipn n (Counter.sorted_desc c)).
  apply in_or_app. now left.
Qed.

Lemma most_common_sorted n (c : counter) :
  StronglySorted count_ge (Counter.most_common n c).
Proof.
  pose proof (sorted_desc_sorted c) as H.
  rewrite <- (firstn_skipn n (Counter.sorted_desc c)) in H.
  now apply strongly_sorted_app in H.
Qed.

(** The table holds the top of the ranking: whatever is left out
    counts no more than anything kept. *)
Lemma most_common_top n (c : counter) e e' :
  In e (Counter.most_common n c) -> In e' c ->
  ~ In e' (Counter.most_common n c) -> snd e' <= snd e.
Proof.
  intros He He' Hout.
  pose proof (sorted_desc_sorted c) as H.
  rewrite <- (firstn_skipn n (Counter.sorted_desc c)) in H.
  apply strongly_sorted_app in H as [_ Hcross].
  apply (Hcross e e'); [exact He |].
  apply (Permutation_in _ (Permutation_sym (sorted_desc_perm c))) in He'.
  rewrite <- (firstn_skipn n (Counter.sorted_desc c)) in He'.
  apply in_app_or in He' as [Hin | Hin]; [contradiction | exact Hin].
Qed.

(** Ties: the kept items with one given count are the first of the
    items with that count, in the counter's own order. *)
Lemma most_common_ties n m (c : counter) :
  exists rest,
    filter (has_count m) c =
    filter (has_count m) (Counter.most_common n c) ++ rest.
Proof.
  exists (filter (has_count m) (skipn n (Counter.sorted_desc c))).
  unfold Counter.most_common.
  now rewrite <- filter_app, firstn_skipn, sorted_desc_stable.
Qed.

End RankingFacts.

(** ** Results *)

Section ResultFacts.
Context {A B : Type}.

Lemma for_each_map (f : A -> result B) (g : A -> B) (l : list A) :
  (forall x, In x l -> f x = Ok (g x)) -> for_each f l = Ok (map g l).
Proof.
  induction l as [| x l IH]; simpl; intros H; [reflexivity |].
  rewrite (H x) by now left. simpl.
  rewrite IH by (intros; apply H; now right). reflexivity.
Qed.

Lemma concat_singletons (g : A -> B) (l : list A) :
  concat (map (fun x => [g x]) l) = map g l.
Proof. induction l; simpl; congruence. Qed.

End ResultFacts.

Lemma py_div_pos a b : 0 < b -> py_div a b = Ok (ratio a b).
Proof. destruct b; [lia | reflexivity]. Qed.

Lemma guarded_div a b :
  (if 0 <? b then py_div a b else Ok 0%Q) = Ok (guarded_ratio a b).
Proof.
  unfold guarded_ratio. destruct (Nat.ltb_spec 0 b); [now apply py_div_pos | reflexivity].
Qed.

Lemma ratio_self n : 0 < n -> (ratio n n == 1)%Q.
Proof.
  intros Hn. unfold ratio. apply Qmult_inv_r.
  intros H. unfold Qeq in H. simpl in H. lia.
Qed.

Lemma ratio_zero b : (ratio 0 b == 0)%Q.
Proof. unfold ratio. simpl. unfold Qdiv. apply Qmult_0_l. Qed.

Lemma ratio_bounds a b : a <= b -> 0 < b -> (0 <= ratio a b <= 1)%Q.
Proof.
  intros Hab Hb. unfold ratio.
  assert (Hb' : (0 < inject_Z (Z.of_nat b))%Q).
  { unfold Qlt. simpl. lia. }
  split.
  - apply Qle_shift_div_l; [assumption |].
    rewrite Qmult_0_l. unfold Qle. simpl. lia.
  - apply Qle_shift_div_r; [assumption |].
    rewrite Qmult_1_l. unfold Qle. simpl. lia.
Qed.

Lemma Qsum_ratios (ns : list nat) (t : nat) :
  (Qsum (map (fun n => ratio n t) ns) == ratio (fold_right Nat.add 0%nat ns) t)%Q.
Proof.
  induction ns as [| n ns IH]; simpl.
  - symmetry. apply ratio_zero.
  - rewrite IH. unfold ratio.
    rewrite Nat2Z.inj_add, inject_Z_plus. unfold Qdiv. ring.
Qed.

(** ** The analyze stage *)

Section JaccardFacts.
Context {A : Type} (eq_dec : forall a b : A, {a = b} + {a <> b}).

Lemma jaccard_returns (d1 d2 : list A) :
  Analyzer.jaccard_similarity eq_dec d1 d2 =
  Ok (Analyzer.jaccard_value eq_dec d1 d2).
Proof.
  unfold Analyzer.jaccard_similarity, Analyzer.jaccard_value.
  destruct (Analyzer.union eq_dec _ _); reflexivity.
Qed.

Lemma intersection_le_union (s1 s2 : list A) :
  length (Analyzer.intersection eq_dec s1 s2)
  <= length (Analyzer.union eq_dec s1 s2).
Proof.
  unfold Analyzer.intersection, Analyzer.union.
  rewrite length_app.
  pose proof (filter_length_le (fun x => Analyzer.mem eq_dec x s2) s1). lia.
Qed.

(** The similarity is a ratio between 0 and 1. *)
Lemma jaccard_range (d1 d2 : list A) :
  (0 <= Analyzer.jaccard_value eq_dec d1 d2 <= 1)%Q.
Proof.
  unfold Analyzer.jaccard_value.
  destruct (Analyzer.union eq_dec _ _) eqn:Hu.
  - split; [apply Qle_refl | discriminate].
  - rewrite <- Hu. apply ratio_bounds.
    + apply intersection_le_union.
    + rewrite Hu. simpl. lia.
Qed.

Lemma intersection_self (s : list A) : Analyzer.intersection eq_dec s s = s.
Proof.
  unfold Analyzer.intersection.
  apply forallb_filter_id. apply forallb_forall. intros x Hx.
  unfold Analyzer.mem. destruct (in_dec eq_dec x s); tauto.
Qed.

Lemma union_self (s : list A) : Analyzer.union eq_dec s s = s.
Proof.
  unfold Analyzer.union.
  assert (H : filter (fun x => negb (Analyzer.mem eq_dec x s)) s = []).
  { assert (G : forall l, incl l s ->
               filter (fun x => negb (Analyzer.mem eq_dec x s)) l = []).
    { induction l as [| x l IH]; simpl; intros Hl; [reflexivity |].
      unfold Analyzer.mem at 1.
      destruct (in_dec eq_dec x s) as [_ | Hn]; simpl.
      - apply IH. intros y Hy. apply Hl. now right.
      - exfalso. apply Hn, Hl. now left. }
    apply G, incl_refl. }
  rewrite H. apply app_nil_r.
Qed.

(** A non-empty document is at similarity 1 from itself. *)
Lemma jaccard_self (d : list A) :
  d <> [] -> (Analyzer.jaccard_value eq_dec d d == 1)%Q.
Proof.
  intros Hd. unfold Analyzer.jaccard_value.
  rewrite union_self, intersection_self.
  destruct (Analyzer.set eq_dec d) eqn:Hs.
  - destruct d as [| x d]; [congruence |].
    assert (Hin : In x (Analyzer.set eq_dec (x :: d))).
    { apply nodup_In. now left. }
    rewrite Hs in Hin. contradiction.
  - apply ratio_self. simpl. lia.
Qed.

End JaccardFacts.

Section AnalyzerFacts.
Context {U : UnicodeDB}.

Lemma word_table_returns (ws : list text) :
  Analyzer.word_table ws =
  Ok (map (Analyzer.word_entry_of (length ws))
          (Counter.most_common 100
             (Counter.count text_eq_dec (map str_lower ws)))).
Proof.
  unfold Analyzer.word_table. apply for_each_map.
  intros [w n] Hin. apply most_common_in in Hin.
  apply count_item in Hin as [Hn Hpos].
  assert (Hlen : 0 < length ws).
  { rewrite Hn in Hpos. apply count_occ_In in Hpos.
    destruct ws; [contradiction | simpl; lia]. }
  now rewrite py_div_pos.
Qed.

Lemma similarity_at_returns files i j :
  i < j -> j < length files ->
  Analyzer.similarity_at files i j =
  Ok [Analyzer.similarity_entry_of files (i, j)].
Proof.
  intros Hij Hj. unfold Analyzer.similarity_at, Analyzer.similarity_entry_of,
    Analyzer.text_at. simpl.
  destruct (Nat.eqb_spec i j); [lia |].
  destruct (nth_error files i) as [fi |] eqn:Hi;
    [| apply nth_error_None in Hi; lia].
  destruct (nth_error files j) as [fj |] eqn:Hfj;
    [| apply nth_error_None in Hfj; lia].
  now rewrite jaccard_returns.
Qed.

Lemma similarity_table_returns files :
  Analyzer.similarity_table files =
  Ok (map (Analyzer.similarity_entry_of files)
          (Analyzer.index_pairs (length files))).
Proof.
  unfold Analyzer.similarity_table, Analyzer.index_pairs.
  set (n := length files).
  rewrite (for_each_map _
    (fun i => map (fun j => Analyzer.similarity_entry_of files (i, j))
                  (seq (i + 1) (n - (i + 1))))).
  - simpl. f_equal. rewrite flat_map_concat_map, concat_map, map_map.
    f_equal. apply map_ext. intros i. now rewrite map_map.
  - intros i Hi. apply in_seq in Hi.
    rewrite (for_each_map _
      (fun j => [Analyzer.similarity_entry_of files (i, j)])).
    + simpl. now rewrite concat_singletons.
    + intros j Hj. apply in_seq in Hj.
      apply similarity_at_returns; subst n; lia.
Qed.

(** The analyze stage never raises: on every list of processed files
    it returns the report. *)
Lemma main_returns stamp files :
  Analyzer.main stamp files = Ok (Analyzer.report stamp files).
Proof.
  unfold Analyzer.main, Analyzer.report, Analyzer.corpus_words.
  rewrite word_table_returns, similarity_table_returns. simpl.
  rewrite !guarded_div. reflexivity.
Qed.

(** *** Document boundaries *)

Lemma findall_words_space s1 s2 :
  findall_words (s1 ++ 32%N :: s2) = findall_words s1 ++ findall_words s2.
Proof. unfold findall_words. now apply scan_cut. Qed.

(** Joining the documents with a space keeps their tokens apart: the
    corpus token sequence is the documents' token sequences one after
    the other. *)
Lemma corpus_words_concat files :
  Analyzer.corpus_words files =
  concat (map (fun f => findall_words (Analyzer.text_of f)) files).
Proof.
  unfold Analyzer.corpus_words, Analyzer.corpus_text.
  induction files as [| f files IH]; [reflexivity |].
  destruct files as [| g files].
  - simpl. now rewrite app_nil_r.
  - change (join_space (map Analyzer.text_of (f :: g :: files)))
      with (Analyzer.text_of f ++ 32%N
              :: join_space (map Analyzer.text_of (g :: files))).
    rewrite findall_words_space, IH. reflexivity.
Qed.

Lemma index_pairs_length n : 2 * length (Analyzer.index_pairs n) = n * (n - 1).
Proof.
  unfold Analyzer.index_pairs.
  assert (H : forall m a, a + m = n ->
    2 * length (flat_map (fun i => map (pair i) (seq (i + 1) (n - (i + 1))))
                         (seq a m)) = m * (m - 1)).
  { induction m as [| m IH]; intros a Ha; [reflexivity |].
    simpl seq. simpl flat_map. rewrite length_app, length_map, length_seq.
    specialize (IH (S a)). rewrite Nat.mul_add_distr_l, IH by lia.
    replace (n - (a + 1)) with m by lia. nia. }
  apply (H n 0). reflexivity.
Qed.

End AnalyzerFacts.

(** ** [most_common] is the ranking *)

Section RankingOfCounter.
Context {K : Type} (eq_dec : forall a b : K, {a = b} + {a <> b}).

Local Notation "'count'" := (Counter.count eq_dec).
Local Notation "'first_seen'" := (Counter.first_seen eq_dec).
Local Notation "'occurrences'" := (Counter.occurrences eq_dec).

Lemma count_items_spec l :
  Forall (fun e => snd e = occurrences l (fst e) /\ 0 < snd e) (count l).
Proof.
  apply Forall_forall. intros [k n] Hin. simpl.
  now apply count_item in Hin.
Qed.

Lemma items_from_keys (f : K -> nat) (c : list (K * nat)) :
  Forall (fun e => snd e = f (fst e)) c ->
  c = map (fun k => (k, f k)) (map fst c).
Proof.
  induction 1 as [| [k n] c Hk Hc IH]; simpl; [reflexivity |].
  simpl in Hk. now rewrite <- IH, Hk.
Qed.

(** [Counter(l)] lists every distinct element of [l] once, with its
    number of occurrences, in first-occurrence order. *)
Lemma count_items l :
  count l = map (fun k => (k, occurrences l k)) (first_seen l).
Proof.
  rewrite <- count_keys. apply items_from_keys.
  eapply Forall_impl; [| apply count_items_spec]. now intros e [He _].
Qed.

Lemma keys_filter (f : K -> nat) m (c : list (K * nat)) :
  Forall (fun e => snd e = f (fst e)) c ->
  map fst (filter (Counter.has_count m) c) =
  filter (fun k => f k =? m) (map fst c).
Proof.
  induction 1 as [| [k n] c Hk Hc IH]; simpl; [reflexivity |].
  simpl in Hk. unfold Counter.has_count at 1. simpl. rewrite <- Hk.
  destruct (n =? m); simpl; now rewrite IH.
Qed.

Lemma occurrences_total l :
  fold_right Nat.add 0 (map (occurrences l) (first_seen l)) = length l.
Proof.
  rewrite <- (count_total eq_dec l), (count_items l) at 1.
  induction (first_seen l) as [| k ks IH]; simpl; congruence.
Qed.

Theorem most_common_ranking l n :
  Counter.ranking eq_dec l n (Counter.most_common n (count l)).
Proof.
  pose proof (count_items_spec l) as Hspec.
  assert (Hsub : forall e, In e (Counter.most_common n (count l)) ->
                           In e (count l)) by apply most_common_in.
  constructor.
  - rewrite <- count_length. apply most_common_length.
  - apply Forall_forall. intros e He.
    rewrite Forall_forall in Hspec. auto.
  - pose proof (count_keys_nodup eq_dec l) as Hnd.
    apply (Permutation_NoDup
             (Permutation_map fst (Permutation_sym (sorted_desc_perm (count l)))))
      in Hnd.
    unfold Counter.most_common.
    rewrite <- (firstn_skipn n (Counter.sorted_desc (count l))), map_app in Hnd.
    now apply NoDup_app_remove_r in Hnd.
  - apply most_common_sorted.
  - intros k e Hk He Hout.
    change (occurrences l k) with (snd (k, occurrences l k)).
    apply (most_common_top n (count l)); [assumption | |].
    + rewrite count_items. apply in_map_iff. exists k. split; [reflexivity |].
      now apply first_seen_in.
    + intros Hin. apply Hout. now apply (in_map fst) in Hin.
  - intros Hlen k Hk.
    assert (Hall : Counter.most_common n (count l) = Counter.sorted_desc (count l)).
    { unfold Counter.most_common in *. apply firstn_all2.
      rewrite length_firstn in Hlen. lia. }
    rewrite Hall.
    apply (Permutation_in k
             (Permutation_map fst (Permutation_sym (sorted_desc_perm (count l))))).
    rewrite count_keys. now apply first_seen_in.
  - intros m.
    destruct (most_common_ties n m (count l)) as [rest Hrest].
    exists (map fst rest).
    rewrite <- map_app, <- Hrest, <- count_keys.
    symmetry. apply keys_filter.
    eapply Forall_impl; [| exact Hspec]. now intros e [He _].
Qed.

End RankingOfCounter.

(** ** The corpus report *)

Section ReportFacts.
Context {U : UnicodeDB}.

Lemma word_items_table total (c : list (text * nat)) :
  Analyzer.word_items (map (Analyzer.word_entry_of total) c) = c.
Proof.
  unfold Analyzer.word_items. rewrite map_map. simpl.
  rewrite <- (map_id c) at 2. apply map_ext. now intros [w n].
Qed.

Lemma bigram_items_table (ws : list text) :
  Analyzer.bigram_items (Analyzer.bigram_table ws) =
  Counter.most_common 100
    (Counter.count Analyzer.bigram_eq_dec (combine ws (tl ws))).
Proof.
  unfold Analyzer.bigram_items, Analyzer.bigram_table.
  rewrite map_map. simpl.
  rewrite <- (map_id (Counter.most_common _ _)) at 2.
  apply map_ext. now intros [b n].
Qed.

(** C8.  The word-frequency table of the report is the ranking of the
    lower-cased corpus tokens cut at 100 entries: at most 100 entries and
    at most one per distinct lower-cased token, counts descending, ties
    in first-occurrence order (the stable sort); each entry's frequency
    is its count over [total_words]; and over all distinct words the
    frequencies add up to 1 as soon as there is a word (to 0 on a corpus
    without words). *)
Theorem word_frequency_table stamp files :
  exists r,
    Analyzer.main stamp files = Ok r /\
    let lower := map str_lower (Analyzer.corpus_words files) in
    Analyzer.total_words r = length lower /\
    length (Analyzer.top_100_words r) <= 100 /\
    length (Analyzer.top_100_words r)
      <= length (Counter.first_seen text_eq_dec lower) /\
    Counter.ranking text_eq_dec lower 100
      (Analyzer.word_items (Analyzer.top_100_words r)) /\
    Forall (fun e => Analyzer.frequency e =
                     ratio (Analyzer.count e) (Analyzer.total_words r))
           (Analyzer.top_100_words r) /\
    (Qsum (map (fun w => ratio (Counter.occurrences text_eq_dec lower w)
                               (Analyzer.total_words r))
               (Counter.first_seen text_eq_dec lower))
     == if Analyzer.total_words r =? 0 then 0 else 1)%Q.
Proof.
  exists (Analyzer.report stamp files). split; [apply main_returns |].
  cbv zeta. unfold Analyzer.report. simpl.
  set (ws := Analyzer.corpus_words files).
  pose proof (most_common_ranking text_eq_dec (map str_lower ws) 100) as Hrank.
  rewrite word_items_table, !length_map.
  split; [reflexivity |].
  split; [apply Hrank |].
  split; [apply Hrank |].
  split; [exact Hrank |].
  split.
  - apply Forall_forall. intros e He. apply in_map_iff in He as [item [<- _]].
    reflexivity.
  - rewrite <- (map_map (Counter.occurrences text_eq_dec (map str_lower ws))
                        (fun n => ratio n (length ws))).
    rewrite Qsum_ratios, occurrences_total, length_map.
    destruct ws as [| w ws']; simpl length; [apply ratio_zero |].
    apply ratio_self. lia.
Qed.

(** C3, as the code has it.  The bigram table is the ranking, cut at
    100 entries (counts descending, ties in first-occurrence order), of
    the consecutive pairs of the corpus token sequence; that sequence is
    the documents' token sequences one after the other, in the case the
    tokenizer found them, so the last token of a document is paired with
    the first token of the next one. *)
Theorem bigram_table_over_corpus_sequence stamp files :
  exists r,
    Analyzer.main stamp files = Ok r /\
    let ws := concat (map (fun f => findall_words (Analyzer.text_of f)) files) in
    Counter.ranking Analyzer.bigram_eq_dec (combine ws (tl ws)) 100
      (Analyzer.bigram_items (Analyzer.top_bigrams r)).
Proof.
  exists (Analyzer.report stamp files). split; [apply main_returns |].
  cbv zeta. unfold Analyzer.report. simpl.
  rewrite bigram_items_table, corpus_words_concat.
  apply most_common_ranking.
Qed.

Lemma no_words_corpus files :
  Forall (fun f => findall_words (Analyzer.text_of f) = []) files ->
  Analyzer.corpus_words files = [].
Proof.
  intros H. rewrite corpus_words_concat.
  induction H as [| f files Hf _ IH]; simpl; [reflexivity |].
  now rewrite Hf, IH.
Qed.

Lemma guarded_ratio_zero b : (guarded_ratio 0 b == 0)%Q.
Proof.
  unfold guarded_ratio. destruct (0 <? b); [apply ratio_zero | reflexivity].
Qed.

(** C5, as the code has it.  Without documents the report has
    [documents_processed = 0] and empty word, similarity and bigram
    tables.  On documents without a single word the report is still
    produced (no exception, no division by zero): no word, empty word
    and bigram tables, and 0 for the word length, the sentence length
    and the complexity score; the similarity table keeps one record for
    each pair of documents, [n (n - 1) / 2] records for [n] documents,
    so it is empty only for fewer than two documents. *)
Theorem degenerate_corpus_report stamp files
  (Hzero : Forall (fun f => findall_words (Analyzer.text_of f) = []) files) :
  (exists r0,
     Analyzer.main stamp [] = Ok r0 /\
     Analyzer.documents_processed r0 = 0 /\
     Analyzer.top_100_words r0 = [] /\
     Analyzer.document_similarity r0 = [] /\
     Analyzer.top_bigrams r0 = []) /\
  (exists r,
     Analyzer.main stamp files = Ok r /\
     Analyzer.documents_processed r = length files /\
     Analyzer.total_words r = 0 /\
     Analyzer.unique_words r = 0 /\
     Analyzer.top_100_words r = [] /\
     Analyzer.top_bigrams r = [] /\
     2 * length (Analyzer.document_similarity r)
       = length files * (length files - 1) /\
     (Analyzer.avg_word_length (Analyzer.readability r) == 0)%Q /\
     (Analyzer.avg_sentence_length (Analyzer.readability r) == 0)%Q /\
     (Analyzer.complexity_score (Analyzer.readability r) == 0)%Q).
Proof.
  split.
  - exists (Analyzer.report stamp []). split; [apply main_returns |].
    repeat split.
  - exists (Analyzer.report stamp files). split; [apply main_returns |].
    unfold Analyzer.report.
    rewrite (no_words_corpus files Hzero).
    cbn -[Nat.mul Analyzer.index_pairs guarded_ratio].
    rewrite length_map, index_pairs_length.
    repeat (split; [reflexivity |]).
    split; [apply guarded_ratio_zero |].
    split; [reflexivity |].
    apply Qmult_0_l.
Qed.

End ReportFacts.

Lemma degenerate_corpus_report_witness :
  exists r,
    Analyzer.main [] [Analyzer.doc "..."; Analyzer.doc " ! ?"; Analyzer.doc ""] = Ok r /\
    Analyzer.documents_processed r = 3 /\
    Analyzer.total_words r = 0 /\
    Analyzer.unique_words r = 0 /\
    Analyzer.top_100_words r = [] /\
    Analyzer.top_bigrams r = [] /\
    2 * length (Analyzer.document_similarity r) = 3 * (3 - 1) /\
    (Analyzer.avg_word_length (Analyzer.readability r) == 0)%Q /\
    (Analyzer.avg_sentence_length (Analyzer.readability r) == 0)%Q /\
    (Analyzer.complexity_score (Analyzer.readability r) == 0)%Q.
Proof.
  apply (degenerate_corpus_report []
           [Analyzer.doc "..."; Analyzer.doc " ! ?"; Analyzer.doc ""]).
  repeat constructor.
Defined.

(** C5, as stated, fails on two documents without words: the similarity
    table is not empty. *)
Lemma degenerate_corpus_similarity_not_empty :
  Forall (fun f => findall_words (Analyzer.text_of f) = [])
         [Analyzer.doc ""; Analyzer.doc ""] /\
  exists r,
    Analyzer.main [] [Analyzer.doc ""; Analyzer.doc ""] = Ok r /\
    Analyzer.document_similarity r =
      [{| Analyzer.doc1 := of_string "page_0.json";
          Analyzer.doc2 := of_string "page_1.json";
          Analyzer.similarity := 0 |}] /\
    Analyzer.document_similarity r <> [].
Proof.
  split; [repeat constructor |].
  eexists. split; [vm_compute; reflexivity |].
  split; [reflexivity | discriminate].
Qed.

(** C1: the code takes the similarity over the characters of the two
    texts, not over their tokens.  For the documents [a b c] and [a b d]
    the report holds 3/5 (the characters [a], [b] and the space are
    shared, out of five), where the token sets give 2/4. *)
Theorem similarity_over_characters :
  exists r,
    Analyzer.main [] [Analyzer.doc "a b c"; Analyzer.doc "a b d"] = Ok r /\
    map Analyzer.similarity (Analyzer.document_similarity r) = [3 # 5] /\
    Analyzer.token_similarity (of_string "a b c") (of_string "a b d") = 2 # 4 /\
    ~ (3 # 5 == 2 # 4)%Q.
Proof.
  eexists. split; [vm_compute; reflexivity |].
  repeat split. intros H. discriminate H.
Qed.

(** C2: the report stores the average word length under
    [avg_sentence_length] and the words per sentence under
    [avg_word_length].  For the one document [Hello world. Hello] (three
    words of five letters, two sentences) the field [avg_word_length] is
    3/2 and the field [avg_sentence_length] is 5. *)
Theorem readability_fields_swapped :
  let files := [Analyzer.doc "Hello world. Hello"] in
  let ws := Analyzer.corpus_words files in
  exists r,
    Analyzer.main [] files = Ok r /\
    guarded_ratio (sum_len ws) (length ws) = 15 # 3 /\
    guarded_ratio (length ws)
      (length (Analyzer.nonblank_sentences (Analyzer.corpus_text files))) = 3 # 2 /\
    Analyzer.avg_word_length (Analyzer.readability r) = 3 # 2 /\
    Analyzer.avg_sentence_length (Analyzer.readability r) = 15 # 3 /\
    ~ (3 # 2 == 15 # 3)%Q.
Proof.
  cbv zeta. eexists. split; [vm_compute; reflexivity |].
  repeat split. intros H. discriminate H.
Qed.

(** C3, as stated, fails on the documents [A b] and [c]: the table keeps
    the capital of [A] and pairs [b] with the [c] of the next document,
    where pairing each document's lower-cased tokens on its own gives the
    single pair ([a], [b]). *)
Lemma bigram_table_not_per_document :
  let files := [Analyzer.doc "A b"; Analyzer.doc "c"] in
  exists r,
    Analyzer.main [] files = Ok r /\
    Analyzer.top_bigrams r =
      [{| Analyzer.bigram := (of_string "A", of_string "b");
          Analyzer.bigram_count := 1 |};
       {| Analyzer.bigram := (of_string "b", of_string "c");
          Analyzer.bigram_count := 1 |}] /\
    Analyzer.bigram_table_per_document files =
      [{| Analyzer.bigram := (of_string "a", of_string "b");
          Analyzer.bigram_count := 1 |}] /\
    Analyzer.top_bigrams r <> Analyzer.bigram_table_per_document files.
Proof.
  cbv zeta. eexists. split; [vm_compute; reflexivity |].
  repeat split. discriminate.
Qed.

(** ** The completion gate *)

Section GateFacts.
Variable w : Gate.world.
Variables (path : text) (timeout interval : Q).

Local Notation "'loop'" := (Gate.loop w path timeout interval).
Local Notation "'in_time'" := (Gate.in_time w timeout).
Local Notation "'quiet_before'" := (Gate.quiet_before w path timeout).
Local Notation "'found_at'" := (Gate.found_at w path timeout).
Local Notation "'timed_out_at'" := (Gate.timed_out_at w timeout).

Lemma Qlt_bool_iff x y : Gate.Qlt_bool x y = true <-> (x < y)%Q.
Proof.
  unfold Gate.Qlt_bool. rewrite negb_true_iff.
  split; intros H.
  - apply Qnot_le_lt. intros Hle. apply Qle_bool_iff in Hle. congruence.
  - destruct (Qle_bool y x) eqn:E; [| reflexivity].
    apply Qle_bool_iff in E. exfalso. exact (Qlt_not_le _ _ H E).
Qed.

Lemma in_time_false k :
  in_time k = false <->
  (timeout <= Gate.time_time w (S k) - Gate.time_time w 0)%Q.
Proof.
  unfold Gate.in_time, Gate.Qlt_bool. rewrite negb_false_iff.
  apply Qle_bool_iff.
Qed.

Lemma sleep_returns :
  (0 <= interval)%Q -> Gate.sleep_overflows w interval = false ->
  Gate.time_sleep w interval = Ok tt.
Proof.
  intros H Hfit. unfold Gate.time_sleep. rewrite Hfit.
  destruct (Gate.Qlt_bool interval 0) eqn:E; [| reflexivity].
  apply Qlt_bool_iff in E. exfalso. exact (Qlt_not_le _ _ E H).
Qed.

(** What [time.sleep] raises on a length it does not accept. *)
Lemma sleep_raises :
  (interval < 0)%Q \/ Gate.sleep_overflows w interval = true ->
  Gate.time_sleep w interval =
  Raise (if Gate.sleep_overflows w interval then OverflowError
         else ValueError).
Proof.
  intros H. unfold Gate.time_sleep.
  destruct (Gate.sleep_overflows w interval); [reflexivity |].
  destruct H as [H | H]; [| discriminate].
  apply Qlt_bool_iff in H. now rewrite H.
Qed.

Lemma loop_step fuel k :
  loop (S fuel) k =
  if in_time k then
    if Gate.path_exists w path k
    then Some {| Gate.outcome := Ok true; Gate.polls := S k |}
    else match Gate.time_sleep w interval with
         | Ok _ => loop fuel (S k)
         | Raise e => Some {| Gate.outcome := Raise e; Gate.polls := S k |}
         end
  else Some {| Gate.outcome := Raise TimeoutError; Gate.polls := k |}.
Proof. reflexivity. Qed.

(** More fuel does not change a result. *)
Lemma loop_fuel fuel : forall k r extra,
  loop fuel k = Some r -> loop (fuel + extra) k = Some r.
Proof.
  induction fuel as [| fuel IH]; intros k r extra; [discriminate |].
  change (S fuel + extra) with (S (fuel + extra)).
  rewrite !loop_step.
  destruct (in_time k); [| trivial].
  destruct (Gate.path_exists w path k); [trivial |].
  destruct (Gate.time_sleep w interval); [apply IH | trivial].
Qed.

(** The marker is looked for only in iterations that are in time. *)
Lemma loop_polls_in_time fuel : forall k r,
  loop fuel k = Some r ->
  k <= Gate.polls r /\
  forall j, k <= j < Gate.polls r -> in_time j = true.
Proof.
  induction fuel as [| fuel IH]; intros k r; [discriminate |].
  rewrite loop_step.
  destruct (in_time k) eqn:Hk.
  - destruct (Gate.path_exists w path k).
    + intros [= <-]. simpl. split; [lia |].
      intros j Hj. now replace j with k by lia.
    + destruct (Gate.time_sleep w interval).
      * intros H. apply IH in H as [Hle Hin]. split; [lia |].
        intros j Hj. destruct (Nat.eq_dec j k) as [-> | Hne]; [assumption |].
        apply Hin. lia.
      * intros [= <-]. simpl. split; [lia |].
        intros j Hj. now replace j with k by lia.
  - intros [= <-]. simpl. split; [lia |]. intros j Hj. lia.
Qed.

(** With a poll interval that [time.sleep] accepts, the loop ends at
    the latest when the clock reads the deadline. *)
Lemma loop_ends (Hint : (0 <= interval)%Q)
  (Hfit : Gate.sleep_overflows w interval = false) d : forall k0,
  in_time (k0 + d) = false -> quiet_before k0 ->
  exists r k,
    loop (S d) k0 = Some r /\ quiet_before k /\
    (found_at k r \/ timed_out_at k r).
Proof.
  induction d as [| d IH]; intros k0 Hd Hq; rewrite loop_step.
  - rewrite Nat.add_0_r in Hd. rewrite Hd.
    eexists. exists k0. split; [reflexivity |]. split; [assumption |].
    right. now repeat split.
  - destruct (in_time k0) eqn:Hk.
    + destruct (Gate.path_exists w path k0) eqn:He.
      * eexists. exists k0. split; [reflexivity |]. split; [assumption |].
        left. now repeat split.
      * rewrite (sleep_returns Hint Hfit). apply IH.
        -- now rewrite Nat.add_succ_comm.
        -- intros j Hj. destruct (Nat.eq_dec j k0) as [-> | Hne]; [now split |].
           apply Hq. lia.
    + eexists. exists k0. split; [reflexivity |]. split; [assumption |].
      right. now repeat split.
Qed.

(** Some reading of the clock is at or past the deadline. *)
Lemma deadline_reached : exists k, in_time k = false.
Proof.
  destruct (Gate.clock_unbounded w (timeout + Gate.time_time w 0)) as [k Hk].
  exists k. apply in_time_false.
  pose proof (Gate.clock_monotone w k). lra.
Qed.



End GateFacts.




(** ** The process stage *)

Lemma insert_asc_perm x l : Permutation (Processor.insert_asc x l) (x :: l).
Proof.
  induction l as [| h t IH]; simpl; [reflexivity |].
  destruct (Processor.text_ltb h x); [| reflexivity].
  rewrite IH. apply perm_swap.
Qed.

(** [sorted] enumerates every listed path, once. *)
Lemma sorted_perm l : Permutation (Processor.sorted l) l.
Proof.
  induction l as [| x l IH]; simpl; [reflexivity |].
  rewrite insert_asc_perm. now constructor.
Qed.

Section ProcessorFacts.
Context {U : UnicodeDB}.
Variable strip_html : text -> text * list text * list text.
Variable read_file : text -> Processor.load.
Variable now : nat -> text.

Local Notation "'visit_all'" := (Processor.visit_all strip_html read_file now).
Local Notation "'visit'" := (Processor.visit strip_html read_file now).
Local Notation "'record_of'" := (Processor.record_of read_file).
Local Notation "'contents'" := (Processor.contents read_file).
Local Notation "'text_part'" := (Processor.text_part strip_html).

Lemma guarded_ratio_eqb a b :
  guarded_ratio a b = if b =? 0 then 0%Q else ratio a b.
Proof. unfold guarded_ratio. now destruct b. Qed.

(** [analyze_text] never raises. *)
Lemma analyze_text_returns t :
  exists d,
    Processor.analyze_text t = Ok d /\
    Processor.words d = length (findall_words t) /\
    Processor.avg_word_length d =
      guarded_ratio (sum_len (findall_words t)) (length (findall_words t)).
Proof.
  unfold Processor.analyze_text. rewrite guarded_div. simpl.
  eexists. split; [reflexivity |]. split; reflexivity.
Qed.

Lemma contents_cons f files :
  contents (f :: files) = contents [f] ++ contents files.
Proof. unfold Processor.contents. simpl. now rewrite app_nil_r. Qed.

End ProcessorFacts.

Section ProcessStage.
Context {U : UnicodeDB}.
Variable strip_html : text -> text * list text * list text.
Variable read_file : text -> Processor.load.
Variable now : nat -> text.

Local Notation "'main'" := (Processor.main strip_html read_file now).
Local Notation "'visit_all'" := (Processor.visit_all strip_html read_file now).
Local Notation "'visit'" := (Processor.visit strip_html read_file now).
Local Notation "'kept'" :=
  (Forall (fun a : text * Processor.processed_file =>
             Processor.average_guarded (snd a))).

(** Whatever happens to a document at loading, the loop goes on and
    every artifact written so far keeps its invariant. *)
Lemma visit_keeps_average st f :
  kept (Processor.written st) ->
  exists st', visit st f = Ok st' /\ kept (Processor.written st').
Proof.
  intros Hall. unfold Processor.visit, Processor.load_one.
  destruct (read_file f) as [| | c]; try (eexists; split; [reflexivity | exact Hall]).
  unfold Processor.body. simpl.
  destruct (strip_html c) as [[t ls] ims].
  destruct (analyze_text_returns t) as (d & Hd & Hw & Ha).
  rewrite Hd. simpl. eexists. split; [reflexivity |]. simpl.
  apply Forall_app. split; [assumption |].
  constructor; [| constructor].
  unfold Processor.average_guarded. simpl.
  rewrite Hw, Ha. split; [reflexivity | apply guarded_ratio_eqb].
Qed.

Lemma visit_all_keeps_average files : forall st,
  kept (Processor.written st) ->
  exists st', visit_all st files = Ok st' /\ kept (Processor.written st').
Proof.
  induction files as [| f files IH]; intros st Hall; simpl.
  - now exists st.
  - destruct (visit_keeps_average st f Hall) as (st1 & Hv & H1).
    rewrite Hv. simpl. now apply IH.
Qed.

(** C7.  [analyze_text] returns on every text, never dividing by
    zero: its average word length is 0 when the text has no word and
    the sum of the token lengths over the word count otherwise.  The
    process stage returns on every raw directory and every artifact it
    writes carries statistics with that property. *)
Theorem average_word_length_guarded (t : text) (glob_html : list text) :
  (exists d,
     Processor.analyze_text t = Ok d /\
     Processor.words d = length (findall_words t) /\
     Processor.avg_word_length d =
       if Processor.words d =? 0 then 0%Q
       else ratio (sum_len (findall_words t)) (Processor.words d)) /\
  (exists out status,
     main glob_html = Ok (out, status) /\
     Forall (fun a => Processor.average_guarded (snd a)) out).
Proof.
  split.
  - destruct (analyze_text_returns t) as (d & Hd & Hw & Ha).
    exists d. rewrite Hw, Ha. repeat split; [assumption |].
    apply guarded_ratio_eqb.
  - unfold Processor.main.
    destruct (visit_all_keeps_average (Processor.sorted glob_html)
                Processor.initial) as (st & Hst & Hall); [constructor |].
    rewrite Hst. simpl. eexists. eexists. split; [reflexivity | exact Hall].
Qed.

End ProcessStage.

(** C4, as stated, fails on a directory with one document that cannot be
    opened and one that loads: two documents are enumerated and two
    records written, and the count stored under [HTML files] is 1; the
    status has no key [total_files] and its records no key [file]. *)
Lemma status_counts_processed_documents :
  exists out status,
    Processor.main Processor.keep_text Processor.sample_dir Processor.no_stamp
      [of_string "/shared/raw/b.html"; of_string "/shared/raw/a.html"]
    = Ok (out, status) /\
    length (Processor.status_results status) = 2 /\
    Processor.successful status = 1 /\
    Processor.failed_count status = 1 /\
    Processor.HTML_files status = 1 /\
    ~ In "total_files"%string Processor.status_keys /\
    ~ In "file"%string Processor.outcome_keys.
Proof.
  eexists. eexists. split; [vm_compute; reflexivity |].
  repeat split; simpl; intuition discriminate.
Qed.

(** A document that opens and then fails at [read] leaves two records,
    [success] and then [failed], and no artifact. *)
Lemma read_failure_recorded_twice :
  exists out status,
    Processor.main Processor.keep_text Processor.sample_dir Processor.no_stamp
      [of_string "/shared/raw/c.html"]
    = Ok (out, status) /\
    out = [] /\
    map Processor.outcome_status (Processor.status_results status)
      = [Processor.success; Processor.failed].
Proof.
  eexists. eexists. split; [vm_compute; reflexivity |].
  split; reflexivity.
Qed.

(* ================================================================== *)
(** * Part III: further properties of the code *)
(* ================================================================== *)

(** ** The shape of tokens *)

Section TokenShapeFacts.
Context {U : UnicodeDB}.

Lemma starts_with_word_app a b :
  a <> [] -> starts_with_word (a ++ b) = starts_with_word a.
Proof. destruct a; [congruence | reflexivity]. Qed.

Lemma joined_snoc_word acc c :
  joined acc = true -> is_word c = true -> joined (acc ++ [c]) = true.
Proof.
  intros Hacc Hc. induction acc as [| a acc IH]; simpl in *.
  - now rewrite Hc.
  - apply andb_true_iff in Hacc as [Ha Hrest].
    rewrite IH by assumption. rewrite andb_true_r.
    destruct (is_word a); [reflexivity |]. simpl in *.
    destruct acc as [| b acc]; simpl in *.
    + now rewrite andb_false_r in Ha.
    + exact Ha.
Qed.

Lemma joined_snoc_joiner acc j c :
  joined acc = true -> is_joiner j = true -> is_word c = true ->
  joined (acc ++ [j; c]) = true.
Proof.
  intros Hacc Hj Hc. induction acc as [| a acc IH]; simpl in *.
  - now rewrite Hj, Hc, !orb_true_r.
  - apply andb_true_iff in Hacc as [Ha Hrest].
    rewrite IH by assumption. rewrite andb_true_r.
    destruct (is_word a); [reflexivity |]. simpl in *.
    destruct acc as [| b acc]; simpl in *.
    + now rewrite andb_false_r in Ha.
    + exact Ha.
Qed.

Lemma is_token_nonempty w : is_token w = true -> w <> [].
Proof. destruct w; [discriminate | discriminate]. Qed.

Lemma is_token_snoc_word acc c :
  is_token acc = true -> is_word c = true -> is_token (acc ++ [c]) = true.
Proof.
  unfold is_token. rewrite !andb_true_iff. intros [Hs Hj] Hc. split.
  - rewrite starts_with_word_app; [assumption |].
    destruct acc; [discriminate | discriminate].
  - now apply joined_snoc_word.
Qed.

Lemma is_token_snoc_joiner acc j c :
  is_token acc = true -> is_joiner j = true -> is_word c = true ->
  is_token ((acc ++ [j]) ++ [c]) = true.
Proof.
  unfold is_token. rewrite !andb_true_iff. intros [Hs Hj] Hjo Hc.
  rewrite <- app_assoc. simpl. split.
  - rewrite starts_with_word_app; [assumption |].
    destruct acc; [discriminate | discriminate].
  - now apply joined_snoc_joiner.
Qed.

Lemma scan_tokens s : forall acc,
  pending acc s -> Forall (fun w => is_token w = true) (scan acc s).
Proof.
  induction s as [| c rest IH]; intros acc Hp; simpl.
  - inversion Hp; subst; simpl.
    + constructor.
    + destruct acc; [constructor | repeat constructor; assumption].
    + discriminate.
  - destruct (is_word c) eqn:Hc.
    + apply IH. inversion Hp; subst.
      * apply pending_token. unfold is_token. simpl. now rewrite Hc.
      * apply pending_token. now apply is_token_snoc_word.
      * apply pending_token. now apply is_token_snoc_joiner.
    + assert (Htok : acc = [] \/ is_token acc = true).
      { inversion Hp; subst; auto. simpl in *. congruence. }
      destruct (is_joiner c && truthy acc && starts_with_word rest) eqn:Hcont.
      * apply andb_true_iff in Hcont as [Hcont Hnext].
        apply andb_true_iff in Hcont as [Hj Hacc].
        apply IH. destruct Htok as [-> | Htok]; [discriminate |].
        now apply pending_joiner.
      * apply Forall_app. split.
        -- destruct Htok as [-> | Htok]; [constructor |].
           destruct acc; [constructor | repeat constructor; assumption].
        -- apply IH. constructor.
Qed.

Lemma joined_all s :
  joined s = true ->
  Forall (fun c => is_word c = true \/ is_joiner c = true) s.
Proof.
  induction s as [| c s IH]; simpl; [constructor |].
  rewrite andb_true_iff, orb_true_iff, andb_true_iff.
  intros [[Hc | [Hc _]] Hs]; constructor; auto.
Qed.

Lemma joined_last s c : joined (s ++ [c]) = true -> is_word c = true.
Proof.
  induction s as [| a s IH]; simpl.
  - rewrite andb_false_r, orb_false_r, andb_true_r. trivial.
  - rewrite andb_true_iff. intros [_ H]. auto.
Qed.

Lemma sum_len_app a b : sum_len (a ++ b) = sum_len a + sum_len b.
Proof. induction a; simpl; lia. Qed.

Lemma sum_len_emit acc : sum_len (emit acc) = length acc.
Proof. destruct acc; simpl; lia. Qed.

Lemma scan_sum_len s : forall acc,
  sum_len (scan acc s) <= length acc + length s.
Proof.
  induction s as [| c rest IH]; intros acc; simpl.
  - rewrite sum_len_emit. lia.
  - destruct (is_word c);
      [specialize (IH (acc ++ [c])); rewrite length_app in IH; simpl in IH; lia |].
    destruct (is_joiner c && truthy acc && starts_with_word rest).
    + specialize (IH (acc ++ [c])). rewrite length_app in IH. simpl in IH. lia.
    + rewrite sum_len_app, sum_len_emit. specialize (IH []). simpl in IH. lia.
Qed.

Lemma scan_pending_nonempty s : forall acc, acc <> [] -> scan acc s <> [].
Proof.
  induction s as [| c rest IH]; intros acc Hacc; simpl.
  - destruct acc; [congruence | discriminate].
  - assert (Hsnoc : acc ++ [c] <> []) by (destruct acc; discriminate).
    destruct (is_word c); [now apply IH |].
    destruct (is_joiner c && truthy acc && starts_with_word rest); [now apply IH |].
    destruct acc; [congruence | discriminate].
Qed.

Lemma tokens_lengths ws :
  Forall (fun w => is_token w = true) ws -> length ws <= sum_len ws.
Proof.
  induction 1 as [| w ws Hw _ IH]; simpl; [lia |].
  destruct w; [discriminate | simpl; lia].
Qed.

(** X1.  Every token [findall_words] returns matches the pattern as a
    whole: it is not empty, it begins and ends with a word character, it
    holds only word characters, hyphens and apostrophes, and each hyphen
    or apostrophe has a word character right behind it (so no two of them
    are adjacent). *)
Theorem tokens_match_pattern (s : text) :
  Forall (fun w =>
            is_token w = true /\
            w <> [] /\
            starts_with_word w = true /\
            starts_with_word (rev w) = true /\
            Forall (fun c => is_word c = true \/ is_joiner c = true) w)
         (findall_words s).
Proof.
  pose proof (scan_tokens s [] (pending_none s)) as H.
  unfold findall_words. eapply Forall_impl; [| exact H].
  intros w Hw. split; [assumption |].
  pose proof (is_token_nonempty w Hw) as Hne.
  unfold is_token in Hw. apply andb_true_iff in Hw as [Hs Hj].
  repeat split; try assumption.
  - destruct (rev w) as [| c r] eqn:Hrev.
    + apply (f_equal (@rev char)) in Hrev. rewrite rev_involutive in Hrev.
      simpl in Hrev. congruence.
    + simpl. apply (joined_last (rev r) c).
      apply (f_equal (@rev char)) in Hrev. rewrite rev_involutive in Hrev.
      simpl in Hrev. now rewrite <- Hrev.
  - now apply joined_all.
Qed.

(** X2.  A text has no token exactly when it has no word character;
    the tokens never hold more characters than the text, and there are
    never more tokens than characters in them. *)
Theorem tokens_and_word_characters (s : text) :
  (findall_words s = [] <-> has_word_char s = false) /\
  sum_len (findall_words s) <= length s /\
  length (findall_words s) <= sum_len (findall_words s).
Proof.
  split; [| split].
  - unfold findall_words, has_word_char. split.
    + induction s as [| c s IH]; simpl; [reflexivity |].
      destruct (is_word c) eqn:Hc.
      * intros H. exfalso. revert H. apply scan_pending_nonempty. discriminate.
      * rewrite andb_false_r. simpl. exact IH.
    + intros H. apply scan_no_word.
      induction s as [| c s IH]; simpl in *; [reflexivity |].
      apply orb_false_iff in H as [Hc Hs]. now rewrite Hc, IH.
  - apply (scan_sum_len s []).
  - apply tokens_lengths, (scan_tokens s [] (pending_none s)).
Qed.

End TokenShapeFacts.

(** ** Jaccard similarity *)

Section JaccardSets.
Context {A : Type} (eq_dec : forall a b : A, {a = b} + {a <> b}).

Local Notation "'set'" := (Analyzer.set eq_dec).
Local Notation "'inter'" := (Analyzer.intersection eq_dec).
Local Notation "'union'" := (Analyzer.union eq_dec).
Local Notation "'J'" := (Analyzer.jaccard_value eq_dec).

Lemma set_in l x : In x (set l) <-> In x l.
Proof. apply nodup_In. Qed.

Lemma set_nodup l : NoDup (set l).
Proof. apply NoDup_nodup. Qed.

Lemma analyzer_mem_true x l : Analyzer.mem eq_dec x l = true <-> In x l.
Proof. unfold Analyzer.mem. destruct (in_dec eq_dec x l); intuition congruence. Qed.

Lemma inter_in s1 s2 x : In x (inter s1 s2) <-> In x s1 /\ In x s2.
Proof.
  unfold Analyzer.intersection. rewrite filter_In, analyzer_mem_true. tauto.
Qed.

Lemma union_in s1 s2 x : In x (union s1 s2) <-> In x s1 \/ In x s2.
Proof.
  unfold Analyzer.union. rewrite in_app_iff, filter_In, negb_true_iff.
  destruct (in_dec eq_dec x s1) as [Hin | Hout].
  - tauto.
  - assert (Analyzer.mem eq_dec x s1 = false).
    { destruct (Analyzer.mem eq_dec x s1) eqn:E; [| reflexivity].
      apply analyzer_mem_true in E. contradiction. }
    tauto.
Qed.

Lemma inter_nodup s1 s2 : NoDup s1 -> NoDup (inter s1 s2).
Proof. apply NoDup_filter. Qed.

Lemma union_nodup s1 s2 : NoDup s1 -> NoDup s2 -> NoDup (union s1 s2).
Proof.
  intros H1 H2. unfold Analyzer.union.
  apply NoDup_app; [assumption | now apply NoDup_filter |].
  intros x Hx Hin. apply filter_In in Hin as [_ Hm].
  apply negb_true_iff in Hm.
  assert (Analyzer.mem eq_dec x s1 = true) by now apply analyzer_mem_true.
  congruence.
Qed.

Lemma same_length (l l' : list A) :
  NoDup l -> NoDup l' -> same_elements l l' -> length l = length l'.
Proof.
  intros Hl Hl' Hsame. apply Permutation_length.
  now apply NoDup_Permutation.
Qed.

(** The value in terms of the two cardinals. *)
Lemma jaccard_cardinals d1 d2 :
  J d1 d2 =
  if length (union (set d1) (set d2)) =? 0 then 0%Q
  else ratio (length (inter (set d1) (set d2)))
             (length (union (set d1) (set d2))).
Proof.
  unfold Analyzer.jaccard_value.
  destruct (union (set d1) (set d2)); reflexivity.
Qed.

Lemma jaccard_same d1 d2 d1' d2' :
  same_elements d1 d1' -> same_elements d2 d2' -> J d1 d2 = J d1' d2'.
Proof.
  intros H1 H2. rewrite !jaccard_cardinals.
  assert (Hi : length (inter (set d1) (set d2))
               = length (inter (set d1') (set d2'))).
  { apply same_length; try (apply inter_nodup, set_nodup).
    intros x. rewrite !inter_in, !set_in. unfold same_elements in *.
    rewrite H1, H2. tauto. }
  assert (Hu : length (union (set d1) (set d2))
               = length (union (set d1') (set d2'))).
  { apply same_length; try (apply union_nodup; apply set_nodup).
    intros x. rewrite !union_in, !set_in. unfold same_elements in *.
    rewrite H1, H2. tauto. }
  now rewrite Hi, Hu.
Qed.

Lemma jaccard_swap d1 d2 : J d1 d2 = J d2 d1.
Proof.
  rewrite !jaccard_cardinals.
  assert (Hi : length (inter (set d1) (set d2))
               = length (inter (set d2) (set d1))).
  { apply same_length; try (apply inter_nodup, set_nodup).
    intros x. rewrite !inter_in. tauto. }
  assert (Hu : length (union (set d1) (set d2))
               = length (union (set d2) (set d1))).
  { apply same_length; try (apply union_nodup; apply set_nodup).
    intros x. rewrite !union_in. tauto. }
  now rewrite Hi, Hu.
Qed.

Lemma ratio_zero_iff a b : 0 < b -> (ratio a b == 0)%Q <-> a = 0.
Proof.
  intros Hb. unfold ratio. split.
  - intros H.
    assert (Hb' : ~ (inject_Z (Z.of_nat b) == 0)%Q).
    { unfold Qeq. simpl. lia. }
    assert (H' : (inject_Z (Z.of_nat a) == 0)%Q).
    { transitivity (inject_Z (Z.of_nat b)
                    * (inject_Z (Z.of_nat a) / inject_Z (Z.of_nat b)))%Q.
      - symmetry. now apply Qmult_div_r.
      - rewrite H. ring. }
    unfold Qeq in H'. simpl in H'. lia.
  - intros ->. apply ratio_zero.
Qed.

Lemma ratio_one_iff a b : 0 < b -> (ratio a b == 1)%Q <-> a = b.
Proof.
  intros Hb. unfold ratio.
  assert (Hb' : ~ (inject_Z (Z.of_nat b) == 0)%Q).
  { unfold Qeq. simpl. lia. }
  split.
  - intros H.
    assert (H' : (inject_Z (Z.of_nat a) == inject_Z (Z.of_nat b))%Q).
    { transitivity (inject_Z (Z.of_nat b)
                    * (inject_Z (Z.of_nat a) / inject_Z (Z.of_nat b)))%Q.
      - symmetry. now apply Qmult_div_r.
      - rewrite H. ring. }
    unfold Qeq in H'. simpl in H'. lia.
  - intros ->. now apply ratio_self.
Qed.

(** X3.  [jaccard_similarity] returns on every pair of sequences (the
    division is never by zero), with a value between 0 and 1; the value
    is 0 exactly when the two have no element in common, which includes
    two empty sequences. *)
Theorem jaccard_returns_a_ratio (d1 d2 : list A) :
  exists q,
    Analyzer.jaccard_similarity eq_dec d1 d2 = Ok q /\
    (0 <= q <= 1)%Q /\
    ((q == 0)%Q <-> disjoint d1 d2).
Proof.
  exists (J d1 d2). split; [apply jaccard_returns |].
  split; [apply jaccard_range |].
  rewrite jaccard_cardinals.
  assert (Hempty : inter (set d1) (set d2) = [] <-> disjoint d1 d2).
  { split.
    - intros H x H1 H2.
      assert (Hin : In x (inter (set d1) (set d2))).
      { apply inter_in. now rewrite !set_in. }
      rewrite H in Hin. contradiction.
    - intros H. destruct (inter (set d1) (set d2)) as [| x l] eqn:E; [reflexivity |].
      assert (Hin : In x (inter (set d1) (set d2))) by (rewrite E; now left).
      apply inter_in in Hin as [H1 H2]. rewrite set_in in H1, H2.
      exfalso. exact (H x H1 H2). }
  pose proof (intersection_le_union eq_dec (set d1) (set d2)) as Hle.
  destruct (Nat.eqb_spec (length (union (set d1) (set d2))) 0) as [Hu | Hu].
  - split; [| reflexivity]. intros _. apply Hempty.
    destruct (inter (set d1) (set d2)); [reflexivity | simpl in Hle; lia].
  - rewrite ratio_zero_iff by lia. rewrite <- Hempty.
    destruct (inter (set d1) (set d2)); simpl; split; congruence || lia.
Qed.

(** X4.  The similarity does not depend on the order of its arguments,
    nor on the order or the repetitions inside them: it is a function of
    the two sets of elements. *)
Theorem jaccard_symmetric_on_sets (d1 d2 d1' d2' : list A)
  (H1 : same_elements d1 d1') (H2 : same_elements d2 d2') :
  Analyzer.jaccard_similarity eq_dec d1 d2
    = Analyzer.jaccard_similarity eq_dec d2 d1 /\
  Analyzer.jaccard_similarity eq_dec d1 d2
    = Analyzer.jaccard_similarity eq_dec d1' d2'.
Proof.
  rewrite !jaccard_returns. split; f_equal.
  - apply jaccard_swap.
  - now apply jaccard_same.
Qed.

(** X5.  The similarity is 1 exactly when the two sequences hold the
    same elements and are not empty; in particular a non-empty document is
    at similarity 1 from itself. *)
Theorem jaccard_one_iff_same_set (d1 d2 : list A) :
  exists q,
    Analyzer.jaccard_similarity eq_dec d1 d2 = Ok q /\
    ((q == 1)%Q <-> (same_elements d1 d2 /\ d1 <> [])).
Proof.
  exists (J d1 d2). split; [apply jaccard_returns |].
  rewrite jaccard_cardinals.
  pose proof (intersection_le_union eq_dec (set d1) (set d2)) as Hle.
  destruct (Nat.eqb_spec (length (union (set d1) (set d2))) 0) as [Hu | Hu].
  - split; [intros H; discriminate H |].
    intros [Hsame Hne]. exfalso. destruct d1 as [| x d1]; [congruence |].
    assert (Hin : In x (union (set (x :: d1)) (set d2))).
    { apply union_in. left. apply set_in. now left. }
    destruct (union (set (x :: d1)) (set d2)); [contradiction | discriminate].
  - rewrite ratio_one_iff by lia. split.
    + intros Heq.
      assert (Hincl : incl (union (set d1) (set d2)) (inter (set d1) (set d2))).
      { apply NoDup_length_incl.
        - apply inter_nodup, set_nodup.
        - lia.
        - intros x Hx. apply inter_in in Hx as [Hx _]. apply union_in. now left. }
      split.
      * intros x. split; intros Hx.
        -- assert (Hin : In x (union (set d1) (set d2))).
           { apply union_in. left. now apply set_in. }
           apply Hincl, inter_in in Hin as [_ Hin]. now rewrite set_in in Hin.
        -- assert (Hin : In x (union (set d1) (set d2))).
           { apply union_in. right. now apply set_in. }
           apply Hincl, inter_in in Hin as [Hin _]. now rewrite set_in in Hin.
      * intros ->.
        assert (Hex : exists x, In x (union (set []) (set d2))).
        { destruct (union (set []) (set d2)) as [| x l];
            [simpl in Hu; lia | exists x; now left]. }
        destruct Hex as [x Hin].
        apply Hincl, inter_in in Hin as [Hin _]. simpl in Hin. contradiction.
    + intros [Hsame _]. apply same_length.
      * apply inter_nodup, set_nodup.
      * apply union_nodup; apply set_nodup.
      * intros x. rewrite inter_in, union_in, !set_in.
        unfold same_elements in Hsame. rewrite Hsame. tauto.
Qed.

End JaccardSets.

Lemma jaccard_symmetric_on_sets_witness :
  Analyzer.jaccard_similarity char_eq_dec (of_string "abca") (of_string "bd")
  = Analyzer.jaccard_similarity char_eq_dec (of_string "cba") (of_string "dbb").
Proof.
  apply (jaccard_symmetric_on_sets char_eq_dec
           (of_string "abca") (of_string "bd") (of_string "cba") (of_string "dbb")).
  - intros x. simpl. tauto.
  - intros x. simpl. tauto.
Defined.

(** ** The normalizer *)

Section LoopFacts.
Variable m : text -> option nat.
Variable repl : text.

Lemma sub_from_skip s : forall k,
  Html.sub_from m repl k s = Html.sub m repl (skipn k s).
Proof.
  induction s as [| c rest IH]; intros k.
  - now destruct k.
  - destruct k as [| k]; [reflexivity |]. simpl. apply IH.
Qed.

Lemma sub_cons c rest :
  Html.sub m repl (c :: rest) =
  match m (c :: rest) with
  | Some n => repl ++ Html.sub m repl (skipn n rest)
  | None => c :: Html.sub m repl rest
  end.
Proof.
  unfold Html.sub at 1. simpl.
  destruct (m (c :: rest)); [now rewrite sub_from_skip | reflexivity].
Qed.

Lemma matches_nowhere_tail {R : Type} (f : text -> option R) c s :
  matches_nowhere f (c :: s) -> matches_nowhere f s.
Proof. intros H a b ->. apply (H (c :: a) b). reflexivity. Qed.

Lemma matches_nowhere_head {R : Type} (f : text -> option R) s :
  matches_nowhere f s -> f s = None.
Proof. intros H. apply (H [] s). reflexivity. Qed.

(** Without a match the text is left as it is. *)
Lemma sub_no_match s : matches_nowhere m s -> Html.sub m repl s = s.
Proof.
  induction s as [| c rest IH]; intros H; [reflexivity |].
  rewrite sub_cons, (matches_nowhere_head m _ H).
  f_equal. apply IH. now apply matches_nowhere_tail in H.
Qed.

End LoopFacts.

(** Induction on the length of a text. *)
Lemma text_length_ind (P : text -> Prop) :
  (forall s, (forall s', length s' < length s -> P s') -> P s) ->
  forall s, P s.
Proof.
  intros H s.
  assert (G : forall n s, length s < n -> P s).
  { induction n as [| n IH]; intros s' Hs; [lia |].
    apply H. intros s'' Hs''. apply IH. lia. }
  apply (G (S (length s))). lia.
Qed.

Section SpanFacts.
Variable p : char -> bool.

Lemma span_spec s :
  s = fst (Html.span p s) ++ snd (Html.span p s) /\
  forallb p (fst (Html.span p s)) = true /\
  match snd (Html.span p s) with
  | [] => True
  | c :: _ => p c = false
  end.
Proof.
  induction s as [| c s (IH1 & IH2 & IH3)]; simpl; [auto |].
  destruct (p c) eqn:Hc.
  - destruct (Html.span p s) as [r s']. simpl in *.
    rewrite Hc. repeat split; [congruence | assumption | assumption].
  - simpl. auto.
Qed.

Lemma span_skipn s :
  skipn (length (fst (Html.span p s))) s = snd (Html.span p s).
Proof.
  destruct (span_spec s) as [Hs _].
  rewrite Hs at 2. now rewrite skipn_app, skipn_all, Nat.sub_diag.
Qed.

Lemma span_all s : forallb p s = true -> Html.span p s = (s, []).
Proof.
  induction s as [| c s IH]; simpl; [reflexivity |].
  rewrite andb_true_iff. intros [Hc Hs]. now rewrite Hc, IH.
Qed.

Lemma span_app_all a s :
  forallb p a = true ->
  Html.span p (a ++ s) = (a ++ fst (Html.span p s), snd (Html.span p s)).
Proof.
  induction a as [| c a IH]; simpl.
  - intros _. now destruct (Html.span p s).
  - rewrite andb_true_iff. intros [Hc Ha]. now rewrite Hc, IH.
Qed.

End SpanFacts.

Section WhiteSpace.

Lemma lstrip_suffix s : exists a, s = a ++ lstrip s /\ forallb is_space a = true.
Proof.
  induction s as [| c s (a & Ha & Hsp)]; simpl.
  - now exists [].
  - destruct (is_space c) eqn:Hc.
    + exists (c :: a). simpl. rewrite Hc. split; [congruence | assumption].
    + now exists [].
Qed.

Lemma lstrip_head s : starts_with_space (lstrip s) = false.
Proof.
  induction s as [| c s IH]; simpl; [reflexivity |].
  destruct (is_space c) eqn:Hc; [assumption | simpl; assumption].
Qed.

Lemma lstrip_id s : starts_with_space s = false -> lstrip s = s.
Proof. destruct s as [| c s]; simpl; [reflexivity | now intros ->]. Qed.

Lemma lstrip_nil s : lstrip s = [] <-> forallb is_space s = true.
Proof.
  induction s as [| c s IH]; simpl; [tauto |].
  destruct (is_space c); simpl; [exact IH | split; discriminate].
Qed.

(** [strip] cuts white space off both ends: what is left sits in the
    middle of the string. *)
Lemma strip_middle s :
  exists a b, s = a ++ strip s ++ b /\
              forallb is_space a = true /\ forallb is_space b = true.
Proof.
  unfold strip.
  destruct (lstrip_suffix s) as (a & Ha & Hsa).
  destruct (lstrip_suffix (rev (lstrip s))) as (b & Hb & Hsb).
  exists a, (rev b). split; [| split; [assumption |]].
  - rewrite Ha at 1. f_equal.
    rewrite <- (rev_involutive (lstrip s)), Hb at 1.
    now rewrite rev_app_distr.
  - rewrite forallb_forall in *. intros x Hx. apply Hsb. now apply in_rev.
Qed.

Lemma strip_head s : starts_with_space (strip s) = false.
Proof.
  unfold strip.
  destruct (lstrip_suffix (rev (lstrip s))) as (b & Hb & _).
  pose proof (lstrip_head s) as Hh.
  assert (Hl : lstrip s = rev (lstrip (rev (lstrip s))) ++ rev b).
  { rewrite <- (rev_involutive (lstrip s)) at 1. rewrite Hb at 1.
    now rewrite rev_app_distr. }
  destruct (rev (lstrip (rev (lstrip s)))) as [| c r]; [reflexivity |].
  rewrite Hl in Hh. exact Hh.
Qed.

Lemma strip_last s : starts_with_space (rev (strip s)) = false.
Proof. unfold strip. rewrite rev_involutive. apply lstrip_head. Qed.

Lemma strip_id s :
  starts_with_space s = false -> starts_with_space (rev s) = false ->
  strip s = s.
Proof.
  intros H1 H2. unfold strip.
  now rewrite (lstrip_id s H1), (lstrip_id (rev s) H2), rev_involutive.
Qed.

Lemma strip_nil s : strip s = [] <-> forallb is_space s = true.
Proof.
  unfold strip. split.
  - intros H. apply (f_equal (@rev char)) in H. rewrite rev_involutive in H.
    simpl in H. apply lstrip_nil in H.
    assert (Hl : forallb is_space (lstrip s) = true).
    { rewrite forallb_forall in *. intros x Hx. apply H. now apply in_rev in Hx. }
    destruct (lstrip s) as [| c r] eqn:E.
    + now apply lstrip_nil.
    + pose proof (lstrip_head s) as Hh. rewrite E in Hh. simpl in *.
      rewrite Hh in Hl. discriminate.
  - intros H. apply lstrip_nil in H. rewrite H. reflexivity.
Qed.

Lemma collapsed_suffix a b : collapsed (a ++ b) = true -> collapsed b = true.
Proof.
  induction a as [| c a IH]; simpl; [trivial |].
  rewrite andb_true_iff. intros [_ H]. auto.
Qed.

Lemma collapsed_prefix a b : collapsed (a ++ b) = true -> collapsed a = true.
Proof.
  induction a as [| c a IH]; simpl; [reflexivity |].
  rewrite !andb_true_iff. intros [Hc H]. split; [| auto].
  destruct (is_space c); simpl in *; [| reflexivity].
  apply andb_true_iff in Hc as [Hc Hn]. rewrite Hc. simpl.
  destruct a; [reflexivity | exact Hn].
Qed.

Lemma space_match_cons c rest :
  Html.space_match (c :: rest) =
  if is_space c then Some (length (fst (Html.span is_space rest))) else None.
Proof.
  unfold Html.space_match. simpl.
  destruct (is_space c); [| reflexivity].
  now destruct (Html.span is_space rest).
Qed.

Lemma sub_space_head s :
  starts_with_space (Html.sub Html.space_match [32%N] s) = starts_with_space s.
Proof.
  destruct s as [| c rest]; [reflexivity |].
  rewrite sub_cons, space_match_cons. simpl.
  destruct (is_space c) eqn:Hc; [reflexivity | simpl; exact Hc].
Qed.

(** [re.sub(r"\s+", " ", s)] leaves single spaces as the only white
    space. *)
Lemma sub_space_collapsed s :
  collapsed (Html.sub Html.space_match [32%N] s) = true.
Proof.
  induction s as [s IH] using text_length_ind.
  destruct s as [| c rest]; [reflexivity |].
  rewrite sub_cons, space_match_cons.
  destruct (is_space c) eqn:Hc.
  - rewrite span_skipn.
    destruct (span_spec is_space rest) as (Hs & _ & Hnext).
    simpl. rewrite sub_space_head, IH.
    + destruct (snd (Html.span is_space rest)); [reflexivity | simpl; now rewrite Hnext].
    + apply (f_equal (@length char)) in Hs. rewrite length_app in Hs.
      simpl. lia.
  - simpl. rewrite Hc. simpl. apply IH. simpl. lia.
Qed.

End WhiteSpace.

Section NormalText.
Variable unicode_ci : char -> char -> bool.

Local Notation "'text_of_html'" :=
  (Processor.text_part (Html.strip_html unicode_ci)).

Lemma collapsed_spaces t :
  collapsed t = true -> Forall (fun c => is_space c = true -> c = 32%N) t.
Proof.
  induction t as [| c t IH]; simpl; [constructor |].
  rewrite andb_true_iff. intros [Hc Ht]. constructor; [| auto].
  intros Hs. rewrite Hs in Hc. simpl in Hc.
  apply andb_true_iff in Hc as [Hc _]. now apply N.eqb_eq.
Qed.

Lemma collapsed_no_double a b : collapsed (a ++ 32%N :: 32%N :: b) = false.
Proof.
  induction a as [| c a IH]; simpl; [reflexivity |].
  rewrite IH. apply andb_false_r.
Qed.

Lemma strip_collapsed x : collapsed x = true -> collapsed (strip x) = true.
Proof.
  intros H. destruct (strip_middle x) as (a & b & Hx & _).
  rewrite Hx in H. apply collapsed_suffix in H. now apply collapsed_prefix in H.
Qed.

Lemma text_collapsed h : collapsed (text_of_html h) = true.
Proof.
  unfold Processor.text_part, Html.strip_html. simpl.
  apply strip_collapsed, sub_space_collapsed.
Qed.

Lemma strip_html_text_normal_ends h :
  starts_with_space (text_of_html h) = false /\
  starts_with_space (rev (text_of_html h)) = false.
Proof.
  unfold Processor.text_part, Html.strip_html. simpl.
  split; [apply strip_head | apply strip_last].
Qed.

(** X6.  The text [strip_html] returns is in normal form for white
    space: its only white-space characters are single spaces (U+0020), no
    two of them are adjacent, and it neither begins nor ends with one; so
    it holds no tab and no line break. *)
Theorem strip_html_text_normal (h : text) :
  Forall (fun c => is_space c = true -> c = 32%N) (text_of_html h) /\
  (forall a b, text_of_html h <> a ++ 32%N :: 32%N :: b) /\
  starts_with_space (text_of_html h) = false /\
  starts_with_space (rev (text_of_html h)) = false.
Proof.
  pose proof (text_collapsed h) as Hc.
  split; [now apply collapsed_spaces |].
  split.
  - intros a b Heq. rewrite Heq, collapsed_no_double in Hc. discriminate.
  - unfold Processor.text_part, Html.strip_html. simpl.
    split; [apply strip_head | apply strip_last].
Qed.

(** *** No tag is left *)

Lemma inside_no_gt s :
  tag_free_from Inside s = forallb Html.not_gt s.
Proof.
  induction s as [| c s IH]; simpl; [reflexivity |].
  unfold Html.not_gt at 1. destruct (c =? 62)%N; simpl; [reflexivity | exact IH].
Qed.

Lemma no_gt_no_tag s c :
  forallb Html.not_gt s = true -> Html.tag_match (c :: s) = None.
Proof.
  intros H. unfold Html.tag_match.
  destruct (c =? 60)%N; [| reflexivity].
  rewrite (span_all _ _ H). now destruct s.
Qed.

Lemma no_gt_nowhere s :
  forallb Html.not_gt s = true -> matches_nowhere Html.tag_match s.
Proof.
  intros H a b ->. rewrite forallb_app in H.
  apply andb_true_iff in H as [_ Hb].
  destruct b as [| c b]; [reflexivity |].
  simpl in Hb. apply andb_true_iff in Hb as [_ Hb]. now apply no_gt_no_tag.
Qed.

(** A scan that never sees a tag closed: the pattern matches
    nowhere. *)
Lemma tag_free_nowhere s : forall st,
  tag_free_from st s = true -> matches_nowhere Html.tag_match s.
Proof.
  induction s as [| c s IH]; intros st H a b Heq.
  - destruct a; [| discriminate]. simpl in Heq. now subst.
  - simpl in H. destruct (tag_step st c) as [st' |] eqn:Hstep; [| discriminate].
    destruct a as [| x a]; simpl in Heq.
    + subst b. unfold Html.tag_match.
      destruct (N.eqb_spec c 60) as [-> | Hne]; [| reflexivity].
      assert (Hst : st' = Opened \/ st' = Inside).
      { destruct st; simpl in Hstep; injection Hstep as <-; auto. }
      destruct Hst as [-> | ->].
      * destruct s as [| d s]; [reflexivity |]. simpl in H. simpl.
        unfold Html.not_gt at 1.
        destruct (d =? 62)%N; simpl; [reflexivity |].
        rewrite inside_no_gt in H. now rewrite (span_all _ _ H).
      * rewrite inside_no_gt in H. rewrite (span_all _ _ H). now destruct s.
    + injection Heq as -> Hs. now apply (IH st' H a b).
Qed.

Lemma tag_match_skipn c s n :
  Html.tag_match (c :: s) = Some n -> length (skipn n s) < length (c :: s).
Proof. intros _. rewrite length_skipn. simpl. lia. Qed.

Lemma tag_match_none c s :
  Html.tag_match (c :: s) = None ->
  c <> 60%N \/ s = [] \/ (exists s', s = 62%N :: s') \/ forallb Html.not_gt s = true.
Proof.
  unfold Html.tag_match.
  destruct (N.eqb_spec c 60) as [-> | Hne]; [| now left].
  intros H. right.
  destruct (span_spec Html.not_gt s) as (Hs & Hall & Hnext).
  destruct (Html.span Html.not_gt s) as [r s2]. simpl in *.
  destruct r as [| x r].
  - simpl in Hs. subst s2. destruct s as [| d s]; [now left |].
    right. left. exists s. f_equal.
    unfold Html.not_gt in Hnext. apply negb_false_iff in Hnext.
    now apply N.eqb_eq.
  - destruct s2 as [| y s2]; [| discriminate].
    right. right. rewrite app_nil_r in Hs. now subst s.
Qed.

Lemma sub_tag_free s :
  tag_free_from Outside (Html.sub Html.tag_match [32%N] s) = true.
Proof.
  induction s as [s IH] using text_length_ind.
  destruct s as [| c rest]; [reflexivity |].
  rewrite sub_cons.
  destruct (Html.tag_match (c :: rest)) as [n |] eqn:Hm.
  - simpl. apply IH. now apply (tag_match_skipn c).
  - apply tag_match_none in Hm.
    destruct Hm as [Hc | [-> | [[s' ->] | Hall]]].
    + simpl. destruct (N.eqb_spec c 60); [contradiction |].
      apply IH. simpl. lia.
    + simpl. now destruct (c =? 60)%N.
    + rewrite sub_cons. simpl.
      destruct (c =? 60)%N; simpl; apply IH; simpl; lia.
    + rewrite (sub_no_match _ _ _ (no_gt_nowhere rest Hall)). simpl.
      destruct (c =? 60)%N.
      * destruct rest as [| d rest]; [reflexivity |].
        simpl in *. apply andb_true_iff in Hall as [Hd Hall].
        unfold Html.not_gt in Hd. apply negb_true_iff in Hd. rewrite Hd.
        now rewrite inside_no_gt.
      * specialize (IH rest). rewrite (sub_no_match _ _ _ (no_gt_nowhere rest Hall)) in IH.
        apply IH. simpl. lia.
Qed.

Lemma space_not_angle c : is_space c = true -> (c =? 60)%N = false /\ (c =? 62)%N = false.
Proof.
  intros Hs. split.
  - destruct (N.eqb_spec c 60) as [-> | _]; [discriminate Hs | reflexivity].
  - destruct (N.eqb_spec c 62) as [-> | _]; [discriminate Hs | reflexivity].
Qed.

Lemma tag_step_space st c :
  is_space c = true -> tag_step st c = Some (space_step st).
Proof.
  intros Hs. destruct (space_not_angle c Hs) as [H60 H62].
  destruct st; simpl; now rewrite ?H60, ?H62.
Qed.

Lemma tag_free_spaces r s st :
  forallb is_space r = true ->
  tag_free_from (space_step st) (r ++ s) = tag_free_from (space_step st) s.
Proof.
  induction r as [| c r IH]; simpl; [reflexivity |].
  rewrite andb_true_iff. intros [Hc Hr].
  rewrite (tag_step_space _ c Hc).
  destruct st; simpl in *; now apply IH.
Qed.

Lemma sub_space_tag_free s : forall st,
  tag_free_from st (Html.sub Html.space_match [32%N] s) = tag_free_from st s.
Proof.
  induction s as [s IH] using text_length_ind. intros st.
  destruct s as [| c rest]; [reflexivity |].
  rewrite sub_cons, space_match_cons.
  destruct (is_space c) eqn:Hc.
  - rewrite span_skipn.
    destruct (span_spec is_space rest) as (Hs & Hall & _).
    simpl. rewrite (tag_step_space st c Hc).
    assert (H32 : tag_step st 32%N = Some (space_step st)) by now apply tag_step_space.
    rewrite H32, IH.
    + rewrite Hs at 2. symmetry. now apply tag_free_spaces.
    + apply (f_equal (@length char)) in Hs. rewrite length_app in Hs. simpl. lia.
  - simpl. destruct (tag_step st c); [| reflexivity]. apply IH. simpl. lia.
Qed.

Lemma tag_free_prefix a b : forall st,
  tag_free_from st (a ++ b) = true -> tag_free_from st a = true.
Proof.
  induction a as [| c a IH]; intros st; simpl; [reflexivity |].
  destruct (tag_step st c); [apply IH | trivial].
Qed.

Lemma strip_tag_free x :
  tag_free_from Outside x = true -> tag_free_from Outside (strip x) = true.
Proof.
  intros H. destruct (strip_middle x) as (a & b & Hx & Ha & _).
  rewrite Hx in H.
  change Outside with (space_step Outside) in H.
  rewrite tag_free_spaces in H by assumption.
  now apply tag_free_prefix in H.
Qed.

Lemma text_tag_free h : tag_free_from Outside (text_of_html h) = true.
Proof.
  unfold Processor.text_part, Html.strip_html. simpl.
  apply strip_tag_free. rewrite sub_space_tag_free. apply sub_tag_free.
Qed.

(** X7.  No tag is left in the text [strip_html] returns: the pattern
    [<[^>]+>] matches at no position of it. *)
Theorem strip_html_text_without_tags (h : text) :
  matches_nowhere Html.tag_match (text_of_html h).
Proof. apply (tag_free_nowhere _ Outside), text_tag_free. Qed.

End NormalText.

Section LinksAndIdempotence.
Variable unicode_ci : char -> char -> bool.

Local Notation "'text_of_html'" :=
  (Processor.text_part (Html.strip_html unicode_ci)).

Lemma attr_match_group name s g n :
  Html.attr_match unicode_ci name s = Some (g, n) ->
  g <> [] /\ forallb Html.in_value g = true.
Proof.
  unfold Html.attr_match.
  destruct (Html.prefix_ci unicode_ci (name ++ [61%N]) s) as [s1 |]; [| discriminate].
  set (s2 := match s1 with
             | [] => s1
             | q :: s1' => if Html.is_quote q then s1' else s1
             end).
  destruct (span_spec Html.in_value s2) as (_ & Hall & _).
  destruct (Html.span Html.in_value s2) as [r s3]. simpl in Hall.
  destruct r as [| c r]; [discriminate |].
  intros [= <- _]. split; [discriminate | assumption].
Qed.

Lemma findall_attr_groups name s : forall skip,
  Forall (fun g => g <> [] /\ forallb Html.in_value g = true)
         (Html.findall_from (Html.attr_match unicode_ci name) skip s).
Proof.
  induction s as [| c rest IH]; intros skip; simpl; [constructor |].
  destruct skip as [| k]; [| apply IH].
  destruct (Html.attr_match unicode_ci name (c :: rest)) as [[g n] |] eqn:Hm;
    [| apply IH].
  constructor; [| apply IH]. now apply attr_match_group in Hm.
Qed.

Lemma in_value_excludes l :
  forallb Html.in_value l = true ->
  ~ In 39%N l /\ ~ In 34%N l /\ ~ In 32%N l /\ ~ In 62%N l.
Proof.
  rewrite forallb_forall. intros H.
  repeat split; intros Hin; apply H in Hin; discriminate Hin.
Qed.

(** X8.  Every link and every image source [strip_html] returns is a
    non-empty string without apostrophe, double quote, space or [>]. *)
Theorem strip_html_links_well_formed (h : text) :
  let '(_, links, images) := Html.strip_html unicode_ci h in
  Forall (fun l => l <> [] /\ ~ In 39%N l /\ ~ In 34%N l /\
                   ~ In 32%N l /\ ~ In 62%N l) (links ++ images).
Proof.
  unfold Html.strip_html. apply Forall_app. split.
  - eapply Forall_impl; [| apply findall_attr_groups].
    intros l [Hne Hall]. split; [assumption | now apply in_value_excludes].
  - eapply Forall_impl; [| apply findall_attr_groups].
    intros l [Hne Hall]. split; [assumption | now apply in_value_excludes].
Qed.

(** *** Text without tags *)

Lemma char_ci_letter_not_gt p d :
  between 97 122 p = true -> Html.char_ci unicode_ci p d = true ->
  Html.not_gt d = true.
Proof.
  intros Hp. unfold Html.char_ci, Html.not_gt. rewrite Hp.
  unfold between in Hp. apply andb_true_iff in Hp as [Hlo Hhi].
  apply N.leb_le in Hlo, Hhi.
  destruct (N.ltb_spec d 128) as [Hd | Hd].
  - rewrite orb_true_iff, !N.eqb_eq. intros H.
    apply negb_true_iff, N.eqb_neq. lia.
  - intros _. apply negb_true_iff, N.eqb_neq. lia.
Qed.

Lemma prefix_ci_letters name : forall s s1,
  forallb (between 97 122) name = true ->
  Html.prefix_ci unicode_ci name s = Some s1 ->
  exists ds, s = ds ++ s1 /\ length ds = length name /\
             forallb Html.not_gt ds = true.
Proof.
  induction name as [| p name IH]; intros s s1 Hname; simpl.
  - intros [= ->]. now exists [].
  - simpl in Hname. apply andb_true_iff in Hname as [Hp Hname].
    destruct s as [| d s]; [discriminate |].
    destruct (Html.char_ci unicode_ci p d) eqn:Hd; [| discriminate].
    intros H. destruct (IH s s1 Hname H) as (ds & -> & Hlen & Hall).
    exists (d :: ds). simpl. rewrite Hall, (char_ci_letter_not_gt p d Hp Hd).
    repeat split. now rewrite Hlen.
Qed.

(** Where a [script] or [style] block begins, a tag begins. *)
Lemma block_match_tag name s n :
  name <> [] -> forallb (between 97 122) name = true ->
  Html.block_match unicode_ci name s = Some n ->
  Html.tag_match s <> None.
Proof.
  intros Hne Hname. unfold Html.block_match. simpl.
  destruct s as [| d0 s]; [discriminate |].
  unfold Html.char_ci at 1. simpl.
  destruct (N.eqb_spec d0 60) as [-> | _]; [| discriminate].
  destruct (Html.prefix_ci unicode_ci name s) as [s1 |] eqn:Hpre; [| discriminate].
  destruct (prefix_ci_letters name s s1 Hname Hpre) as (ds & -> & Hlen & Hall).
  destruct (snd (Html.span Html.not_gt s1)) as [| g s3] eqn:Hs2; [discriminate |].
  intros _. unfold Html.tag_match. simpl.
  rewrite (span_app_all _ ds s1 Hall), Hs2.
  destruct ds as [| d ds]; [| discriminate].
  destruct name; [congruence | discriminate].
Qed.

Lemma no_tag_no_block name t :
  name <> [] -> forallb (between 97 122) name = true ->
  matches_nowhere Html.tag_match t ->
  matches_nowhere (Html.block_match unicode_ci name) t.
Proof.
  intros Hne Hname H a b Heq.
  destruct (Html.block_match unicode_ci name b) as [n |] eqn:Hm; [| reflexivity].
  exfalso. apply (block_match_tag name b n Hne Hname Hm). now apply (H a b).
Qed.

Lemma sub_space_id t :
  collapsed t = true -> Html.sub Html.space_match [32%N] t = t.
Proof.
  induction t as [| c rest IH]; [reflexivity |].
  simpl. rewrite andb_true_iff. intros [Hc Hrest].
  rewrite sub_cons, space_match_cons.
  destruct (is_space c) eqn:Hs.
  - simpl in Hc. apply andb_true_iff in Hc as [Hc Hnext].
    apply N.eqb_eq in Hc. subst c.
    assert (Hspan : Html.span is_space rest = ([], rest)).
    { destruct rest as [| d rest']; [reflexivity |]. simpl in *.
      apply negb_true_iff in Hnext. now rewrite Hnext. }
    rewrite Hspan. simpl. now rewrite IH.
  - now rewrite IH.
Qed.

(** A text without tags goes through the first four steps unchanged. *)
Lemma strip_html_no_tag t :
  matches_nowhere Html.tag_match t ->
  text_of_html t = strip (Html.sub Html.space_match [32%N] t).
Proof.
  intros H. unfold Processor.text_part, Html.strip_html. simpl.
  rewrite (sub_no_match _ _ t)
    by (apply no_tag_no_block; [discriminate | reflexivity | assumption]).
  rewrite (sub_no_match _ _ t)
    by (apply no_tag_no_block; [discriminate | reflexivity | assumption]).
  now rewrite (sub_no_match _ _ t H).
Qed.

(** X9.  Normalizing twice is normalizing once: on the text it
    returned, [strip_html] returns that text again. *)
Theorem strip_html_text_idempotent (h : text) :
  text_of_html (text_of_html h) = text_of_html h.
Proof.
  rewrite strip_html_no_tag by apply (tag_free_nowhere _ Outside), text_tag_free.
  rewrite sub_space_id by apply text_collapsed.
  apply strip_id.
  - unfold Processor.text_part, Html.strip_html. simpl. apply strip_head.
  - unfold Processor.text_part, Html.strip_html. simpl. apply strip_last.
Qed.

Lemma no_lt_nowhere h :
  forallb (fun c => negb (c =? 60)%N) h = true ->
  matches_nowhere Html.tag_match h.
Proof.
  intros H a b ->. rewrite forallb_app in H.
  apply andb_true_iff in H as [_ Hb].
  destruct b as [| c b]; [reflexivity |]. simpl in Hb.
  apply andb_true_iff in Hb as [Hc _]. apply negb_true_iff in Hc.
  unfold Html.tag_match. now rewrite Hc.
Qed.

(** X10.  Input without a [<] is taken as plain text: the text
    returned is the input with each run of white space turned into one
    space and the ends trimmed, and it is the input itself when the input
    is already in that form. *)
Theorem strip_html_plain_text (h : text)
  (Hplain : forallb (fun c => negb (c =? 60)%N) h = true) :
  text_of_html h = strip (Html.sub Html.space_match [32%N] h) /\
  (collapsed h = true -> starts_with_space h = false ->
   starts_with_space (rev h) = false -> text_of_html h = h).
Proof.
  pose proof (strip_html_no_tag h (no_lt_nowhere h Hplain)) as Heq.
  split; [exact Heq |].
  intros Hc Hh Hl. rewrite Heq, sub_space_id by assumption.
  now apply strip_id.
Qed.

End LinksAndIdempotence.

Lemma strip_html_plain_text_witness :
  Processor.text_part (Html.strip_html Html.ascii_ci)
    (of_string "  two   words ")
  = strip (Html.sub Html.space_match [32%N] (of_string "  two   words ")).
Proof.
  apply (strip_html_plain_text Html.ascii_ci (of_string "  two   words ")).
  reflexivity.
Defined.

(** ** The statistics of one text *)

Lemma ratio_at_least_one a b : 0 < b -> b <= a -> (1 <= ratio a b)%Q.
Proof.
  intros Hb Hab. unfold ratio.
  apply Qle_shift_div_l.
  - unfold Qlt. simpl. lia.
  - rewrite Qmult_1_l. unfold Qle. simpl. lia.
Qed.

Lemma ratio_at_most a b : 0 < b -> (ratio a b <= inject_Z (Z.of_nat a))%Q.
Proof.
  intros Hb. unfold ratio.
  apply Qle_shift_div_r.
  - unfold Qlt. simpl. lia.
  - unfold Qle. simpl. nia.
Qed.

Section SplitFacts.
Variable delim : char -> bool.

Lemma split_on_nonempty s : split_on delim s <> [].
Proof.
  destruct s as [| c s]; simpl; [discriminate |].
  destruct (delim c); [discriminate |].
  destruct (split_on delim s); discriminate.
Qed.

(** One segment more than there are delimiters. *)
Lemma split_on_length s :
  length (split_on delim s) = S (length (filter delim s)).
Proof.
  induction s as [| c s IH]; simpl; [reflexivity |].
  destruct (delim c); simpl; [now rewrite IH |].
  destruct (split_on delim s) as [| seg segs] eqn:E; [simpl in IH; lia |].
  exact IH.
Qed.

(** The segments hold the characters that are not delimiters. *)
Lemma split_on_concat s :
  concat (split_on delim s) = filter (fun c => negb (delim c)) s.
Proof.
  induction s as [| c s IH]; simpl; [reflexivity |].
  destruct (delim c); simpl; [exact IH |].
  destruct (split_on delim s) as [| seg segs] eqn:E.
  - now apply split_on_nonempty in E.
  - simpl in *. now rewrite IH.
Qed.

Lemma split_on_covers s c :
  In c s -> delim c = false -> exists seg, In seg (split_on delim s) /\ In c seg.
Proof.
  intros Hin Hc.
  assert (H : In c (concat (split_on delim s))).
  { rewrite split_on_concat. apply filter_In. now rewrite Hc. }
  apply in_concat in H as (seg & Hseg & Hcs). now exists seg.
Qed.

End SplitFacts.

Section TextStatistics.
Context {U : UnicodeDB}.

Lemma truthy_strip seg c :
  In c seg -> is_space c = false -> truthy (strip seg) = true.
Proof.
  intros Hin Hc. destruct (strip seg) as [| x r] eqn:E; [| reflexivity].
  apply strip_nil in E. rewrite forallb_forall in E.
  apply E in Hin. congruence.
Qed.

Lemma word_not_space c : is_word c = true -> is_space c = false.
Proof.
  intros Hw. destruct (is_space c) eqn:Hs; [| reflexivity].
  apply space_not_word in Hs. congruence.
Qed.

Lemma word_not_sentence_end c : is_word c = true -> sentence_end c = false.
Proof.
  intros Hw. unfold sentence_end.
  destruct (N.eqb_spec c 46) as [-> | _]; [discriminate Hw |].
  destruct (N.eqb_spec c 33) as [-> | _]; [discriminate Hw |].
  destruct (N.eqb_spec c 63) as [-> | _]; [discriminate Hw | reflexivity].
Qed.

Lemma has_word_char_in s :
  has_word_char s = true -> exists c, In c s /\ is_word c = true.
Proof. unfold has_word_char. apply existsb_exists. Qed.

Lemma words_have_word_char s :
  0 < length (findall_words s) -> has_word_char s = true.
Proof.
  intros H. destruct (has_word_char s) eqn:E; [reflexivity |].
  unfold findall_words in H. rewrite scan_no_word in H; [simpl in H; lia |].
  unfold has_word_char in E. clear H.
  induction s as [| c s IH]; simpl in *; [reflexivity |].
  apply orb_false_iff in E as [Hc Hs]. now rewrite Hc, IH.
Qed.

(** A word sits in a sentence. *)
Lemma sentences_of_words t :
  0 < length (findall_words t) ->
  0 < length (map strip (filter (fun s => truthy (strip s))
                                (split_on sentence_end t))).
Proof.
  intros Hw. apply words_have_word_char, has_word_char_in in Hw.
  destruct Hw as (c & Hin & Hc).
  destruct (split_on_covers sentence_end t c Hin (word_not_sentence_end c Hc))
    as (seg & Hseg & Hcs).
  rewrite length_map.
  assert (Hf : In seg (filter (fun s => truthy (strip s))
                              (split_on sentence_end t))).
  { apply filter_In. split; [assumption |].
    apply (truthy_strip seg c Hcs), word_not_space, Hc. }
  destruct (filter _ _); [contradiction | simpl; lia].
Qed.

(** X11.  [analyze_text] returns on every text, and what it returns
    is bounded by the text: no more words than characters; an average
    word length of 0 for a text without words and otherwise between 1 and
    the length of the text; at most one sentence more than the text has
    [.], [!] and [?]; and at least one sentence as soon as there is a
    word. *)
Theorem analyze_text_bounds (t : text) :
  exists d,
    Processor.analyze_text t = Ok d /\
    Processor.words d <= length t /\
    (Processor.words d = 0 /\ Processor.avg_word_length d = 0%Q \/
     0 < Processor.words d /\
     (1 <= Processor.avg_word_length d <= inject_Z (Z.of_nat (length t)))%Q) /\
    Processor.sentences d <= S (length (filter sentence_end t)) /\
    (0 < Processor.words d -> 0 < Processor.sentences d).
Proof.
  unfold Processor.analyze_text. rewrite guarded_div. simpl.
  eexists. split; [reflexivity |]. simpl.
  pose proof (scan_sum_len t []) as Hsum.
  pose proof (tokens_lengths _ (scan_tokens t [] (pending_none t))) as Hlen.
  fold (findall_words t) in Hsum, Hlen. simpl in Hsum.
  split; [lia |]. split; [| split].
  - unfold guarded_ratio.
    destruct (length (findall_words t)) as [| n] eqn:E; [now left |].
    right. split; [lia |]. simpl. split.
    + apply ratio_at_least_one; lia.
    + apply Qle_trans with (inject_Z (Z.of_nat (sum_len (findall_words t)))).
      * apply ratio_at_most. lia.
      * rewrite <- Zle_Qle. lia.
  - rewrite length_map, <- split_on_length. apply filter_length_le.
  - apply sentences_of_words.
Qed.

End TextStatistics.

Section Paragraphs.
Context {U : UnicodeDB}.

Lemma line_breaks_none s : ~ In 10%N s -> Processor.line_breaks s = (0, s).
Proof.
  destruct s as [| c rest]; [reflexivity |]. intros H. simpl.
  destruct (N.eqb_spec c 10) as [-> | _]; [exfalso; apply H; now left |].
  destruct (c =? 13)%N; [| reflexivity].
  destruct rest as [| d rest]; [reflexivity |].
  destruct (N.eqb_spec d 10) as [-> | _]; [| reflexivity].
  exfalso. apply H. right. now left.
Qed.

Lemma split_paragraphs_single s : forall fuel,
  ~ In 10%N s -> length s < fuel -> Processor.split_paragraphs fuel s = [s].
Proof.
  induction s as [| c rest IH]; intros fuel H Hfuel;
    (destruct fuel as [| fuel]; [simpl in Hfuel; lia |]).
  - reflexivity.
  - cbn [Processor.split_paragraphs]. rewrite (line_breaks_none _ H).
    simpl Nat.leb. cbv iota.
    rewrite IH; [reflexivity | | simpl in Hfuel; lia].
    intros Hin. apply H. now right.
Qed.

Lemma analyze_text_value t :
  Processor.analyze_text t =
  Ok {| Processor.words := length (findall_words t);
        Processor.sentences :=
          length (map strip (filter (fun s => truthy (strip s))
                                    (split_on sentence_end t)));
        Processor.paragraphs :=
          length (map strip
                    (filter (fun p => truthy (strip p))
                            (Processor.split_paragraphs (S (length t)) t)));
        Processor.avg_word_length :=
          guarded_ratio (sum_len (findall_words t)) (length (findall_words t)) |}.
Proof. unfold Processor.analyze_text. now rewrite guarded_div. Qed.

Lemma paragraphs_single t :
  ~ In 10%N t ->
  length (map strip
            (filter (fun p => truthy (strip p))
                    (Processor.split_paragraphs (S (length t)) t)))
  = if forallb is_space t then 0 else 1.
Proof.
  intros Hline.
  rewrite (split_paragraphs_single t (S (length t)) Hline)
    by apply Nat.lt_succ_diag_r.
  simpl. destruct (strip t) as [| c r] eqn:E.
  - apply strip_nil in E. now rewrite E.
  - simpl. destruct (forallb is_space t) eqn:F; [| reflexivity].
    apply strip_nil in F. congruence.
Qed.

(** X12.  A text without a line feed is one paragraph, and none when
    it holds white space only: [analyze_text] gives it a paragraph count
    of 1, or of 0 when it is blank. *)
Theorem paragraphs_without_line_feed (t : text) (Hline : ~ In 10%N t) :
  exists d,
    Processor.analyze_text t = Ok d /\
    Processor.paragraphs d = if forallb is_space t then 0 else 1.
Proof.
  rewrite analyze_text_value.
  eexists. split; [reflexivity |]. cbn [Processor.paragraphs].
  now apply paragraphs_single.
Qed.

End Paragraphs.

Lemma paragraphs_without_line_feed_witness :
  exists d,
    Processor.analyze_text (of_string "One line. Still one.") = Ok d /\
    Processor.paragraphs d = 1.
Proof.
  apply (paragraphs_without_line_feed (of_string "One line. Still one.")).
  simpl. intuition discriminate.
Defined.

(** ** The artifacts and the status of the process stage *)

Lemma of_string_inj a b : of_string a = of_string b -> a = b.
Proof.
  unfold of_string. intros H.
  rewrite <- (String.string_of_list_ascii_of_string a),
          <- (String.string_of_list_ascii_of_string b).
  f_equal.
  revert H. generalize (String.list_ascii_of_string a) as la.
  generalize (String.list_ascii_of_string b) as lb.
  intros lb la. revert lb.
  induction la as [| x la IH]; intros [| y lb]; simpl; try discriminate.
  - reflexivity.
  - intros [= Hxy Hrest]. f_equal; [| now apply IH].
    rewrite <- (ascii_N_embedding x), <- (ascii_N_embedding y). now f_equal.
Qed.

Lemma to_uint_not_nil n : Nat.to_uint n <> Decimal.Nil.
Proof.
  intros H. pose proof (DecimalNat.Unsigned.of_to n) as Hn.
  rewrite H in Hn. simpl in Hn. subst n. discriminate H.
Qed.

(** Two numbers are written with the same digits only when equal. *)
Lemma decimal_inj n n' : Processor.decimal n = Processor.decimal n' -> n = n'.
Proof.
  unfold Processor.decimal. intros H. apply of_string_inj in H.
  apply DecimalNat.Unsigned.to_uint_inj.
  pose proof (DecimalString.NilZero.usu _ (to_uint_not_nil n)) as H1.
  pose proof (DecimalString.NilZero.usu _ (to_uint_not_nil n')) as H2.
  rewrite H in H1. congruence.
Qed.

Lemma artifact_path_inj k k' : artifact_path k = artifact_path k' -> k = k'.
Proof.
  unfold artifact_path. intros H.
  apply app_inv_head, app_inv_tail in H. now apply decimal_inj.
Qed.

Section ArtifactFacts.
Context {U : UnicodeDB}.
Variable strip_html : text -> text * list text * list text.
Variable read_file : text -> Processor.load.
Variable now : nat -> text.

Local Notation "'visit_all'" := (Processor.visit_all strip_html read_file now).
Local Notation "'visit'" := (Processor.visit strip_html read_file now).
Local Notation "'contents'" := (Processor.contents read_file).
Local Notation "'artifacts_of'" := (artifacts_of strip_html now).
Local Notation "'artifact_of'" := (artifact_of strip_html now).
Local Notation "'records_of'" := (records_of read_file).

Lemma artifacts_snoc cs out c p :
  artifacts_of 1 cs out ->
  artifact_of (1 + length cs) c p ->
  artifacts_of 1 (cs ++ [c]) (out ++ [(artifact_path (1 + length cs), p)]).
Proof.
  intros [Hlen Hnth] Hp. split.
  - rewrite !length_app. simpl. lia.
  - intros k c' Hk.
    destruct (Nat.lt_ge_cases k (length cs)) as [Hlt | Hge].
    + rewrite nth_error_app1 in Hk by assumption.
      destruct (Hnth k c' Hk) as (p' & Hp' & Ha).
      exists p'. split; [| assumption].
      rewrite nth_error_app1 by lia. assumption.
    + assert (Hk' : k = length cs).
      { assert (k < length (cs ++ [c])) by (apply nth_error_Some; congruence).
        rewrite length_app in *. simpl in *. lia. }
      subst k. rewrite nth_error_app2, Nat.sub_diag in Hk by lia.
      injection Hk as <-. exists p. split; [| assumption].
      rewrite nth_error_app2 by lia. now rewrite Hlen, Nat.sub_diag.
Qed.

Lemma visit_artifacts st f cs :
  artifacts_of 1 cs (Processor.written st) ->
  Processor.i st = 1 + length cs ->
  exists st',
    visit st f = Ok st' /\
    artifacts_of 1 (cs ++ contents [f]) (Processor.written st') /\
    Processor.i st' = 1 + length (cs ++ contents [f]) /\
    Processor.results st' = Processor.results st ++ records_of f.
Proof.
  intros Hart Hi.
  unfold Processor.visit, Processor.load_one, Processor.contents, records_of.
  simpl.
  destruct (read_file f) as [| | c].
  - eexists. split; [reflexivity |]. simpl. rewrite app_nil_r. auto.
  - eexists. split; [reflexivity |]. simpl.
    rewrite app_nil_r, <- app_assoc. auto.
  - unfold Processor.body.
    cbn [Processor.results Processor.i Processor.written].
    destruct (strip_html c) as [[t ls] ims] eqn:Hs.
    rewrite analyze_text_value. cbn [bind].
    eexists. split; [reflexivity |].
    cbn [Processor.results Processor.i Processor.written Processor.words
         Processor.sentences Processor.paragraphs Processor.avg_word_length].
    change (cs ++ [c] ++ []) with (cs ++ [c]).
    split; [| split; [rewrite length_app; simpl; lia | reflexivity]].
    rewrite Hi. apply artifacts_snoc; [assumption |].
    split; [reflexivity |]. split; [now rewrite Hs |].
    split; [reflexivity |]. cbn [Processor.text_of Processor.stats
      Processor.word_count Processor.sentence_count Processor.paragraph_count
      Processor.stat_avg_word_length].
    apply analyze_text_value.
Qed.

Lemma visit_all_artifacts files : forall st cs,
  artifacts_of 1 cs (Processor.written st) ->
  Processor.i st = 1 + length cs ->
  exists st',
    visit_all st files = Ok st' /\
    artifacts_of 1 (cs ++ contents files) (Processor.written st') /\
    Processor.i st' = 1 + length (cs ++ contents files) /\
    Processor.results st' = Processor.results st ++ flat_map records_of files.
Proof.
  induction files as [| f files IH]; intros st cs Hart Hi.
  - exists st. simpl. rewrite !app_nil_r. auto.
  - destruct (visit_artifacts st f cs Hart Hi) as (st1 & Hv & Ha1 & Hi1 & Hr1).
    destruct (IH st1 _ Ha1 Hi1) as (st2 & Hv2 & Ha2 & Hi2 & Hr2).
    exists st2. split; [simpl; rewrite Hv; exact Hv2 |].
    rewrite (contents_cons read_file f files), app_assoc.
    split; [assumption |]. split; [assumption |].
    rewrite Hr2, Hr1. simpl. now rewrite app_assoc.
Qed.

(** What [main] returns, on every raw directory. *)
Lemma main_artifacts glob_html :
  exists out status,
    Processor.main strip_html read_file now glob_html = Ok (out, status) /\
    artifacts_of 1 (contents (Processor.sorted glob_html)) out /\
    Processor.HTML_files status = length out /\
    Processor.status_results status =
      flat_map records_of (Processor.sorted glob_html) /\
    Processor.successful status =
      Processor.count_status Processor.success (Processor.status_results status) /\
    Processor.failed_count status =
      Processor.count_status Processor.failed (Processor.status_results status).
Proof.
  destruct (visit_all_artifacts (Processor.sorted glob_html) Processor.initial [])
    as (st & Hv & Ha & Hi & Hr).
  - split; [reflexivity |]. intros k c Hk. now destruct k.
  - reflexivity.
  - unfold Processor.main. rewrite Hv. simpl in *.
    eexists. eexists. split; [reflexivity |]. simpl.
    split; [assumption |]. destruct Ha as [Hlen _].
    split; [rewrite Hi, Hlen; lia |]. rewrite Hr. auto.
Qed.

End ArtifactFacts.

Lemma map_injective_nodup {A B : Type} (f : A -> B) (l : list A) :
  (forall x y, f x = f y -> x = y) -> NoDup l -> NoDup (map f l).
Proof.
  intros Hinj. induction 1 as [| x l Hx Hl IH]; simpl; constructor; [| assumption].
  intros Hin. apply in_map_iff in Hin as (y & Hy & Hyl).
  apply Hinj in Hy. now subst y.
Qed.

Section ProcessStageFurther.
Context {U : UnicodeDB}.
Variable strip_html : text -> text * list text * list text.
Variable read_file : text -> Processor.load.
Variable now : nat -> text.

Local Notation "'main'" := (Processor.main strip_html read_file now).
Local Notation "'contents'" := (Processor.contents read_file).

Lemma artifacts_paths first cs out :
  artifacts_of strip_html now first cs out ->
  map fst out = map artifact_path (seq first (length out)).
Proof.
  intros [Hlen Hnth]. apply nth_error_ext. intros k.
  destruct (Nat.lt_ge_cases k (length out)) as [Hlt | Hge].
  - destruct (nth_error cs k) as [c |] eqn:Hc;
      [| apply nth_error_None in Hc; lia].
    destruct (Hnth k c Hc) as (p & Hp & _).
    rewrite !nth_error_map, Hp. simpl.
    rewrite (nth_error_nth' _ 0) by (rewrite length_seq; exact Hlt).
    now rewrite seq_nth.
  - rewrite (proj2 (nth_error_None _ _)) by (now rewrite length_map).
    symmetry. apply nth_error_None. now rewrite length_map, length_seq.
Qed.

Lemma artifacts_in first cs out a :
  artifacts_of strip_html now first cs out -> In a out ->
  exists k c, nth_error cs k = Some c /\
              artifact_of strip_html now (first + k) c (snd a).
Proof.
  intros [Hlen Hnth] Hin. apply In_nth_error in Hin as [k Hk].
  assert (Hlt : k < length out) by (apply nth_error_Some; congruence).
  destruct (nth_error cs k) as [c |] eqn:Hc;
    [| apply nth_error_None in Hc; lia].
  destruct (Hnth k c Hc) as (p & Hp & Ha).
  exists k, c. split; [exact Hc |].
  rewrite Hk in Hp. injection Hp as ->. exact Ha.
Qed.

(** X13.  The artifacts are numbered by ordinal among the documents
    that load, not by position in the directory: for the [n] documents
    that load, in the order of enumeration, [main] writes
    [page_1.json], ..., [page_n.json], gapless whatever fails in between
    and no path twice; the [k]-th holds the label [page_k.html], the text,
    links and images the normalizer makes of the [k]-th loaded content and
    the statistics [analyze_text] returns on that text; and [n] is the
    count stored under [HTML files]. *)
Theorem artifacts_numbered_by_success (glob_html : list text) :
  exists out status,
    main glob_html = Ok (out, status) /\
    artifacts_of strip_html now 1 (contents (Processor.sorted glob_html)) out /\
    map fst out = map artifact_path (seq 1 (length out)) /\
    NoDup (map fst out) /\
    Processor.HTML_files status = length out.
Proof.
  destruct (main_artifacts strip_html read_file now glob_html)
    as (out & status & Hmain & Hart & Hn & _).
  exists out, status. split; [assumption |]. split; [assumption |].
  pose proof (artifacts_paths _ _ _ Hart) as Hpaths.
  split; [assumption |]. split; [| assumption].
  rewrite Hpaths. apply map_injective_nodup; [apply artifact_path_inj |].
  apply seq_NoDup.
Qed.

Lemma count_status_app s a b :
  Processor.count_status s (a ++ b)
  = Processor.count_status s a + Processor.count_status s b.
Proof. unfold Processor.count_status. now rewrite filter_app, length_app. Qed.

Lemma records_counts files :
  let rs := flat_map (records_of read_file) files in
  length rs = length files + length (filter (read_fails read_file) files) /\
  Processor.count_status Processor.success rs
    = length (filter (opens read_file) files) /\
  Processor.count_status Processor.failed rs
    = length (filter (fun f => negb (loads read_file f)) files) /\
  length (contents files) = length (filter (loads read_file) files).
Proof.
  cbv zeta. induction files as [| f files (IH1 & IH2 & IH3 & IH4)];
    [repeat split |].
  cbn [flat_map]. rewrite length_app, !count_status_app, IH1, IH2, IH3.
  rewrite (contents_cons read_file f files), length_app, IH4.
  unfold records_of, read_fails, opens, loads, Processor.contents.
  cbn [filter flat_map]. destruct (read_file f); simpl; repeat split; lia.
Qed.

(** X14.  Whatever happens at loading, the status adds up as follows
    over the documents enumerated: [results] holds one record for each,
    plus one for each that opened and then failed at [read]; [successful]
    counts the documents that opened, [failed] those that did not load,
    and both together the records; the count under [HTML files] is the
    number of documents that loaded, never above [successful]. *)
Theorem status_counts (glob_html : list text) :
  exists out status,
    main glob_html = Ok (out, status) /\
    let files := Processor.sorted glob_html in
    length (Processor.status_results status)
      = length files + length (filter (read_fails read_file) files) /\
    Processor.successful status = length (filter (opens read_file) files) /\
    Processor.failed_count status
      = length (filter (fun f => negb (loads read_file f)) files) /\
    Processor.HTML_files status = length (filter (loads read_file) files) /\
    Processor.successful status + Processor.failed_count status
      = length (Processor.status_results status) /\
    Processor.HTML_files status <= Processor.successful status /\
    Processor.successful status <= length glob_html.
Proof.
  destruct (main_artifacts strip_html read_file now glob_html)
    as (out & status & Hmain & [Hlen _] & Hn & Hres & Hs & Hf).
  exists out, status. split; [assumption |]. cbv zeta.
  destruct (records_counts (Processor.sorted glob_html)) as (H1 & H2 & H3 & H4).
  rewrite Hs, Hf, Hn, Hlen, Hres, H1, H2, H3, H4.
  pose proof (Permutation_length (sorted_perm glob_html)) as Hperm.
  pose proof (filter_length_le (opens read_file) (Processor.sorted glob_html)).
  assert (Hsplit : forall l,
    length (filter (opens read_file) l)
    = length (filter (loads read_file) l)
      + length (filter (read_fails read_file) l) /\
    length (filter (fun f => negb (loads read_file f)) l)
      + length (filter (loads read_file) l) = length l).
  { induction l as [| f l [IHa IHb]]; [split; reflexivity |].
    unfold opens, loads, read_fails in *. simpl.
    destruct (read_file f); simpl; lia. }
  destruct (Hsplit (Processor.sorted glob_html)) as [Ha Hb].
  repeat split; lia.
Qed.

End ProcessStageFurther.

(** ** The outcome records *)

Section OutcomeRecords.
Context {U : UnicodeDB}.
Variable strip_html : text -> text * list text * list text.
Variable read_file : text -> Processor.load.
Variable now : nat -> text.

Local Notation "'main'" := (Processor.main strip_html read_file now).
Local Notation "'contents'" := (Processor.contents read_file).
Local Notation "'record_of'" := (Processor.record_of read_file).
Local Notation "'text_part'" := (Processor.text_part strip_html).
Local Notation "'texts'" :=
  (map (fun a : text * Processor.processed_file => Processor.text_of (snd a))).

(** A document that does not fail at [read] leaves one record. *)
Lemma records_of_single f :
  read_file f <> Processor.ReadFails ->
  records_of read_file f = [record_of f].
Proof.
  unfold records_of, Processor.record_of.
  destruct (read_file f); [reflexivity | congruence | reflexivity].
Qed.

Lemma records_single files :
  Forall (fun f => read_file f <> Processor.ReadFails) files ->
  flat_map (records_of read_file) files = map record_of files.
Proof.
  induction 1 as [| f files Hf _ IH]; [reflexivity |].
  cbn [flat_map map]. now rewrite IH, (records_of_single f Hf).
Qed.

Lemma count_status_total rs :
  Processor.count_status Processor.success rs
  + Processor.count_status Processor.failed rs = length rs.
Proof.
  unfold Processor.count_status.
  induction rs as [| r rs IH]; [reflexivity |].
  cbn [filter]. destruct (Processor.outcome_status r); simpl in *; lia.
Qed.

(** The artifacts carry the texts of the contents they were made of. *)
Lemma artifacts_texts first cs out :
  artifacts_of strip_html now first cs out -> texts out = map text_part cs.
Proof.
  intros [Hlen Hnth]. apply nth_error_ext. intros k.
  rewrite !nth_error_map.
  destruct (nth_error cs k) as [c |] eqn:Hc.
  - destruct (Hnth k c Hc) as (p & Hp & _ & Hs & _).
    rewrite Hp. cbn [option_map snd]. f_equal.
    unfold Processor.text_part. now rewrite <- Hs.
  - apply nth_error_None in Hc.
    rewrite (proj2 (nth_error_None out k)) by lia. reflexivity.
Qed.

Lemma contents_app a b : contents (a ++ b) = contents a ++ contents b.
Proof. unfold Processor.contents. apply flat_map_app. Qed.

(** C4, as the code has it.  The process stage returns on every raw
    directory, whatever fails at loading.  A document that cannot be
    opened leaves, at its place in the order of enumeration (the listed
    paths, sorted), exactly one record, [failed], and no artifact; one
    that loads leaves exactly one record, [success], and one artifact;
    and this holds next to any other document.  The status dumped has the
    keys [timestamp], [HTML files], [successful], [failed], [results], and
    each record the keys [HTML file] and [status]; [successful] and
    [failed] count the records of each status, and the number under
    [HTML files] is the number of artifacts, that is of documents that
    load.  When no document fails at [read] after a successful [open],
    the records are one for each document and [successful] and [failed]
    add up to the number of documents. *)
Theorem outcome_records (glob_html : list text) :
  exists out status,
    main glob_html = Ok (out, status) /\
    Permutation (Processor.sorted glob_html) glob_html /\
    (forall before f after,
       Processor.sorted glob_html = before ++ f :: after ->
       read_file f <> Processor.ReadFails ->
       Processor.status_results status =
         flat_map (records_of read_file) before
         ++ record_of f :: flat_map (records_of read_file) after /\
       texts out =
         map text_part (contents before)
         ++ match read_file f with
            | Processor.Loaded c => [text_part c]
            | Processor.OpenFails | Processor.ReadFails => []
            end
         ++ map text_part (contents after)) /\
    length out = length (filter (loads read_file) (Processor.sorted glob_html)) /\
    Processor.status_dict status =
      [("timestamp"%string, Processor.Str (Processor.timestamp status));
       ("HTML files"%string, Processor.Num (length out));
       ("successful"%string,
        Processor.Num
          (Processor.count_status Processor.success
             (Processor.status_results status)));
       ("failed"%string,
        Processor.Num
          (Processor.count_status Processor.failed
             (Processor.status_results status)));
       ("results"%string,
        Processor.Dicts
          (map (fun r =>
                  [("HTML file"%string, Processor.HTML_file r);
                   ("status"%string,
                    match Processor.outcome_status r with
                    | Processor.success => of_string "success"
                    | Processor.failed => of_string "failed"
                    end)])
               (Processor.status_results status)))] /\
    (Forall (fun f => read_file f <> Processor.ReadFails) glob_html ->
     Processor.status_results status
       = map record_of (Processor.sorted glob_html) /\
     Processor.successful status + Processor.failed_count status
       = length glob_html /\
     Processor.successful status = length out).
Proof.
  destruct (main_artifacts strip_html read_file now glob_html)
    as (out & status & Hmain & Hart & Hn & Hres & Hs & Hf).
  destruct (records_counts read_file (Processor.sorted glob_html))
    as (_ & Hopens & _ & Hloads).
  pose proof (artifacts_texts _ _ _ Hart) as Htexts.
  exists out, status.
  split; [exact Hmain |].
  split; [apply sorted_perm |].
  split; [| split; [| split]].
  - intros before f after Hsplit Hread. rewrite Hres, Htexts, Hsplit. split.
    + rewrite flat_map_app. cbn [flat_map].
      now rewrite (records_of_single f Hread).
    + rewrite contents_app, map_app. f_equal.
      change (f :: after) with ([f] ++ after).
      rewrite contents_app, map_app. f_equal.
      unfold Processor.contents. cbn [flat_map].
      now destruct (read_file f).
  - destruct Hart as [Hlen _]. now rewrite Hlen.
  - unfold Processor.status_dict. now rewrite Hn, Hs, Hf.
  - intros Hall.
    assert (Hsorted : Forall (fun f => read_file f <> Processor.ReadFails)
                             (Processor.sorted glob_html)).
    { rewrite Forall_forall in *. intros f Hin. apply Hall.
      now apply (Permutation_in f (sorted_perm glob_html)). }
    split; [rewrite Hres; now apply records_single |].
    split.
    + rewrite Hs, Hf, count_status_total, Hres, (records_single _ Hsorted).
      rewrite length_map. apply (Permutation_length (sorted_perm glob_html)).
    + rewrite Hs, Hres, Hopens. destruct Hart as [Hlen _].
      rewrite Hlen, Hloads. clear - Hsorted.
      induction Hsorted as [| f files Hf0 _ IH]; [reflexivity |].
      unfold opens, loads in *. cbn [filter].
      destruct (read_file f); simpl; congruence.
Qed.

End OutcomeRecords.

Lemma outcome_records_witness :
  exists out status,
    Processor.main Processor.keep_text Processor.sample_dir Processor.no_stamp
      [of_string "/shared/raw/b.html"; of_string "/shared/raw/a.html"]
    = Ok (out, status) /\
    Processor.status_results status =
      map (Processor.record_of Processor.sample_dir)
          (Processor.sorted
             [of_string "/shared/raw/b.html"; of_string "/shared/raw/a.html"]) /\
    Processor.successful status + Processor.failed_count status = 2 /\
    Processor.successful status = length out.
Proof.
  destruct (outcome_records Processor.keep_text Processor.sample_dir
              Processor.no_stamp
              [of_string "/shared/raw/b.html"; of_string "/shared/raw/a.html"])
    as (out & status & Hmain & _ & _ & _ & _ & Hall).
  destruct Hall as (Hres & Hsum & Hlen).
  - repeat constructor; discriminate.
  - exists out, status. repeat split; assumption.
Defined.

(** ** The order of enumeration *)

Lemma text_ltb_asym a : forall b,
  Processor.text_ltb a b = true -> Processor.text_ltb b a = false.
Proof.
  induction a as [| x a IH]; intros [| y b]; simpl; try reflexivity; try discriminate.
  destruct (N.ltb_spec x y), (N.ltb_spec y x); try reflexivity; try discriminate;
    try lia.
  apply IH.
Qed.

Lemma text_le_trans a : forall b c,
  text_le a b -> text_le b c -> text_le a c.
Proof.
  unfold text_le.
  induction a as [| x a IH]; intros [| y b] [| z c]; simpl;
    try reflexivity; try discriminate.
  destruct (N.ltb_spec y x), (N.ltb_spec x y), (N.ltb_spec z y),
    (N.ltb_spec y z), (N.ltb_spec z x), (N.ltb_spec x z);
    try reflexivity; try discriminate; try lia.
  apply IH.
Qed.

Lemma text_le_total a b : text_le a b \/ text_le b a.
Proof.
  unfold text_le. destruct (Processor.text_ltb b a) eqn:E; [| now left].
  right. now apply text_ltb_asym.
Qed.

Lemma text_le_antisym a : forall b, text_le a b -> text_le b a -> a = b.
Proof.
  unfold text_le.
  induction a as [| x a IH]; intros [| y b]; simpl;
    try reflexivity; try discriminate.
  destruct (N.ltb_spec y x), (N.ltb_spec x y); try discriminate; try lia.
  intros H1 H2. f_equal; [lia | now apply IH].
Qed.

Lemma insert_asc_sorted x l :
  Sorted text_le l -> Sorted text_le (Processor.insert_asc x l).
Proof.
  induction 1 as [| h t Ht IH Hhd]; simpl; [repeat constructor |].
  destruct (Processor.text_ltb h x) eqn:E.
  - constructor; [assumption |].
    destruct t as [| h' t]; simpl.
    + constructor. now apply text_ltb_asym.
    + destruct (Processor.text_ltb h' x).
      * constructor. now inversion Hhd.
      * constructor. now apply text_ltb_asym.
  - constructor; [now constructor |]. constructor. exact E.
Qed.

(** X15.  The documents are visited in ascending order of their paths
    ([<=] on strings is a total order: reflexive by totality,
    antisymmetric and transitive), and the enumeration holds each listed
    path as many times as the listing does. *)
Theorem enumeration_sorted (glob_html : list text) :
  StronglySorted text_le (Processor.sorted glob_html) /\
  Permutation (Processor.sorted glob_html) glob_html /\
  (forall a b, text_le a b \/ text_le b a) /\
  (forall a b, text_le a b -> text_le b a -> a = b).
Proof.
  split; [| split; [apply sorted_perm | split; [apply text_le_total |]]].
  - apply Sorted_StronglySorted.
    + intros a b c. apply text_le_trans.
    + induction glob_html as [| x l IH]; simpl; [constructor |].
      now apply insert_asc_sorted.
  - intros a b. apply text_le_antisym.
Qed.

(** ** The process stage with its normalizer *)

Section NormalizedArtifacts.
Context {U : UnicodeDB}.
Variable unicode_ci : char -> char -> bool.
Variable read_file : text -> Processor.load.
Variable now : nat -> text.

Lemma collapsed_no_line_feed t : collapsed t = true -> ~ In 10%N t.
Proof.
  intros Hc Hin. apply collapsed_spaces in Hc.
  rewrite Forall_forall in Hc. specialize (Hc _ Hin eq_refl). discriminate.
Qed.

Lemma blank_normal t :
  starts_with_space t = false -> forallb is_space t = true -> t = [].
Proof.
  destruct t as [| c t]; [reflexivity |]. simpl. intros ->. discriminate.
Qed.

(** X16.  With [strip_html] as its normalizer the process stage
    returns on every raw directory, and every artifact it writes has a
    text in normal form (single spaces as only white space, none at the
    ends) with no tag left, a paragraph count of 1, or 0 when the text is
    empty, since no line break survives the normalizer, and at least one
    sentence as soon as it has a word. *)
Theorem artifacts_normalized (glob_html : list text) :
  exists out status,
    Processor.main (Html.strip_html unicode_ci) read_file now glob_html
      = Ok (out, status) /\
    Forall (fun a =>
              let p := snd a in
              collapsed (Processor.text_of p) = true /\
              starts_with_space (Processor.text_of p) = false /\
              starts_with_space (rev (Processor.text_of p)) = false /\
              matches_nowhere Html.tag_match (Processor.text_of p) /\
              Processor.paragraph_count (Processor.stats p)
                = match Processor.text_of p with [] => 0 | _ :: _ => 1 end /\
              (0 < Processor.word_count (Processor.stats p) ->
               0 < Processor.sentence_count (Processor.stats p)))
           out.
Proof.
  destruct (main_artifacts (Html.strip_html unicode_ci) read_file now glob_html)
    as (out & status & Hmain & Hart & _).
  exists out, status. split; [assumption |].
  apply Forall_forall. intros a Hin. cbv zeta.
  destruct (artifacts_in _ _ _ _ _ _ Hart Hin) as (k & c & _ & Ha).
  destruct Ha as (_ & Hstrip & _ & Hstats).
  assert (Ht : Processor.text_of (snd a)
               = Processor.text_part (Html.strip_html unicode_ci) c).
  { unfold Processor.text_part. now rewrite <- Hstrip. }
  rewrite analyze_text_value in Hstats.
  pose proof (f_equal (fun r => match r with
                                | Ok d => Processor.words d
                                | Raise _ => 0
                                end) Hstats) as Hw.
  pose proof (f_equal (fun r => match r with
                                | Ok d => Processor.sentences d
                                | Raise _ => 0
                                end) Hstats) as Hs.
  pose proof (f_equal (fun r => match r with
                                | Ok d => Processor.paragraphs d
                                | Raise _ => 0
                                end) Hstats) as Hp.
  cbn [Processor.words Processor.sentences Processor.paragraphs] in Hw, Hs, Hp.
  clear Hstats. rewrite Ht in *.
  pose proof (text_collapsed unicode_ci c) as Hc.
  destruct (strip_html_text_normal_ends unicode_ci c) as [Hhead Hlast].
  split; [assumption |]. split; [assumption |]. split; [assumption |].
  split; [apply (tag_free_nowhere _ Outside), text_tag_free |].
  split.
  - rewrite <- Hp, paragraphs_single by now apply collapsed_no_line_feed.
    destruct (forallb is_space _) eqn:F.
    + now rewrite (blank_normal _ Hhead F).
    + destruct (Processor.text_part _ c); [discriminate | reflexivity].
  - rewrite <- Hw, <- Hs. apply sentences_of_words.
Qed.

End NormalizedArtifacts.

(** ** The corpus report, further *)

Lemma page_inj i j : Analyzer.page i = Analyzer.page j -> i = j.
Proof.
  unfold Analyzer.page. intros H.
  apply app_inv_head, app_inv_tail in H. now apply decimal_inj.
Qed.

Lemma index_pairs_in n i j :
  In (i, j) (Analyzer.index_pairs n) <-> i < j /\ j < n.
Proof.
  unfold Analyzer.index_pairs. rewrite in_flat_map. split.
  - intros (x & Hx & Hin). apply in_map_iff in Hin as (y & [= <- <-] & Hy).
    apply in_seq in Hx, Hy. lia.
  - intros [Hij Hj]. exists i. split; [apply in_seq; lia |].
    apply in_map_iff. exists j. split; [reflexivity | apply in_seq; lia].
Qed.

Lemma index_pairs_nodup n : NoDup (Analyzer.index_pairs n).
Proof.
  unfold Analyzer.index_pairs.
  assert (H : forall m a,
    NoDup (flat_map (fun i => map (pair i) (seq (i + 1) (n - (i + 1))))
                    (seq a m))).
  { induction m as [| m IH]; intros a; simpl; [constructor |].
    apply NoDup_app.
    - apply map_injective_nodup; [now intros x y [= ->] | apply seq_NoDup].
    - apply IH.
    - intros [x y] Hin Hin'. apply in_map_iff in Hin as (z & [= <- <-] & _).
      apply in_flat_map in Hin' as (x' & Hx' & Hin').
      apply in_map_iff in Hin' as (z' & [= -> _] & _).
      apply in_seq in Hx'. lia. }
  apply H.
Qed.

Section ReportFurther.
Context {U : UnicodeDB}.

Lemma unique_le_total (ws : list text) :
  length (Analyzer.set text_eq_dec ws) <= length ws.
Proof.
  apply NoDup_incl_length; [apply NoDup_nodup |].
  intros x Hx. now apply nodup_In in Hx.
Qed.

Lemma lower_keys_le_unique (ws : list text) :
  length (Counter.first_seen text_eq_dec (map str_lower ws))
  <= length (Analyzer.set text_eq_dec ws).
Proof.
  rewrite <- (length_map str_lower (Analyzer.set text_eq_dec ws)).
  apply NoDup_incl_length.
  - rewrite <- count_keys. apply count_keys_nodup.
  - intros x Hx. apply first_seen_in, in_map_iff in Hx as (w & <- & Hw).
    apply in_map. now apply nodup_In.
Qed.

(** X17.  The analyze stage returns on every list of processed files
    (no division by zero, no index out of range).  Joining the texts with
    a space keeps the documents apart, so [total_words] is the sum of the
    documents' own token counts; [unique_words] is at most [total_words],
    and the word-frequency table, which folds case, has at most
    [unique_words] entries. *)
Theorem analyze_stage_totals stamp files :
  exists r,
    Analyzer.main stamp files = Ok r /\
    Analyzer.documents_processed r = length files /\
    Analyzer.total_words r =
      list_sum (map (fun f => length (findall_words (Analyzer.text_of f))) files) /\
    Analyzer.unique_words r <= Analyzer.total_words r /\
    length (Analyzer.top_100_words r) <= Analyzer.unique_words r.
Proof.
  exists (Analyzer.report stamp files). split; [apply main_returns |].
  unfold Analyzer.report. cbn [Analyzer.documents_processed Analyzer.total_words
    Analyzer.unique_words Analyzer.top_100_words].
  split; [reflexivity |]. split; [| split].
  - rewrite corpus_words_concat, length_concat, map_map. reflexivity.
  - apply unique_le_total.
  - rewrite length_map.
    etransitivity; [apply most_common_length |].
    rewrite count_length. apply lower_keys_le_unique.
Qed.

(** X18.  The similarity table holds one record for each pair of
    positions [i < j] among the loaded files and nothing else:
    [n (n - 1) / 2] records for [n] files, no pair of labels twice; the
    record of [i], [j] is labelled [page_i.json], [page_j.json] (positions
    counted from 0 in load order) and carries what [jaccard_similarity]
    returns on the two texts, a value between 0 and 1. *)
Theorem similarity_table_pairs stamp files :
  exists r,
    Analyzer.main stamp files = Ok r /\
    2 * length (Analyzer.document_similarity r)
      = length files * (length files - 1) /\
    NoDup (map (fun e => (Analyzer.doc1 e, Analyzer.doc2 e))
               (Analyzer.document_similarity r)) /\
    (forall i j, i < j -> j < length files ->
       exists e, In e (Analyzer.document_similarity r) /\
                 Analyzer.doc1 e = Analyzer.page i /\
                 Analyzer.doc2 e = Analyzer.page j) /\
    Forall (fun e =>
              exists i j, i < j /\ j < length files /\
                Analyzer.doc1 e = Analyzer.page i /\
                Analyzer.doc2 e = Analyzer.page j /\
                Analyzer.jaccard_similarity char_eq_dec
                  (Analyzer.text_at files i) (Analyzer.text_at files j)
                  = Ok (Analyzer.similarity e) /\
                (0 <= Analyzer.similarity e <= 1)%Q)
           (Analyzer.document_similarity r).
Proof.
  exists (Analyzer.report stamp files). split; [apply main_returns |].
  unfold Analyzer.report. cbn [Analyzer.document_similarity].
  split; [rewrite length_map; apply index_pairs_length |].
  split; [| split].
  - rewrite map_map. apply map_injective_nodup; [| apply index_pairs_nodup].
    intros [i j] [i' j'] H.
    pose proof (f_equal fst H) as Hi. pose proof (f_equal snd H) as Hj.
    cbn [fst snd Analyzer.similarity_entry_of Analyzer.doc1 Analyzer.doc2] in Hi, Hj.
    apply page_inj in Hi, Hj. congruence.
  - intros i j Hij Hj. exists (Analyzer.similarity_entry_of files (i, j)).
    split; [| split; reflexivity].
    apply in_map. now apply index_pairs_in.
  - apply Forall_forall. intros e He.
    apply in_map_iff in He as ([i j] & <- & Hin).
    apply index_pairs_in in Hin as [Hij Hj].
    exists i, j. simpl. repeat split; try assumption.
    + apply jaccard_returns.
    + apply jaccard_range.
    + apply jaccard_range.
Qed.

Lemma combine_tl_adjacent (ws : list text) a b :
  In (a, b) (combine ws (tl ws)) -> exists l1 l2, ws = l1 ++ a :: b :: l2.
Proof.
  induction ws as [| x ws IH]; simpl; [contradiction |].
  destruct ws as [| y ws]; simpl; [contradiction |].
  intros [[= <- <-] | Hin].
  - now exists [], ws.
  - destruct (IH Hin) as (l1 & l2 & Heq). exists (x :: l1), l2.
    simpl. now rewrite Heq.
Qed.

Lemma combine_tl_length (ws : list text) :
  length (combine ws (tl ws)) = length ws - 1.
Proof.
  rewrite length_combine. destruct ws; cbn [tl length]; lia.
Qed.

Lemma total_app {K : Type} (a b : list (K * nat)) :
  Counter.total (a ++ b) = Counter.total a + Counter.total b.
Proof. induction a as [| e a IH]; simpl; lia. Qed.

Lemma total_perm {K : Type} (a b : list (K * nat)) :
  Permutation a b -> Counter.total a = Counter.total b.
Proof. induction 1; simpl; lia. Qed.

Lemma most_common_total {K : Type} n (c : list (K * nat)) :
  Counter.total (Counter.most_common n c) <= Counter.total c.
Proof.
  rewrite <- (total_perm _ _ (sorted_desc_perm c)).
  unfold Counter.most_common.
  rewrite <- (firstn_skipn n (Counter.sorted_desc c)) at 2.
  rewrite total_app. lia.
Qed.

Lemma bigram_counts_total (t : list Analyzer.bigram_entry) :
  list_sum (map Analyzer.bigram_count t) = Counter.total (Analyzer.bigram_items t).
Proof. induction t as [| e t IH]; simpl; congruence. Qed.

(** X19.  Every entry of the bigram table is a pair of tokens that are
    adjacent somewhere in the corpus token sequence; the counts of the
    table add up to at most [total_words - 1], the number of adjacent
    pairs, and to exactly that when the table is not full; a corpus of
    fewer than two words has an empty table. *)
Theorem bigram_table_counts stamp files :
  exists r,
    Analyzer.main stamp files = Ok r /\
    Forall (fun e => exists l1 l2,
              Analyzer.corpus_words files
              = l1 ++ fst (Analyzer.bigram e) :: snd (Analyzer.bigram e) :: l2)
           (Analyzer.top_bigrams r) /\
    list_sum (map Analyzer.bigram_count (Analyzer.top_bigrams r))
      <= Analyzer.total_words r - 1 /\
    (length (Analyzer.top_bigrams r) < 100 ->
     list_sum (map Analyzer.bigram_count (Analyzer.top_bigrams r))
       = Analyzer.total_words r - 1) /\
    (Analyzer.total_words r < 2 -> Analyzer.top_bigrams r = []).
Proof.
  exists (Analyzer.report stamp files). split; [apply main_returns |].
  unfold Analyzer.report. cbn [Analyzer.top_bigrams Analyzer.total_words].
  set (ws := Analyzer.corpus_words files).
  set (c := Counter.count Analyzer.bigram_eq_dec (combine ws (tl ws))).
  assert (Htotal : Counter.total c = length ws - 1).
  { unfold c. now rewrite count_total, combine_tl_length. }
  split; [| split; [| split]].
  - apply Forall_forall. intros e He.
    unfold Analyzer.bigram_table in He.
    apply in_map_iff in He as ([[a b] n] & <- & Hin). simpl.
    apply most_common_in, count_item in Hin as [Hn Hpos].
    apply combine_tl_adjacent. apply (count_occ_In Analyzer.bigram_eq_dec).
    lia.
  - rewrite bigram_counts_total, bigram_items_table. fold c.
    rewrite <- Htotal. apply most_common_total.
  - intros Hlen. rewrite bigram_counts_total, bigram_items_table. fold c.
    rewrite <- Htotal. apply total_perm.
    unfold Analyzer.bigram_table in Hlen. rewrite length_map in Hlen. fold c in Hlen.
    unfold Counter.most_common in *. rewrite length_firstn in Hlen.
    rewrite firstn_all2 by lia. apply sorted_desc_perm.
  - intros Hlt. unfold Analyzer.bigram_table.
    assert (Hnil : combine ws (tl ws) = []).
    { destruct ws as [| x [| y ws']]; simpl in *; try reflexivity; lia. }
    now rewrite Hnil.
Qed.

(** X20.  On a corpus with at least one word the sentence count is
    not zero, so the zero default of the words-per-sentence ratio is taken
    on corpora without words only: the ratio the report stores under
    [avg_word_length] is then positive, and the one it stores under
    [avg_sentence_length], the average token length, is at least 1. *)
Theorem readability_of_words stamp files :
  exists r,
    Analyzer.main stamp files = Ok r /\
    (0 < Analyzer.total_words r ->
     0 < length (Analyzer.nonblank_sentences (Analyzer.corpus_text files)) /\
     (0 < Analyzer.avg_word_length (Analyzer.readability r))%Q /\
     (1 <= Analyzer.avg_sentence_length (Analyzer.readability r))%Q) /\
    (Analyzer.total_words r = 0 ->
     (Analyzer.avg_word_length (Analyzer.readability r) == 0)%Q /\
     (Analyzer.avg_sentence_length (Analyzer.readability r) == 0)%Q).
Proof.
  exists (Analyzer.report stamp files). split; [apply main_returns |].
  unfold Analyzer.report.
  cbn [Analyzer.total_words Analyzer.readability Analyzer.avg_word_length
       Analyzer.avg_sentence_length].
  split.
  - intros Hw.
    pose proof (sentences_of_words (Analyzer.corpus_text files) Hw) as Hs.
    rewrite length_map in Hs. fold (Analyzer.nonblank_sentences (Analyzer.corpus_text files)) in Hs.
    split; [exact Hs |]. unfold guarded_ratio.
    destruct (Nat.ltb_spec 0 (length (Analyzer.nonblank_sentences
                                        (Analyzer.corpus_text files)))); [| lia].
    destruct (Nat.ltb_spec 0 (length (Analyzer.corpus_words files))); [| lia].
    split.
    + unfold ratio. apply Qlt_shift_div_l.
      * unfold Qlt. simpl. lia.
      * rewrite Qmult_0_l. unfold Qlt. simpl. unfold Analyzer.corpus_words in *. lia.
    + apply ratio_at_least_one; [assumption |].
      apply tokens_lengths, (scan_tokens _ [] (pending_none _)).
  - intros Hz. unfold Analyzer.corpus_words in *. rewrite Hz. split.
    + apply guarded_ratio_zero.
    + reflexivity.
Qed.

End ReportFurther.

(** ** From the process stage to the analyze stage *)

Section Pipeline.
Context {U : UnicodeDB}.
Variable strip_html : text -> text * list text * list text.
Variable read_file : text -> Processor.load.
Variable now : nat -> text.

Lemma artifact_word_count k c p :
  artifact_of strip_html now k c p ->
  Processor.word_count (Processor.stats p)
  = length (findall_words (Processor.text_of p)).
Proof.
  intros (_ & _ & _ & Hstats). rewrite analyze_text_value in Hstats.
  pose proof (f_equal (fun r => match r with
                                | Ok d => Processor.words d
                                | Raise _ => 0
                                end) Hstats) as Hw.
  cbn [Processor.words] in Hw. now symmetry.
Qed.

(** X21.  The two stages agree on their counts: when the analyze
    stage loads the artifacts one run of the process stage wrote, in any
    order, [documents_processed] is the count the status holds under
    [HTML files], and [total_words] is the sum of the [word_count] fields
    of the artifacts. *)
Theorem pipeline_counts_agree (glob_html : list text) (stamp : text) :
  exists out status,
    Processor.main strip_html read_file now glob_html = Ok (out, status) /\
    forall files, Permutation files (map snd out) ->
      exists r,
        Analyzer.main stamp files = Ok r /\
        Analyzer.documents_processed r = Processor.HTML_files status /\
        Analyzer.total_words r =
          list_sum (map (fun a => Processor.word_count (Processor.stats (snd a)))
                        out).
Proof.
  destruct (main_artifacts strip_html read_file now glob_html)
    as (out & status & Hmain & Hart & Hn & _).
  exists out, status. split; [assumption |].
  intros files Hperm.
  exists (Analyzer.report stamp files). split; [apply main_returns |].
  unfold Analyzer.report.
  cbn [Analyzer.documents_processed Analyzer.total_words].
  split.
  - now rewrite Hn, (Permutation_length Hperm), length_map.
  - rewrite corpus_words_concat, length_concat, map_map.
    rewrite (Permutation_list_sum
               (Permutation_map
                  (fun f => length (findall_words (Analyzer.text_of f))) Hperm)).
    rewrite map_map. f_equal. apply map_ext_in. intros a Hin.
    destruct (artifacts_in _ _ _ _ _ _ Hart Hin) as (k & c & _ & Ha).
    symmetry. apply (artifact_word_count _ _ _ Ha).
Qed.

End Pipeline.

(** ** The completion gate, further *)

Section GateFurther.
Variable w : Gate.world.
Variables (path : text) (timeout interval : Q).

(** X22.  With a poll interval that [time.sleep] does not accept,
    a negative one or one too large to convert, the gate makes one round
    at most: it raises [TimeoutError] without a look at the marker when
    the timeout has already elapsed at the first reading of the clock,
    returns [True] when the first look finds the marker, and otherwise
    ends in the error of [time.sleep] after that one look.  That error is
    [OverflowError] when the conversion of the interval overflows, which
    it does from 1e10 seconds on in magnitude, and [ValueError] for the
    other negative intervals, those down to -9e9 seconds among them. *)
Theorem refused_interval_one_round (fuel : nat)
  (Hrefused : (interval < 0)%Q \/ Gate.sleep_overflows w interval = true) :
  let error :=
    if Gate.sleep_overflows w interval then OverflowError else ValueError in
  Gate.wait_for_complete_file w path timeout interval (S fuel) =
  Some (if Gate.in_time w timeout 0 then
          if Gate.path_exists w path 0
          then {| Gate.outcome := Ok true; Gate.polls := 1 |}
          else {| Gate.outcome := Raise error; Gate.polls := 1 |}
        else {| Gate.outcome := Raise TimeoutError; Gate.polls := 0 |}) /\
  ((- (9000000000) <= interval)%Q -> (interval < 0)%Q ->
   error = ValueError) /\
  ((interval <= - (10000000000))%Q \/ (10000000000 <= interval)%Q ->
   error = OverflowError).
Proof.
  cbv zeta. split; [| split].
  - unfold Gate.wait_for_complete_file.
    rewrite loop_step, (sleep_raises w interval Hrefused).
    destruct (Gate.in_time w timeout 0); [| reflexivity].
    now destruct (Gate.path_exists w path 0).
  - intros Hlo Hneg. rewrite (Gate.sleep_in_range w interval Hlo); [reflexivity |].
    lra.
  - intros Hout. now rewrite (Gate.sleep_out_of_range w interval Hout).
Qed.

End GateFurther.

Lemma refused_interval_one_round_witness :
  Gate.wait_for_complete_file (Gate.ticking (fun k => 3 <=? k))
    (of_string "/shared/status/fetch_complete.json") 300 (-3) 5
  = Some {| Gate.outcome := Raise ValueError; Gate.polls := 1 |}.
Proof.
  destruct (refused_interval_one_round (Gate.ticking (fun k => 3 <=? k))
              (of_string "/shared/status/fetch_complete.json") 300 (-3) 4)
    as [Hrun _].
  - left. reflexivity.
  - exact Hrun.
Defined.

(** ** Labels and file names *)

Section Labels.
Context {U : UnicodeDB}.
Variable strip_html : text -> text * list text * list text.
Variable read_file : text -> Processor.load.
Variable now : nat -> text.

Lemma artifact_path_page k :
  artifact_path k = of_string "/shared/processed/" ++ Analyzer.page k.
Proof. reflexivity. Qed.

(** X23.  The labels of the similarity table are positions, not file
    names: the process stage names its [n] artifacts [page_1.json] to
    [page_n.json], and the analyze stage, loading them in any order,
    labels the documents [page_0.json] to [page_(n-1).json]; so with two
    artifacts or more the table refers to [page_0.json], which no artifact
    is called, and never to [page_n.json], which one is. *)
Theorem similarity_labels_are_positions (glob_html : list text) (stamp : text) :
  exists out status,
    Processor.main strip_html read_file now glob_html = Ok (out, status) /\
    map fst out =
      map (fun k => of_string "/shared/processed/" ++ Analyzer.page k)
          (seq 1 (length out)) /\
    forall files, Permutation files (map snd out) ->
      exists r,
        Analyzer.main stamp files = Ok r /\
        Forall (fun e => exists i j,
                  i < j /\ j < length out /\
                  Analyzer.doc1 e = Analyzer.page i /\
                  Analyzer.doc2 e = Analyzer.page j)
               (Analyzer.document_similarity r) /\
        (2 <= length out ->
         exists e, In e (Analyzer.document_similarity r) /\
                   Analyzer.doc1 e = Analyzer.page 0) /\
        Forall (fun e => Analyzer.doc1 e <> Analyzer.page (length out) /\
                         Analyzer.doc2 e <> Analyzer.page (length out))
               (Analyzer.document_similarity r).
Proof.
  destruct (main_artifacts strip_html read_file now glob_html)
    as (out & status & Hmain & Hart & _).
  exists out, status. split; [assumption |].
  split.
  - rewrite (artifacts_paths _ _ _ _ _ Hart). apply map_ext.
    intros k. apply artifact_path_page.
  - intros files Hperm.
    assert (Hn : length files = length out).
    { now rewrite (Permutation_length Hperm), length_map. }
    exists (Analyzer.report stamp files). split; [apply main_returns |].
    unfold Analyzer.report. cbn [Analyzer.document_similarity]. rewrite Hn.
    assert (Hall : forall e,
      In e (map (Analyzer.similarity_entry_of files)
                (Analyzer.index_pairs (length out))) ->
      exists i j, i < j /\ j < length out /\
                  Analyzer.doc1 e = Analyzer.page i /\
                  Analyzer.doc2 e = Analyzer.page j).
    { intros e He. apply in_map_iff in He as ([i j] & <- & Hin).
      apply index_pairs_in in Hin as [Hij Hj]. now exists i, j. }
    split; [| split].
    + apply Forall_forall. exact Hall.
    + intros H2. exists (Analyzer.similarity_entry_of files (0, 1)).
      split; [| reflexivity]. apply in_map, index_pairs_in. lia.
    + apply Forall_forall. intros e He.
      destruct (Hall e He) as (i & j & Hij & Hj & H1 & H2).
      rewrite H1, H2. split; intros Heq; apply page_inj in Heq; lia.
Qed.

End Labels.

(** ** Script and style blocks *)

Section Blocks.
Variable unicode_ci : char -> char -> bool.

Lemma prefix_ci_app pat : forall a s,
  Html.prefix_ci unicode_ci pat a = Some [] ->
  Html.prefix_ci unicode_ci pat (a ++ s) = Some s.
Proof.
  induction pat as [| p pat IH]; intros a s; simpl.
  - now intros [= ->].
  - destruct a as [| d a]; [discriminate |]. simpl.
    destruct (Html.char_ci unicode_ci p d); [apply IH | discriminate].
Qed.

Lemma find_ci_after body pat close b :
  forallb (fun c => negb (c =? 60)%N) body = true ->
  Html.prefix_ci unicode_ci (60%N :: pat) close = Some [] ->
  Html.find_ci unicode_ci (60%N :: pat) (body ++ close ++ b) = Some b.
Proof.
  intros Hbody Hclose. induction body as [| c body IH].
  - simpl app. destruct (close ++ b) eqn:E;
      unfold Html.find_ci; fold Html.find_ci;
      rewrite <- E, (prefix_ci_app _ _ _ Hclose); reflexivity.
  - simpl in Hbody. apply andb_true_iff in Hbody as [Hc Hbody].
    apply negb_true_iff in Hc.
    simpl. unfold Html.char_ci at 1. simpl. rewrite Hc. now apply IH.
Qed.

Lemma block_match_leading name open attrs body close b :
  Html.prefix_ci unicode_ci (60%N :: name) open = Some [] ->
  forallb Html.not_gt attrs = true ->
  forallb (fun c => negb (c =? 60)%N) body = true ->
  Html.prefix_ci unicode_ci (60%N :: 47%N :: name ++ [62%N]) close = Some [] ->
  Html.block_match unicode_ci name
    (open ++ attrs ++ 62%N :: body ++ close ++ b)
  = Some (length (open ++ attrs ++ 62%N :: body ++ close) - 1).
Proof.
  intros Hopen Hattrs Hbody Hclose. unfold Html.block_match.
  rewrite (prefix_ci_app _ _ _ Hopen).
  rewrite (span_app_all _ attrs _ Hattrs). simpl snd.
  change (Html.span Html.not_gt (62%N :: body ++ close ++ b))
    with ([] : text, 62%N :: body ++ close ++ b).
  simpl snd.
  cbv beta iota.
  pose proof (find_ci_after body _ close b Hbody Hclose) as Hfind.
  unfold text, char in *. rewrite Hfind.
  f_equal. rewrite !length_app. cbn [length]. rewrite !length_app. lia.
Qed.

(** X24.  A script block at the head of a document leaves no trace:
    when the document opens with [<script] in any case, attributes
    without [>], a [>], a body without [<] and the closing tag in any
    case, [strip_html] returns what it returns on the rest of the
    document. *)
Theorem leading_block_dropped (open attrs body close b : text)
  (Hopen : Html.prefix_ci unicode_ci (of_string "<script") open = Some [])
  (Hattrs : forallb Html.not_gt attrs = true)
  (Hbody : forallb (fun c => negb (c =? 60)%N) body = true)
  (Hclose : Html.prefix_ci unicode_ci (of_string "</script>") close = Some []) :
  Html.strip_html unicode_ci (open ++ attrs ++ 62%N :: body ++ close ++ b)
  = Html.strip_html unicode_ci b.
Proof.
  unfold Html.strip_html.
  assert (Hsub : Html.sub (Html.block_match unicode_ci (of_string "script")) []
                   (open ++ attrs ++ 62%N :: body ++ close ++ b)
                 = Html.sub (Html.block_match unicode_ci (of_string "script")) [] b).
  { pose proof (block_match_leading (of_string "script") open attrs body close b
                  Hopen Hattrs Hbody Hclose) as Hm.
    destruct open as [| c open]; [discriminate Hopen |].
    assert (Hm' : Html.block_match unicode_ci (of_string "script")
                    (c :: open ++ attrs ++ 62%N :: body ++ close ++ b)
                  = Some (length (open ++ attrs ++ 62%N :: body ++ close))).
    { etransitivity; [exact Hm |]. f_equal. cbn [app length].
      rewrite Nat.sub_succ, Nat.sub_0_r. reflexivity. }
    change ((c :: open) ++ attrs ++ 62%N :: body ++ close ++ b)
      with (c :: open ++ attrs ++ 62%N :: body ++ close ++ b).
    rewrite sub_cons.
    match goal with
    | |- context [Html.block_match ?u ?n ?s] =>
        replace (Html.block_match u n s)
          with (Some (length (open ++ attrs ++ 62%N :: body ++ close)))
          by (symmetry; exact Hm')
    end.
    cbn [app]. f_equal.
    replace (open ++ attrs ++ 62%N :: body ++ close ++ b)
      with ((open ++ attrs ++ 62%N :: body ++ close) ++ b).
    - now rewrite skipn_app, skipn_all, Nat.sub_diag.
    - rewrite <- !app_assoc. cbn [app]. now rewrite <- !app_assoc. }
  now rewrite Hsub.
Qed.

End Blocks.

Lemma leading_block_dropped_witness :
  Html.strip_html Html.ascii_ci
    (of_string "<SCRIPT" ++ of_string " type=module" ++ 62%N
       :: of_string "let x = 1 > 0;" ++ of_string "</Script>"
       ++ of_string "<p>Hello</p>")
  = Html.strip_html Html.ascii_ci (of_string "<p>Hello</p>").
Proof.
  apply (leading_block_dropped Html.ascii_ci (of_string "<SCRIPT")
           (of_string " type=module") (of_string "let x = 1 > 0;")
           (of_string "</Script>") (of_string "<p>Hello</p>"));
    reflexivity.
Defined.
